(** * A shallow embedding of the BTE TRAPI query-graph handler

    The first part of the file gives the definitions, one module per
    source file:

    - [JS]              the fragment of JavaScript the sources rely on
                        (exceptions, insertion-ordered [Set]s, objects used
                        as maps, [Array.prototype.sort], [join], lodash's
                        [zip]);
    - [QueryResults]    [src/query_results.js], the results assembler;
    - [QExeEdge]        [src/query_execution_edge.js], the execution edge
                        and the string it hashes;
    - [CacheHandler]    [src/cache_handler.js], the cache key, the encode
                        and decode streams, the cache lookup and the
                        writing of the cache;
    - [KnowledgeGraph]  [src/graph/knowledge_graph.js];
    - [QueryHandler]    [src/index.js], the query graph, the main query
                        loop, with the error class of
                        [exceptions/invalid_query_graph_error.js];
    - [Pfocr]           [unnamed/part_001], the PFOCR lookup.

    The second part proves the properties, in modules named after these
    with [Facts] appended.

    Strings are [string]s (sequences of 8-bit code units); their order is
    the code-unit order [String.le], which is the order JavaScript's
    default [sort] uses on such strings. Code of the repository that is
    not among the sources (the helper, the query nodes, the edge manager,
    the batch handler, the hash) enters as a parameter or as the value it
    returns, and each place says so. *)

From Stdlib Require Import String Ascii List ZArith Lia Bool.
From stdpp Require Import base gmap sets list strings sorting pretty.

Open Scope string_scope.
Open Scope list_scope.

Set Warnings "-clear-no-such-hyp,-register-all".

(* ===================================================================== *)
(** * The JavaScript fragment *)
(* ===================================================================== *)

Module JS.

(** The exceptions the modelled code can raise. [RangeError] is the
    engine's "Maximum call stack size exceeded"; [DecodeError] stands for
    whatever [lz4.decode] or [JSON.parse] throw on a malformed payload. *)
Inductive Error : Type :=
| TypeError
| RangeError
| DecodeError
| InvalidQueryGraphError (message : string)
| OtherError (name : string) (message : string).

(** A computation either completes with a value or throws. *)
Inductive Outcome (A : Type) : Type :=
| Ok (a : A)
| Throw (e : Error).
Arguments Ok {A} a.
Arguments Throw {A} e.

Definition bind {A B : Type} (m : Outcome A) (k : A -> Outcome B) : Outcome B :=
  match m with
  | Ok a => k a
  | Throw e => Throw e
  end.

Notation "'let!' x ':=' m 'in' k" := (bind m (fun x => k))
  (at level 10, x pattern, m at level 200, k at level 200).

(** [arr.forEach(f)] where [f] updates a state and may throw. *)
Fixpoint forEachM {S A : Type} (f : S -> A -> Outcome S) (l : list A) (s : S)
  : Outcome S :=
  match l with
  | [] => Ok s
  | x :: l' => let! s' := f s x in forEachM f l' s'
  end.

(** [arr.map(f)] where [f] may throw. *)
Fixpoint mapM {A B : Type} (f : A -> Outcome B) (l : list A) : Outcome (list B) :=
  match l with
  | [] => Ok []
  | x :: l' => let! y := f x in let! ys := mapM f l' in Ok (y :: ys)
  end.

(** Dereferencing [undefined] throws a [TypeError]. *)
Definition defined {A : Type} (o : option A) : Outcome A :=
  match o with
  | Some a => Ok a
  | None => Throw TypeError
  end.

(** A JavaScript [Set] of strings: iterated in insertion order, [add] of a
    member changes nothing. *)
Definition JSSet : Type := list string.

Definition set_has (x : string) (s : JSSet) : bool := bool_decide (x ∈ s).

Definition set_add (x : string) (s : JSSet) : JSSet :=
  if set_has x s then s else s ++ [x].

(** [Array.from(set)] *)
Definition set_to_array (s : JSSet) : list string := s.

(** [new Set(arr)] *)
Definition set_of_array (l : list string) : JSSet :=
  fold_left (fun s x => set_add x s) l [].

(** An object used as a map from property names to values: its own
    enumerable properties in the order in which [keys], [toPairs] and
    [Object.entries] list them. (The engine lists the names that are array
    indices first, in ascending order, then the other names in the order
    of their creation; [obj_assign] below files a new property
    accordingly. The names [Object.prototype] defines are found on every
    object by [o[k]] and [k in o], not by [hasOwnProperty]. Where the
    results assembler reads [recordsByQEdgeID[k]] for a name the object
    has no property of, the read gives [undefined] or a value of
    [Object.prototype] that has no [records], and the next line throws
    the same [TypeError] on either.) *)
Definition Obj (V : Type) : Type := list (string * V).

Fixpoint obj_get {V : Type} (k : string) (o : Obj V) : option V :=
  match o with
  | [] => None
  | (k', v) :: o' => if bool_decide (k' = k) then Some v else obj_get k o'
  end.

Definition obj_has {V : Type} (k : string) (o : Obj V) : bool :=
  bool_decide (k ∈ o.*1).

(** [o[k] = v]: an existing property keeps its place. *)
Fixpoint obj_set {V : Type} (k : string) (v : V) (o : Obj V) : Obj V :=
  match o with
  | [] => [(k, v)]
  | (k', v') :: o' =>
      if bool_decide (k' = k) then (k, v) :: o' else (k', v') :: obj_set k v o'
  end.

(** The array index a property name denotes, if it denotes one: the name
    is the canonical decimal numeral of a number below 2^32 - 1. *)
Fixpoint numeral (acc : N) (s : string) : option N :=
  match s with
  | EmptyString => Some acc
  | String c s' =>
      let d := N_of_ascii c in
      if bool_decide (48 <= d <= 57)%N then numeral (10 * acc + (d - 48)) s' else None
  end.

Definition arrayIndex (k : string) : option N :=
  match k with
  | EmptyString => None
  | String "0" EmptyString => Some 0%N
  | String "0" _ => None
  | _ =>
      match numeral 0 k with
      | Some n => if bool_decide (n < 4294967295)%N then Some n else None
      | None => None
      end
  end.

(** A new property whose name is the array index [n] takes its place among
    the array indices, which the engine enumerates first and in ascending
    order. *)
Fixpoint insertIndex {V : Type} (n : N) (k : string) (v : V) (o : Obj V) : Obj V :=
  match o with
  | [] => [(k, v)]
  | (k', v') :: o' =>
      match arrayIndex k' with
      | Some n' => if bool_decide (n' < n)%N then (k', v') :: insertIndex n k v o'
                   else (k, v) :: o
      | None => (k, v) :: o
      end
  end.

(** [o[k] = v] on an ordinary object, for any property name [k]. A
    property the object has is written in place. Otherwise the name
    "__proto__" reaches the setter [Object.prototype] has for it: the
    prototype of the object is set (when [v] is an object or [null]) and no
    property is created; an array index is filed among the array indices;
    any other name is added after the properties the object has. *)
Definition obj_assign {V : Type} (k : string) (v : V) (o : Obj V) : Obj V :=
  if obj_has k o then obj_set k v o
  else if bool_decide (k = "__proto__") then o
  else match arrayIndex k with
       | Some n => insertIndex n k v o
       | None => o ++ [(k, v)]
       end.

(** The property name an optional string converts to: [o[undefined]] reads
    the property named "undefined". *)
Definition property_key (k : option string) : string :=
  match k with
  | Some s => s
  | None => "undefined"
  end.

(** Truthiness of a possibly undefined string: [undefined] and the empty
    string are falsy. *)
Definition truthy (s : option string) : bool :=
  match s with
  | Some s => negb (bool_decide (s = ""))
  | None => false
  end.

(** [arr.sort()] with no comparator, on an array of strings: ascending in
    code-unit order. The engine's algorithm is its own; insertion sort
    stands for it. *)
Fixpoint sort_insert (x : string) (l : list string) : list string :=
  match l with
  | [] => [x]
  | y :: l' => if String.leb x y then x :: l else y :: sort_insert x l'
  end.

Definition sort (l : list string) : list string := foldr sort_insert [] l.

(** [arr.join(sep)] *)
Definition join (sep : string) (l : list string) : string := String.concat sep l.

(** lodash's [zip(...arrays)]: the i-th group holds the i-th element of
    every array, [undefined] where an array is too short. *)
Definition zip {A : Type} (arrays : list (list A)) : list (list (option A)) :=
  (fun i => (fun a : list A => a !! i) <$> arrays) <$> seq 0 (max_list (length <$> arrays)).

End JS.

Import JS.

(* ===================================================================== *)
(** * The results assembler ([src/query_results.js]) *)
(* ===================================================================== *)

Module QueryResults.

(** A record, as far as the assembler looks at it. The assembler reads
    records through the accessors of [helper.js] only; that file is not
    among the sources, so a record is taken to be the tuple of what the
    seven accessors return on it, each field named after its accessor. *)
Record QRecord : Type := {
  _getInputQueryNodeID : string;
  _getOutputQueryNodeID : string;
  _getInputCurie : string;
  _getOutputCurie : string;
  _getRecordHash : string;
  _getInputIsSet : bool;
  _getOutputIsSet : bool
}.

(** An accessor dereferences its argument, so on [undefined] (which is
    what [records[0]] and [records.find(..)] are on an empty array) the
    call throws. *)
Definition helper {A : Type} (get : QRecord -> A) (record : option QRecord) : Outcome A :=
  let! r := defined record in Ok (get r).

(** [EdgeData] and [DataByEdge] of the source's typedefs. *)
Record EdgeData : Type := {
  connected_to : list string;
  records : list QRecord
}.

Definition DataByEdge : Type := Obj EdgeData.

(** One element of a preresult (the object literal pushed at lines 147-154). *)
Record UcRecord : Type := {
  inputQNodeID : string;
  outputQNodeID : string;
  inputPrimaryCurie : string;
  outputPrimaryCurie : string;
  qEdgeID : string;
  recordHash : string
}.

(** A preresult: one such element per query edge. *)
Abbreviation Preresult := (list UcRecord).

(** ** Preresult enumeration

    [_getUnconsolidatedResults] pushes onto arrays that its callers and
    the result list [ucResults] still hold, so the arrays live in a store
    and are passed by reference: [arrays] is the store, a reference is an
    index into it, and [ucResults] lists the references pushed so far. *)
Record Heap : Type := {
  arrays : list Preresult;
  ucResults : list nat
}.

Definition deref (h : Heap) (r : nat) : Preresult := default [] (arrays h !! r).

(** [[...a]]: a fresh array with the elements of [a]. *)
Definition alloc (a : Preresult) (h : Heap) : nat * Heap :=
  (length (arrays h), {| arrays := arrays h ++ [a]; ucResults := ucResults h |}).

(** [r.push(x)] *)
Definition push (r : nat) (x : UcRecord) (h : Heap) : Heap :=
  {| arrays := alter (fun a => a ++ [x]) r (arrays h); ucResults := ucResults h |}.

(** [ucResults.push(r)] *)
Definition push_result (r : nat) (h : Heap) : Heap :=
  {| arrays := arrays h; ucResults := ucResults h ++ [r] |}.

(** [[x, undefined].indexOf(toMatch) > -1] *)
Definition matches (x : string) (toMatch : option string) : bool :=
  bool_decide (toMatch = Some x \/ toMatch = None).

(** Lines 147-154: what is pushed for a record of the edge [qEdgeID]. *)
Definition ucRecord (qEdgeID : string) (record : QRecord) : UcRecord :=
  {| inputQNodeID := _getInputQueryNodeID record;
     outputQNodeID := _getOutputQueryNodeID record;
     inputPrimaryCurie := _getInputCurie record;
     outputPrimaryCurie := _getOutputCurie record;
     qEdgeID := qEdgeID;
     recordHash := _getRecordHash record |}.

(** Lines 100-172. [depth] is the number of stack frames left: the
    recursion has no visited set, and on data that leads it round a cycle
    the engine ends it with a [RangeError]. *)
Fixpoint _getUnconsolidatedResults (depth : nat) (recordsByQEdgeID : DataByEdge)
    (qEdgeID : string) (edgeCount : nat) (ucResult : nat)
    (qNodeIDToMatch primaryCurieToMatch : option string) (h : Heap) : Outcome Heap :=
  match depth with
  | 0 => Throw RangeError
  | S depth' =>
    let! edge := defined (obj_get qEdgeID recordsByQEdgeID) in
    let record := head (records edge) in
    let! inputQNodeID := helper _getInputQueryNodeID record in
    let! outputQNodeID := helper _getOutputQueryNodeID record in
    let direction :=
      if matches inputQNodeID qNodeIDToMatch then
        Some (outputQNodeID, _getInputCurie, _getOutputCurie)
      else if bool_decide (qNodeIDToMatch = Some outputQNodeID) then
        Some (inputQNodeID, _getOutputCurie, _getInputCurie)
      else None in
    match direction with
    | None => Ok h
    | Some (otherQNodeID, getMatchingPrimaryCurie, getOtherPrimaryCurie) =>
      let ucResultClone := deref h ucResult in
      let matching :=
        List.filter (fun record => matches (getMatchingPrimaryCurie record) primaryCurieToMatch)
                    (records edge) in
      let! (_, _, h') :=
        forEachM (fun '(i, ucResult, h) record =>
          let otherPrimaryCurie := getOtherPrimaryCurie record in
          let '(ucResult, h) :=
            if bool_decide (i <> 0) then alloc ucResultClone h else (ucResult, h) in
          let h := push ucResult (ucRecord qEdgeID record) h in
          let h :=
            if bool_decide (length (deref h ucResult) = edgeCount)
            then push_result ucResult h else h in
          let! h :=
            forEachM (fun h connectedQEdgeID =>
              _getUnconsolidatedResults depth' recordsByQEdgeID connectedQEdgeID
                edgeCount ucResult (Some otherQNodeID) (Some otherPrimaryCurie) h)
              (connected_to edge) h in
          Ok (S i, ucResult, h))
        matching (0, ucResult, h) in
      Ok h'
    end
  end.

(** Lines 193-199. *)
Definition _getUniqueNodeID (qNodeIDsWithIsSet : JSSet) (qNodeID primaryCurie : string) : string :=
  if set_has qNodeID qNodeIDsWithIsSet then qNodeID
  else qNodeID +:+ "-" +:+ primaryCurie.

(** Lines 231-243: the QNodes whose first record says [is_set]. *)
Definition findIsSet (recordsByQEdgeID : DataByEdge) : Outcome JSSet :=
  forEachM (fun qNodeIDsWithIsSet '(qEdgeID, edge) =>
    let! inputQNodeID := helper _getInputQueryNodeID (head (records edge)) in
    let! outputQNodeID := helper _getOutputQueryNodeID (head (records edge)) in
    let! inputIsSet := helper _getInputIsSet (head (records edge)) in
    let s := if inputIsSet then set_add inputQNodeID qNodeIDsWithIsSet
             else qNodeIDsWithIsSet in
    let! outputIsSet := helper _getOutputIsSet (head (records edge)) in
    Ok (if outputIsSet then set_add outputQNodeID s else s))
  recordsByQEdgeID [].

(** Lines 257-276: the inner [connected_to.some(..)]. The state is the pair
    [(initialQEdgeID, initialQNodeIDToMatch)]; the callback returns [true]
    (stops the iteration) only when it assigns. *)
Fixpoint findRootAmong (recordsByQEdgeID : DataByEdge)
    (queryEdgeID inputQNodeID outputQNodeID : string) (connected : list string)
    (initial : option string * option string) : Outcome (option string * option string) :=
  match connected with
  | [] => Ok initial
  | c :: connected' =>
    let! nextEdge := defined (obj_get c recordsByQEdgeID) in
    let! inputQNodeID_1 := helper _getInputQueryNodeID (head (records nextEdge)) in
    let! outputQNodeID_1 := helper _getOutputQueryNodeID (head (records nextEdge)) in
    if negb (truthy initial.1) then
      if bool_decide (inputQNodeID ∉ [inputQNodeID_1; outputQNodeID_1]) then
        Ok (Some queryEdgeID, Some inputQNodeID)
      else if bool_decide (outputQNodeID ∉ [outputQNodeID_1; outputQNodeID_1]) then
        Ok (Some queryEdgeID, Some outputQNodeID)
      else
        findRootAmong recordsByQEdgeID queryEdgeID inputQNodeID outputQNodeID connected' initial
    else
      findRootAmong recordsByQEdgeID queryEdgeID inputQNodeID outputQNodeID connected' initial
  end.

(** Lines 248-283: the outer [toPairs(recordsByQEdgeID).some(..)]. An edge
    with an empty [connected_to] assigns and lets the iteration go on. *)
Fixpoint findRoot (recordsByQEdgeID : DataByEdge) (pairs : list (string * EdgeData))
    (initial : option string * option string) : Outcome (option string * option string) :=
  match pairs with
  | [] => Ok initial
  | (queryEdgeID, edge) :: pairs' =>
    let! inputQNodeID := helper _getInputQueryNodeID (head (records edge)) in
    let! outputQNodeID := helper _getOutputQueryNodeID (head (records edge)) in
    if bool_decide (length (connected_to edge) = 0) then
      findRoot recordsByQEdgeID pairs' (Some queryEdgeID, Some inputQNodeID)
    else
      let! initial' :=
        findRootAmong recordsByQEdgeID queryEdgeID inputQNodeID outputQNodeID
                      (connected_to edge) initial in
      if truthy initial'.1 then Ok initial'
      else findRoot recordsByQEdgeID pairs' initial'
  end.

(** Lines 289-297: the enumeration as [update] runs it. The first preresult
    [[]] is the array at reference 0; the results are read after the
    traversal has finished, so they show every later push. *)
Definition enumerate (depth : nat) (recordsByQEdgeID : DataByEdge) : Outcome (list Preresult) :=
  let qEdgeCount := length (set_of_array recordsByQEdgeID.*1) in
  let! (initialQEdgeID, initialQNodeIDToMatch) :=
    findRoot recordsByQEdgeID recordsByQEdgeID (None, None) in
  let! h :=
    _getUnconsolidatedResults depth recordsByQEdgeID (property_key initialQEdgeID)
      qEdgeCount 0 initialQNodeIDToMatch None
      {| arrays := [[]]; ucResults := [] |} in
  Ok (deref h <$> ucResults h).

(** ** Consolidation *)

(** Lines 329-348: the consolidated result identifier of one preresult. *)
Definition uniqueNodeIDs (qNodeIDsWithIsSet : JSSet) (ucResult : Preresult) : JSSet :=
  fold_left (fun s r =>
    set_add (_getUniqueNodeID qNodeIDsWithIsSet (outputQNodeID r) (outputPrimaryCurie r))
      (set_add (_getUniqueNodeID qNodeIDsWithIsSet (inputQNodeID r) (inputPrimaryCurie r)) s))
    ucResult [].

Definition uniqueResultID (qNodeIDsWithIsSet : JSSet) (ucResult : Preresult) : string :=
  join "_&_" (sort (set_to_array (uniqueNodeIDs qNodeIDsWithIsSet ucResult))).

(** Lines 359-362: file a preresult under its identifier. The array the
    [push] of line 362 reads is the property of that name; under the
    identifier "__proto__" there is none, the array read is the prototype
    line 360 has just set, and the object gains nothing. *)
Definition fileUnder (uniqueResultID : string) (ucResult : Preresult)
    (ucResultsByResultID : Obj (list Preresult)) : Obj (list Preresult) :=
  let o := if obj_has uniqueResultID ucResultsByResultID then ucResultsByResultID
           else obj_assign uniqueResultID [] ucResultsByResultID in
  match obj_get uniqueResultID o with
  | Some ucResults => obj_set uniqueResultID (ucResults ++ [ucResult]) o
  | None => o
  end.

(** Lines 317-363: the preresults filed one after the other, into [o]. *)
Definition fileAll (qNodeIDsWithIsSet : JSSet) (unconsolidatedResults : list Preresult)
    (o : Obj (list Preresult)) : Obj (list Preresult) :=
  fold_left (fun o ucResult => fileUnder (uniqueResultID qNodeIDsWithIsSet ucResult) ucResult o)
            unconsolidatedResults o.

Definition groupByResultID (qNodeIDsWithIsSet : JSSet) (unconsolidatedResults : list Preresult)
  : Obj (list Preresult) :=
  fileAll qNodeIDsWithIsSet unconsolidatedResults [].

(** The object built at lines 371-378 and filled at 379-388. *)
Record ConsolidatedRecord : Type := {
  c_inputQNodeID : string;
  c_outputQNodeID : string;
  inputPrimaryCuries : JSSet;
  outputPrimaryCuries : JSSet;
  c_qEdgeID : string;
  recordHashes : JSSet
}.

(** Lines 369-390, for one group of [zip]: element 0 names the QNodes and
    the QEdge, every element adds its curies and hash. A missing element
    (a preresult shorter than the longest of its group) is [undefined],
    and reading a field of it throws. *)
Definition consolidateRecords (ucResultRecords : list (option UcRecord)) : Outcome ConsolidatedRecord :=
  let! ucResultRecord_0 := defined (mjoin (head ucResultRecords)) in
  forEachM (fun c ucResultRecord =>
    let! r := defined ucResultRecord in
    Ok {| c_inputQNodeID := c_inputQNodeID c;
          c_outputQNodeID := c_outputQNodeID c;
          inputPrimaryCuries := set_add (inputPrimaryCurie r) (inputPrimaryCuries c);
          outputPrimaryCuries := set_add (outputPrimaryCurie r) (outputPrimaryCuries c);
          c_qEdgeID := c_qEdgeID c;
          recordHashes := set_add (recordHash r) (recordHashes c) |})
    ucResultRecords
    {| c_inputQNodeID := inputQNodeID ucResultRecord_0;
       c_outputQNodeID := outputQNodeID ucResultRecord_0;
       inputPrimaryCuries := [];
       outputPrimaryCuries := [];
       c_qEdgeID := qEdgeID ucResultRecord_0;
       recordHashes := [] |}.

(** Lines 365-391, for one group of preresults. *)
Definition consolidate (ucResults : list Preresult) : Outcome (list ConsolidatedRecord) :=
  mapM consolidateRecords (zip ucResults).

(** ** Results *)

(** [{ id: .. }] *)
Record Binding : Type := { id : string }.

(** The score is the constant 1.0 of line 400. *)
Record Result : Type := {
  node_bindings : Obj (list Binding);
  edge_bindings : Obj (list Binding);
  score : Z
}.

(** Lines 397-427, for one consolidated group. *)
Definition toResult (cResult : list ConsolidatedRecord) : Result :=
  fold_left (fun result c =>
    {| node_bindings :=
         obj_assign (c_outputQNodeID c) (Build_Binding <$> set_to_array (outputPrimaryCuries c))
           (obj_assign (c_inputQNodeID c) (Build_Binding <$> set_to_array (inputPrimaryCuries c))
              (node_bindings result));
       edge_bindings :=
         obj_assign (c_qEdgeID c) (Build_Binding <$> set_to_array (recordHashes c))
           (edge_bindings result);
       score := score result |})
    cResult
    {| node_bindings := []; edge_bindings := []; score := 1 |}.

(** Everything [update] computes, in the order it computes it. *)
Record Assembly : Type := {
  isSetIDs : JSSet;
  preresults : list Preresult;
  groups : Obj (list Preresult);
  results : list Result
}.

Definition assemble (depth : nat) (recordsByQEdgeID : DataByEdge) : Outcome Assembly :=
  let! qNodeIDsWithIsSet := findIsSet recordsByQEdgeID in
  let! unconsolidatedResults := enumerate depth recordsByQEdgeID in
  let ucResultsByResultID := groupByResultID qNodeIDsWithIsSet unconsolidatedResults in
  let! consolidatedResults := mapM (fun '(_, ucResults) => consolidate ucResults) ucResultsByResultID in
  Ok {| isSetIDs := qNodeIDsWithIsSet;
        preresults := unconsolidatedResults;
        groups := ucResultsByResultID;
        results := toResult <$> consolidatedResults |}.

(** ** The class *)

Record QueryResult : Type := { _results : list Result }.

(** Lines 55-61. *)
Definition constructor : QueryResult := {| _results := [] |}.

(** Lines 63-65. *)
Definition getResults (this : QueryResult) : list Result := _results this.

(** Lines 222-428. [_results] is emptied first and assigned last, so a
    call that throws leaves it empty. *)
Definition update (depth : nat) (recordsByQEdgeID : DataByEdge) (this : QueryResult)
  : QueryResult * Outcome unit :=
  let this := {| _results := [] |} in
  match assemble depth recordsByQEdgeID with
  | Ok a => ({| _results := results a |}, Ok tt)
  | Throw e => (this, Throw e)
  end.

(** ** The consolidation key in the words of the specification

    "a set of per-node tokens: QNodeID alone if that node is marked
    is_set, else QNodeID + "-" + curie. Sort tokens, join by a reserved
    separator". *)
Definition spec_token (is_set : string -> Prop) `{!forall q, Decision (is_set q)}
    (qNodeID curie : string) : string :=
  if decide (is_set qNodeID) then qNodeID else qNodeID +:+ "-" +:+ curie.

Definition spec_tokens (is_set : string -> Prop) `{!forall q, Decision (is_set q)}
    (p : Preresult) : gset string :=
  list_to_set (p ≫= fun r =>
    [spec_token is_set (inputQNodeID r) (inputPrimaryCurie r);
     spec_token is_set (outputQNodeID r) (outputPrimaryCurie r)]).

Definition spec_consolidation_key (is_set : string -> Prop) `{!forall q, Decision (is_set q)}
    (p : Preresult) : string :=
  String.concat "_&_" (merge_sort String.le (elements (spec_tokens is_set p))).

(** ** Examples: the scenarios of the specification *)

Definition mkRecord (iq ic oq oc h : string) (iset oset : bool) : QRecord :=
  {| _getInputQueryNodeID := iq; _getOutputQueryNodeID := oq;
     _getInputCurie := ic; _getOutputCurie := oc; _getRecordHash := h;
     _getInputIsSet := iset; _getOutputIsSet := oset |}.

(** Scenario 1: n1 -e01-> n2 <-e02- n3, one record per edge. *)
Definition two_hop : DataByEdge :=
  [("e01", {| connected_to := ["e02"];
              records := [mkRecord "n1" "NCBIGene:3778" "n2" "MONDO:0011122" "h1" false false] |});
   ("e02", {| connected_to := ["e01"];
              records := [mkRecord "n3" "NCBIGene:7289" "n2" "MONDO:0011122" "h2" false false] |})].

(** Scenario 2: three diseases at n2, with and without [is_set]. *)
Definition three_diseases (n2_is_set : bool) : DataByEdge :=
  [("e01", {| connected_to := ["e02"];
              records := (fun d => mkRecord "n1" "NCBIGene:3778" "n2" d ("a" +:+ d) false n2_is_set)
                           <$> ["D3"; "D1"; "D2"] |});
   ("e02", {| connected_to := ["e01"];
              records := (fun d => mkRecord "n3" "NCBIGene:7289" "n2" d ("b" +:+ d) false n2_is_set)
                           <$> ["D3"; "D1"; "D2"] |})].

(** Scenario 3: a disease on e01 that no record of e02 continues. *)
Definition dead_end : DataByEdge :=
  [("e01", {| connected_to := ["e02"];
              records := (fun d => mkRecord "n1" "NCBIGene:3778" "n2" d ("a" +:+ d) false false)
                           <$> ["D1"; "D2"] |});
   ("e02", {| connected_to := ["e01"];
              records := [mkRecord "n3" "NCBIGene:7289" "n2" "D1" "bD1" false false] |})].

(** A query graph of one edge. *)
Definition one_hop (e : string) (recs : list QRecord) : DataByEdge :=
  [(e, {| connected_to := []; records := recs |})].

(** One edge from a QNode named "__proto__" to itself, the QNode marked
    [is_set]; two records. *)
Definition proto_loop : DataByEdge :=
  one_hop "e0" [mkRecord "__proto__" "NCBIGene:3778" "__proto__" "NCBIGene:7289" "h1" true true;
                mkRecord "__proto__" "NCBIGene:3778" "__proto__" "NCBIGene:1017" "h2" true true].

(** ** Order of the bindings inside a result *)

(** Every binding list of the result is sorted by identifier under [R]. *)
Definition bindings_sorted (R : relation string) (r : Result) : Prop :=
  (forall q bs, (q, bs) ∈ node_bindings r -> Sorted R (id <$> bs)) /\
  (forall e bs, (e, bs) ∈ edge_bindings r -> Sorted R (id <$> bs)).

(** The bindings for the identifiers [l], each once, in the order of their
    first occurrence in [l]. *)
Definition first_occurrences (l : list string) : list Binding :=
  Build_Binding <$> set_to_array (set_of_array l).

(** [col] is one position of the group [g] read across its preresults. *)
Definition column_of (g : list Preresult) (col : list UcRecord) : Prop :=
  Some <$> col ∈ zip g.

(** Every binding list of [r] lists, without repetition and in order of
    first occurrence, what one position of the group [g] holds across the
    preresults of the group. *)
Definition bindings_from_group (g : list Preresult) (r : Result) : Prop :=
  (forall q bs, (q, bs) ∈ node_bindings r ->
     NoDup bs /\
     exists col r0, column_of g col /\ head col = Some r0 /\
       ((q = inputQNodeID r0 /\ bs = first_occurrences (inputPrimaryCurie <$> col)) \/
        (q = outputQNodeID r0 /\ bs = first_occurrences (outputPrimaryCurie <$> col)))) /\
  (forall e bs, (e, bs) ∈ edge_bindings r ->
     NoDup bs /\
     exists col r0, column_of g col /\ head col = Some r0 /\
       e = qEdgeID r0 /\ bs = first_occurrences (recordHash <$> col)).

(** ** What the result identifier looks at *)

(** The element of a preresult with its two ends exchanged, as a record
    of the reversed edge would give it. *)
Definition flipRecord (r : UcRecord) : UcRecord :=
  {| inputQNodeID := outputQNodeID r;
     outputQNodeID := inputQNodeID r;
     inputPrimaryCurie := outputPrimaryCurie r;
     outputPrimaryCurie := inputPrimaryCurie r;
     qEdgeID := qEdgeID r;
     recordHash := recordHash r |}.

(** Two elements that name the same QNodes and agree on the curie of
    every QNode that is not marked [is_set]. *)
Definition agreeUpToIsSet (qNodeIDsWithIsSet : JSSet) (r r' : UcRecord) : Prop :=
  inputQNodeID r = inputQNodeID r' /\
  outputQNodeID r = outputQNodeID r' /\
  (inputQNodeID r ∈ qNodeIDsWithIsSet \/ inputPrimaryCurie r = inputPrimaryCurie r') /\
  (outputQNodeID r ∈ qNodeIDsWithIsSet \/ outputPrimaryCurie r = outputPrimaryCurie r').

(** ** Where the elements of a preresult come from *)

(** The element is what line 147 builds for a record of the edge it
    names. *)
Definition fromRecords (recordsByQEdgeID : DataByEdge) (u : UcRecord) : Prop :=
  exists edge record,
    obj_get (qEdgeID u) recordsByQEdgeID = Some edge /\
    record ∈ records edge /\
    u = ucRecord (qEdgeID u) record.

(** A query graph of two edges that meet at one QNode, [e1] listed first.
    The records of [e1] lead to the shared QNode; those of [e2] start from
    it ([forward]) or lead to it. *)
Definition two_hop_path (e1 e2 : string) (recs1 recs2 : list QRecord) : DataByEdge :=
  [(e1, {| connected_to := [e2]; records := recs1 |});
   (e2, {| connected_to := [e1]; records := recs2 |})].

(** The QNode a record of the second edge shares with the first edge,
    and its other QNode. *)
Definition sharedNode (forward : bool) (y : QRecord) : string :=
  if forward then _getInputQueryNodeID y else _getOutputQueryNodeID y.

Definition farNode (forward : bool) (y : QRecord) : string :=
  if forward then _getOutputQueryNodeID y else _getInputQueryNodeID y.

Definition farCurie (forward : bool) (y : QRecord) : string :=
  if forward then _getOutputCurie y else _getInputCurie y.

(** The first records of the two edges describe a path: the first edge
    leads from its input QNode to the QNode the second edge shares, and
    the second edge's other QNode is a third one. *)
Definition isPath (forward : bool) (r1 r2 : QRecord) : Prop :=
  sharedNode forward r2 = _getOutputQueryNodeID r1 /\
  _getInputQueryNodeID r1 <> _getOutputQueryNodeID r1 /\
  farNode forward r2 <> _getInputQueryNodeID r1 /\
  farNode forward r2 <> _getOutputQueryNodeID r1.

(** The curie a record of the second edge has at the shared QNode. *)
Definition sharedCurie (forward : bool) (y : QRecord) : string :=
  if forward then _getInputCurie y else _getOutputCurie y.

(** The pairs of records that agree on the curie of the shared QNode, in
    the order of the records of [e1], then of [e2]. *)
Definition joined (e1 e2 : string) (forward : bool) (recs1 recs2 : list QRecord)
  : list Preresult :=
  recs1 ≫= fun x =>
    (fun y => [ucRecord e1 x; ucRecord e2 y])
      <$> List.filter (fun y => bool_decide (sharedCurie forward y = _getOutputCurie x)) recs2.

End QueryResults.

(* ===================================================================== *)
(** * The execution edge ([src/query_execution_edge.js]) *)
(* ===================================================================== *)

Module QExeEdge.

(** A value that is [undefined], a string or an array of strings: what a
    predicate and a node's curie can be. *)
Inductive StringOrArray : Type :=
| Undefined
| Str (s : string)
| Arr (l : list string).

(** What string concatenation makes of such a value: an array is joined
    with ",", [undefined] reads "undefined". *)
Definition toString (v : StringOrArray) : string :=
  match v with
  | Undefined => "undefined"
  | Str s => s
  | Arr l => join "," l
  end.

(** An array element that is [undefined] is joined as the empty string. *)
Definition arrayToString (l : list (option string)) : string :=
  join "," (default "" <$> l).

(** [a || b] on such values: [undefined] and the empty string are falsy,
    every array is truthy. *)
Definition or_else (a b : StringOrArray) : StringOrArray :=
  match a with
  | Undefined | Str "" => b
  | _ => a
  end.

(** A query node, as far as the edge asks it: the class is not among the
    sources, the two fields are what [getCategories()] and [getCurie()]
    return. *)
Record QNode : Type := {
  getCategories : list string;
  getCurie : StringOrArray
}.

Record QEdge : Type := {
  getID : string;
  qEdge_subject : QNode;
  qEdge_object : QNode;
  qEdge_predicate : StringOrArray
}.

(** The execution edge: the fields its constructor sets (lines 13-17; the
    predecessor edge is kept by its identifier), and the properties
    [subject], [predicate] and [object] that [getHashedEdgeRepresentation]
    reads from the object. *)
Record QExeEdge : Type := {
  qEdge : QEdge;
  reverse : bool;
  prev_edge : option string;
  input_equivalent_identifiers : Obj (list string);
  output_equivalent_identifiers : Obj (list string);
  subject : QNode;
  predicate : StringOrArray;
  object : QNode
}.

(** Lines 61-67. *)
Definition getInputCurie (this : QExeEdge) : list (option string) :=
  match or_else (getCurie (qEdge_subject (qEdge this))) (getCurie (qEdge_object (qEdge this))) with
  | Arr curie => Some <$> curie
  | Str curie => [Some curie]
  | Undefined => [None]
  end.

(** Line 26: the string that is hashed. *)
Definition toBeHashed (this : QExeEdge) : string :=
  join "," (getCategories (subject this)) +:+ toString (predicate this)
  +:+ join "," (getCategories (object this)) +:+ arrayToString (getInputCurie this).

Section Hash.

(** [helper._generateHash], which is not among the sources. *)
Variable _generateHash : string -> string.

(** Lines 24-28. *)
Definition getHashedEdgeRepresentation (this : QExeEdge) : string :=
  _generateHash (toBeHashed this).

End Hash.

(** Two edges that differ in the order of their categories only. *)
Definition gene_protein (categories : list string) : QExeEdge :=
  let n0 := {| getCategories := categories; getCurie := Str "NCBIGene:3778" |} in
  let n1 := {| getCategories := ["Disease"]; getCurie := Undefined |} in
  {| qEdge := {| getID := "e01"; qEdge_subject := n0; qEdge_object := n1;
                 qEdge_predicate := Str "biolink:related_to" |};
     reverse := false; prev_edge := None;
     input_equivalent_identifiers := []; output_equivalent_identifiers := [];
     subject := n0; predicate := Str "related_to"; object := n1 |}.

End QExeEdge.

(* ===================================================================== *)
(** * The cache handler ([src/cache_handler.js]) *)
(* ===================================================================== *)

Module CacheHandler.

Import QExeEdge.

(** ** The cache key *)

(** A MetaKG operation, as far as the key looks at it:
    [op.association.smartapi.id]. *)
Record Op : Type := { smartapi_id : string }.

Record MetaKG : Type := { ops : list Op }.

(** Lines 165-166: what the key takes from the MetaKG. *)
Definition len (metaKG : MetaKG) : string := pretty (length (ops metaKG)).

Definition allIDs (metaKG : MetaKG) : string :=
  join "" (set_to_array (set_of_array (smartapi_id <$> ops metaKG))).

Section Key.

Variable _generateHash : string -> string.

(** Lines 161-168. [metaKG] is [None] when the handler was built without
    one. *)
Definition _hashEdgeByKG (metaKG : option MetaKG) (qXEdgeHash : string) : string :=
  match metaKG with
  | None => qXEdgeHash
  | Some metaKG => _generateHash (qXEdgeHash +:+ len metaKG +:+ allIDs metaKG)
  end.

(** Line 71: the key of an execution edge. *)
Definition cacheKey (metaKG : option MetaKG) (qXEdge : QExeEdge) : string :=
  _hashEdgeByKG metaKG (getHashedEdgeRepresentation _generateHash qXEdge).

End Key.

(** ** Strings of the streams *)

(** [s.includes(c)] for a one-character [c]. *)
Fixpoint includes (c : ascii) (s : string) : bool :=
  match s with
  | EmptyString => false
  | String c' s' => bool_decide (c' = c) || includes c s'
  end.

(** [s.split(c)] for a one-character [c]: never empty, the last part is
    what follows the last [c]. *)
Fixpoint split (c : ascii) (s : string) : list string :=
  match s with
  | EmptyString => [""]
  | String c' s' =>
      if bool_decide (c' = c) then "" :: split c s'
      else match split c s' with
           | part :: parts => String c' part :: parts
           | [] => [String c' ""]
           end
  end.

(** [stream-chunker]'s regrouping of a stream into chunks of [size]
    bytes; with [flush: true] what is left at the end is one more chunk. *)
Fixpoint chunks (fuel size : nat) (l : list ascii) : list (list ascii) :=
  match fuel, l with
  | 0, _ | _, [] => []
  | S fuel', _ => take size l :: chunks fuel' size (drop size l)
  end.

Definition chunker (size : nat) (s : string) : list string :=
  string_of_list_ascii <$> chunks (String.length s) size (list_ascii_of_string s).

(** The chunk size of line 227. *)
Definition chunkSize : nat := Z.to_nat 100000.

Section Streams.

(** What is written for one record, and what is read back. The codec is
    made of library calls:
    [encode x] is [lz4.encode(JSON.stringify(x)).toString('base64url')],
    [decode s] is [JSON.parse(lz4.decode(Buffer.from(s, 'base64url')).toString())],
    which throws on a payload that is not what [encode] wrote. *)
Variable Payload : Type.
Variable encode : Payload -> string.
Variable decode : string -> Outcome Payload.

(** Lines 186-196, [createEncodeStream]: the stream written for a list of
    records, every record followed by the delimiter. *)
Definition encodeStream (records : list Payload) : string :=
  String.concat "" ((fun chunk => encode chunk +:+ ",") <$> records).

(** Lines 225-230: the chunks stored under the fields "0", "1", ... *)
Definition stored (records : list Payload) : list string :=
  chunker chunkSize (encodeStream records).

(** Lines 12-16: a [DelimitedChunks] with what it has pushed so far. *)
Record DelimitedChunks : Type := {
  _buffer : string;
  pushed : list Payload
}.

Definition newDelimitedChunks : DelimitedChunks := {| _buffer := ""; pushed := [] |}.

(** How a call of [_transform] ends: it calls [callback] (the stream goes
    on), it returns without calling it (the stream waits for ever), or it
    throws. *)
Inductive Transformed : Type :=
| CalledBack (this : DelimitedChunks)
| NoCallback (this : DelimitedChunks)
| Threw (e : Error).

(** Lines 18-29. *)
Definition _transform (chunk : string) (this : DelimitedChunks) : Transformed :=
  let buffer := _buffer this +:+ chunk in
  if includes "," buffer then
    let parts := split "," buffer in
    match mapM decode (removelast parts) with
    | Ok parsed => CalledBack {| _buffer := List.last parts ""; pushed := pushed this ++ parsed |}
    | Throw e => Threw e
    end
  else NoCallback {| _buffer := buffer; pushed := pushed this |}.

(** The error of a stream whose callback is called a second time. *)
Definition ERR_MULTIPLE_CALLBACK : Error := OtherError "Error" "Callback called multiple times".

(** Lines 31-41: how [_flush] leaves the stream, with the data pushed
    before the stream ends, or with the error the stream is destroyed
    with. With a buffer that is not empty the decoded rest is handed to
    the callback (line 35) and the callback is called once more (line 37):
    the stream is destroyed with the error of the second call and "end" is
    not emitted. *)
Definition _flush (this : DelimitedChunks) : Outcome (list Payload) :=
  if bool_decide (String.length (_buffer this) <> 0) then
    match decode (_buffer this) with
    | Ok final => Throw ERR_MULTIPLE_CALLBACK
    | Throw e => Throw e
    end
  else Ok (pushed this).

(** How reading a stored entry through the decode stream ends: with "end"
    after the data, never, or with an error nobody listens for. (The
    stream has no "error" listener and [_transform] runs from the
    stream's own callbacks, outside every [try] of the handler.) *)
Inductive Piped : Type :=
| End_ (data : list Payload)
| NeverEnds
| Uncaught (e : Error).

(** Lines 85-89: the stored chunks piped through the decode stream. *)
Fixpoint pipeDecode (chunks : list string) (this : DelimitedChunks) : Piped :=
  match chunks with
  | [] => match _flush this with
          | Ok data => End_ data
          | Throw e => Uncaught e
          end
  | chunk :: chunks' =>
      match _transform chunk this with
      | CalledBack this' => pipeDecode chunks' this'
      | NoCallback _ => NeverEnds
      | Threw e => Uncaught e
      end
  end.

Definition decodeStored (chunks : list string) : Piped :=
  pipeDecode chunks newDelimitedChunks.

(** ** The lookup *)

(** What the handler does to the lock of a key, in order. *)
Inductive LockEvent : Type :=
| Lock (name : string)
| Unlock (name : string).

(** [hgetallAsync]: the entry's chunks in field order (lines 79-83 sort the
    fields by number), [None] when there is no entry, or an error. *)
Definition Redis : Type := string -> Outcome (option (list string)).

(** How the promise of lines 72-99 ends. *)
Inductive Lookup : Type :=
| Resolved (cachedRecordJSON : option (list Payload))
| Pending
| Crashed (e : Error).

(** Lines 72-99 for one key. The [try] block only starts the pipe, so
    [finally] unlocks before the stream has run; what the stream does
    afterwards decides how the promise ends. *)
Definition lookup (redis : Redis) (qXEdgeKGHashes : string) : list LockEvent * Lookup :=
  let redisID := "bte:edgeCache:" +:+ qXEdgeKGHashes in
  let locked := [Lock ("redisLock:" +:+ qXEdgeKGHashes)] in
  let unlocked := locked ++ [Unlock ("redisLock:" +:+ qXEdgeKGHashes)] in
  match redis redisID with
  | Ok (Some sortedRecords) =>
      (unlocked,
       match decodeStored sortedRecords with
       | End_ decodedRecords => Resolved (Some decodedRecords)
       | NeverEnds => Pending
       | Uncaught e => Crashed e
       end)
  | Ok None => (unlocked, Resolved None)
  | Throw _ => (unlocked, Resolved None)
  end.

(** A record with its back-reference to the execution edge. *)
Record CachedRecord : Type := {
  payload : Payload;
  trapi_qEdge_obj : option QExeEdge
}.

(** Lines 125-159, as far as the back-reference goes: the copy that is
    serialized has none. *)
Definition _copyRecord (record : CachedRecord) : Payload := payload record.

Record Categorized : Type := {
  cachedRecords : list CachedRecord;
  nonCachedQXEdges : list QExeEdge;
  cacheHits : list string;
  lockEvents : list LockEvent
}.

(** How [categorizeEdges] ends: it returns, it waits for ever on a promise,
    or an error escapes. *)
Inductive Categorization : Type :=
| Returned (result : Categorized)
| Hangs (events : list LockEvent)
| Escaped (events : list LockEvent) (e : Error).

Variable _generateHash : string -> string.

(** Lines 67-122, the loop over the edges (caching enabled). *)
Fixpoint categorize (redis : Redis) (metaKG : option MetaKG) (qXEdges : list QExeEdge)
    (acc : Categorized) : Categorization :=
  match qXEdges with
  | [] => Returned acc
  | qXEdge :: qXEdges' =>
      let qXEdgeKGHashes := cacheKey _generateHash metaKG qXEdge in
      let '(events, cachedRecordJSON) := lookup redis qXEdgeKGHashes in
      match cachedRecordJSON with
      | Resolved (Some records) =>
          categorize redis metaKG qXEdges'
            {| cachedRecords := cachedRecords acc ++
                 ((fun rec => {| payload := rec; trapi_qEdge_obj := Some qXEdge |}) <$> records);
               nonCachedQXEdges := nonCachedQXEdges acc;
               cacheHits := cacheHits acc ++ [getID (qEdge qXEdge)];
               lockEvents := lockEvents acc ++ events |}
      | Resolved None =>
          categorize redis metaKG qXEdges'
            {| cachedRecords := cachedRecords acc;
               nonCachedQXEdges := nonCachedQXEdges acc ++ [qXEdge];
               cacheHits := cacheHits acc;
               lockEvents := lockEvents acc ++ events |}
      | Pending => Hangs (lockEvents acc ++ events)
      | Crashed e => Escaped (lockEvents acc ++ events) e
      end
  end.

(** Lines 60-123. *)
Definition categorizeEdges (cacheEnabled : bool) (redis : Redis) (metaKG : option MetaKG)
    (qXEdges : list QExeEdge) : Categorization :=
  if cacheEnabled then
    categorize redis metaKG qXEdges
      {| cachedRecords := []; nonCachedQXEdges := []; cacheHits := []; lockEvents := [] |}
  else
    Returned {| cachedRecords := []; nonCachedQXEdges := qXEdges;
                cacheHits := []; lockEvents := [] |}.

End Streams.

(** The lock of a key taken and released. *)
Definition lockedAndReleased (hash : string) : list LockEvent :=
  [Lock ("redisLock:" +:+ hash); Unlock ("redisLock:" +:+ hash)].

(** ** The constructor (lines 45-58) *)

(** The environment variables the handler reads. *)
Record Env : Type := {
  RESULT_CACHING : option string;
  REDIS_HOST : option string;
  REDIS_PORT : option string;
  REDIS_KEY_EXPIRE_TIME : option string
}.

(** Lines 49-54. [caching] is [Some b] for the boolean [b] and [None] for
    any other value ([undefined] when the option is not given): only the
    boolean [false] is [=== false]. *)
Definition cacheEnabled (caching : option bool) (env : Env) : bool :=
  if bool_decide (caching = Some false) then false
  else if negb (bool_decide (RESULT_CACHING env = Some "false"))
       then negb (bool_decide (REDIS_HOST env = None)) &&
            negb (bool_decide (REDIS_PORT env = None))
       else false.

(** Lines 55-57: the message of the DEBUG entry the constructor logs. *)
Definition constructorLog (caching : option bool) (env : Env) : string :=
  "REDIS cache is " +:+ (if cacheEnabled caching env then "" else "not") +:+ " enabled.".

(** Line 235: [process.env.REDIS_KEY_EXPIRE_TIME || 600]. A variable that
    is set to a string that is not empty is passed on as that string. *)
Inductive ExpireTime : Type :=
| Seconds (n : Z)
| FromEnv (s : string).

Definition expireTime (env : Env) : ExpireTime :=
  match REDIS_KEY_EXPIRE_TIME env with
  | Some s => if bool_decide (s = "") then Seconds 600 else FromEnv s
  | None => Seconds 600
  end.

(** ** The Redis client

    [redis-client.js] is not among the sources. The handler uses four of
    its commands; each either completes, leaving the store in a new
    state, or is rejected. [Db] is the state of the store. (Taking a lock
    is taken to succeed, as in [lookup].) *)
Class RedisClient (Db : Type) : Type := {
  delAsync : string -> Db -> Outcome Db;
  hsetAsync : string -> string -> string -> Db -> Outcome Db;
  expireAsync : string -> ExpireTime -> Db -> Outcome Db;
  hgetallAsync : string -> Db -> Outcome (option (Obj string))
}.

(** A store that behaves as a Redis server does as long as no entry
    expires: a map from keys to hashes, a hash being a map from fields to
    values. [HGETALL] of a key without fields is [null]. *)
Definition Store : Type := Obj (Obj string).

#[export] Instance memory : RedisClient Store := {|
  delAsync key (s : Obj (Obj string)) :=
    Ok (List.filter (fun entry : string * Obj string => negb (bool_decide (entry.1 = key))) s);
  hsetAsync key field value (s : Obj (Obj string)) :=
    Ok (obj_set key (obj_set field value (default ([] : Obj string) (obj_get key s))) s);
  expireAsync key seconds s := Ok s;
  hgetallAsync key (s : Obj (Obj string)) :=
    Ok (match obj_get key s with
        | Some [] => None
        | cachedRecord => cachedRecord
        end)
|}.

(** The error a replica that accepts no write answers with. *)
Definition READONLY : Error :=
  OtherError "ReplyError" "READONLY You can't write against a read only replica.".

(** The client of such a replica: what it holds can be read, every write
    is rejected. *)
Definition readOnly : RedisClient Store := {|
  delAsync key s := Throw READONLY;
  hsetAsync key field value s := Throw READONLY;
  expireAsync key seconds s := Throw READONLY;
  hgetallAsync := hgetallAsync (RedisClient := memory)
|}.

Section Caching.

Variable Payload : Type.
Variable encode : Payload -> string.
Variable decode : string -> Outcome Payload.
Variable _generateHash : string -> string.

(** [parseInt], a function of the language: the number a string starts
    with, [None] for [NaN]. *)
Variable parseInt : string -> option Z.

(** Lines 79-83. The comparator is [parseInt(key1) - parseInt(key2)]; a
    comparator that returns [NaN] is taken to have returned 0. The
    engine's algorithm is its own; merge sort stands for it. *)
Definition fieldsInOrder (entry1 entry2 : string * string) : Prop :=
  match parseInt entry1.1, parseInt entry2.1 with
  | Some n1, Some n2 => (n1 - n2 <= 0)%Z
  | _, _ => True
  end.

#[export] Instance fieldsInOrder_dec : RelDecision fieldsInOrder.
Proof.
  intros entry1 entry2. unfold fieldsInOrder.
  destruct (parseInt entry1.1), (parseInt entry2.1); apply _.
Defined.

Definition sortedRecords (cachedRecord : Obj string) : list string :=
  (merge_sort fieldsInOrder cachedRecord).*2.

Section Client.

Context {Db : Type} `{!RedisClient Db}.

(** Lines 76-92 on a store: what the stream is fed with. *)
Definition redisOf (s : Db) : Redis :=
  fun redisID =>
    match hgetallAsync redisID s with
    | Ok (Some cachedRecord) => Ok (Some (sortedRecords cachedRecord))
    | Ok None => Ok None
    | Throw e => Throw e
    end.

(** Lines 170-184. A record without execution edge makes the body of the
    [try] throw, and is skipped. *)
Definition _groupQueryRecordsByQXEdgeHash (metaKG : option MetaKG)
    (queryRecords : list (CachedRecord Payload)) : Obj (list Payload) :=
  fold_left (fun groupedRecords record =>
    match trapi_qEdge_obj Payload record with
    | Some qXEdge =>
        let qXEdgeKGHash := cacheKey _generateHash metaKG qXEdge in
        let groupedRecords :=
          if obj_has qXEdgeKGHash groupedRecords then groupedRecords
          else obj_set qXEdgeKGHash [] groupedRecords in
        obj_set qXEdgeKGHash
          (default [] (obj_get qXEdgeKGHash groupedRecords) ++ [_copyRecord Payload record])
          groupedRecords
    | None => groupedRecords
    end) queryRecords [].

(** The key under which a record is cached, if it has an execution edge
    (line 174). *)
Definition keyOf (metaKG : option MetaKG) (record : CachedRecord Payload) : option string :=
  cacheKey _generateHash metaKG <$> trapi_qEdge_obj Payload record.

(** What the parent thread is told: [{ cacheInProgress: 1 }] (line 210),
    [{ cacheDone: 1 }] (line 247) and, when the cache is disabled,
    [{ cacheDone: true }] (line 205). *)
Inductive Message : Type :=
| CacheInProgress
| CacheDone
| CacheDoneDisabled.

(** A run of [cacheEdges]: the store, the locks taken and released, the
    messages posted, the errors written to the console (line 237), and
    the rejection of [hsetAsync] that nothing handles. The listener of
    "data" (line 227) is an async function whose promise nothing awaits:
    when [hsetAsync] is rejected, the rejection is unhandled and the
    engine ends the thread with it. A run with such a rejection has ended
    there: nothing later in the source has run. *)
Record CacheRun : Type := {
  store : Db;
  locks : list LockEvent;
  messages : list Message;
  console : list Error;
  unhandledRejections : list Error
}.

(** Lines 225-230: every chunk is written under the field that counts it,
    up to the first [hsetAsync] that is rejected, if there is one. *)
Fixpoint writeChunks (redisID : string) (i : nat) (chunks : list string) (s : Db)
  : Db * list Error :=
  match chunks with
  | [] => (s, [])
  | chunk :: chunks' =>
      match hsetAsync redisID (pretty i) chunk s with
      | Ok s' => writeChunks redisID (S i) chunks' s'
      | Throw e => (s, [e])
      end
  end.

(** Lines 217-241 for one key. After an unhandled rejection the lock is
    still held: [unlock] (line 239) has not run. *)
Definition cacheEdge (env : Env) (hash : string) (records : list Payload) (r : CacheRun)
  : CacheRun :=
  let redisID := "bte:edgeCache:" +:+ hash in
  let locked := locks r ++ [Lock ("redisLock:" +:+ hash)] in
  let unlocked := locked ++ [Unlock ("redisLock:" +:+ hash)] in
  match delAsync redisID (store r) with
  | Throw error =>
      {| store := store r; locks := unlocked; messages := messages r;
         console := console r ++ [error]; unhandledRejections := unhandledRejections r |}
  | Ok s =>
      let '(s, rejections) := writeChunks redisID 0 (stored Payload encode records) s in
      match rejections with
      | _ :: _ =>
          {| store := s; locks := locked; messages := messages r;
             console := console r;
             unhandledRejections := unhandledRejections r ++ rejections |}
      | [] =>
          match expireAsync redisID (expireTime env) s with
          | Throw error =>
              {| store := s; locks := unlocked; messages := messages r;
                 console := console r ++ [error];
                 unhandledRejections := unhandledRejections r |}
          | Ok s =>
              {| store := s; locks := unlocked; messages := messages r;
                 console := console r;
                 unhandledRejections := unhandledRejections r |}
          end
      end
  end.

(** Lines 202-250. [parentPort] tells whether the handler runs in a
    worker thread. After an unhandled rejection no further key is written
    and [cacheDone] (line 247) is not posted. *)
Definition cacheEdges (cacheEnabled parentPort : bool) (env : Env) (metaKG : option MetaKG)
    (queryRecords : list (CachedRecord Payload)) (s : Db) : CacheRun :=
  if cacheEnabled then
    let r :=
      fold_left (fun r '(hash, records) =>
                   match unhandledRejections r with
                   | [] => cacheEdge env hash records r
                   | _ :: _ => r
                   end)
        (_groupQueryRecordsByQXEdgeHash metaKG queryRecords)
        {| store := s; locks := [];
           messages := if parentPort then [CacheInProgress] else [];
           console := []; unhandledRejections := [] |} in
    match unhandledRejections r with
    | [] =>
        {| store := store r; locks := locks r;
           messages := messages r ++ (if parentPort then [CacheDone] else []);
           console := console r; unhandledRejections := unhandledRejections r |}
    | _ :: _ => r
    end
  else
    {| store := s; locks := [];
       messages := if parentPort then [CacheDoneDisabled] else [];
       console := []; unhandledRejections := [] |}.

End Client.

End Caching.

(** ** A [parseInt] for the examples: decimal numerals *)

Definition digit (c : ascii) : option Z :=
  let n := Z.of_N (N_of_ascii c) in
  if bool_decide (48 <= n <= 57)%Z then Some (n - 48)%Z else None.

Fixpoint decimal_from (acc : Z) (s : string) : option Z :=
  match s with
  | EmptyString => Some acc
  | String c s' =>
      match digit c with
      | Some d => decimal_from (10 * acc + d) s'
      | None => None
      end
  end.

Definition decimal (s : string) : option Z :=
  match s with
  | EmptyString => None
  | _ => decimal_from 0 s
  end.

(** ** A codec for the examples

    A payload is a number, written in unary with the base64url letter A;
    a string with any other character does not decode. *)
Definition unary_encode (x : nat) : string := string_of_list_ascii (replicate x "A"%char).

Fixpoint unary_decode (s : string) : Outcome nat :=
  match s with
  | EmptyString => Ok 0
  | String c s' =>
      if bool_decide (c = "A"%char) then
        match unary_decode s' with
        | Ok n => Ok (S n)
        | Throw e => Throw e
        end
      else Throw DecodeError
  end.

(** A record whose encoding is as long as a chunk. *)
Definition large_record : nat := chunkSize.

End CacheHandler.

(* ===================================================================== *)
(** * The knowledge-graph builder ([src/graph/knowledge_graph.js]) *)
(* ===================================================================== *)

Module KnowledgeGraph.

(** The JavaScript values an attribute can hold. *)
Inductive JSValue : Type :=
| JUndefined
| JNull
| JBool (b : bool)
| JNum (n : Z)
| JStr (s : string)
| JArr (l : list JSValue)
| JObj (o : list (string * JSValue)).

(** Truthiness, as [if (v)] tests it. *)
Definition truthy (v : JSValue) : bool :=
  match v with
  | JUndefined | JNull | JBool false | JNum 0 | JStr "" => false
  | _ => true
  end.

(** [...v] inside an array literal: an array gives its elements, a string
    its characters, anything else is not iterable. *)
Definition spread (v : JSValue) : Outcome (list JSValue) :=
  match v with
  | JArr l => Ok l
  | JStr s => Ok ((fun c => JStr (String c "")) <$> list_ascii_of_string s)
  | _ => Throw TypeError
  end.

(** [Array.from(set)] as a value. *)
Definition arrayFrom (s : JSSet) : JSValue := JArr (JStr <$> set_to_array s).

(** A node of the BTE graph, as far as [_createNode] reads it. *)
Record KGNode : Type := {
  _primaryID : string;
  _semanticType : string;
  _label : string;
  _curies : list string;
  _names : list string;
  _sourceNodes : JSSet;
  _targetNodes : JSSet;
  _sourceQGNodes : JSSet;
  _targetQGNodes : JSSet;
  _nodeAttributes : Obj JSValue
}.

(** An edge of the BTE graph, as far as [_createAttributes] and
    [_createEdge] read it. *)
Record KGEdge : Type := {
  predicate : string;
  subject : string;
  object : string;
  apis : JSSet;
  sources : JSSet;
  inforesCuries : JSSet;
  publications : JSSet;
  attributes : Obj JSValue
}.

Record BTEGraph : Type := {
  graph_nodes : Obj KGNode;
  graph_edges : Obj KGEdge
}.

(** The nodes and edges the builder emits. *)
Record TrapiNode : Type := {
  node_categories : list string;
  node_name : string;
  node_attributes : list JSValue
}.

Record TrapiEdge : Type := {
  edge_predicate : string;
  edge_subject : string;
  edge_object : string;
  edge_attributes : list JSValue
}.

(** An attribute object with and without [value_type_id]. *)
Definition attribute (attribute_type_id : string) (value : JSValue) (value_type_id : string)
  : JSValue :=
  JObj [("attribute_type_id", JStr attribute_type_id);
        ("value", value);
        ("value_type_id", JStr value_type_id)].

Definition attribute2 (attribute_type_id : string) (value : JSValue) : JSValue :=
  JObj [("attribute_type_id", JStr attribute_type_id); ("value", value)].

(** The loops of lines 58-64, 108-114 and 135-141. *)
Definition bagAttributes (bag : Obj JSValue) : list JSValue :=
  (fun '(key, value) => attribute key value ("bts:" +:+ key)) <$> bag.

(** Lines 23-66. *)
Definition _createNode (kgNode : KGNode) : TrapiNode :=
  {| node_categories := ["biolink:" +:+ _semanticType kgNode];
     node_name := _label kgNode;
     node_attributes :=
       [attribute2 "biolink:xref" (JArr (JStr <$> _curies kgNode));
        attribute2 "biolink:synonym" (JArr (JStr <$> _names kgNode));
        attribute "num_source_nodes" (JNum (Z.of_nat (length (_sourceNodes kgNode))))
                  "bts:num_source_nodes";
        attribute "num_target_nodes" (JNum (Z.of_nat (length (_targetNodes kgNode))))
                  "bts:num_target_nodes";
        attribute "source_qg_nodes" (arrayFrom (_sourceQGNodes kgNode)) "bts:source_qg_nodes";
        attribute "target_qg_nodes" (arrayFrom (_targetQGNodes kgNode)) "bts:target_qg_nodes"]
       ++ bagAttributes (_nodeAttributes kgNode) |}.

(** Lines 70-74: the attribute every edge starts with. *)
Definition aggregator : JSValue :=
  attribute "biolink:aggregator_knowledge_source"
            (JArr [JStr "infores:translator-biothings-explorer"])
            "biolink:InformationResource".

(** Lines 80-87: the direct information providers. *)
Definition directProviders : list string :=
  ["Clinical Risk KP API";
   "Text Mining Targeted Association API";
   "Multiomics Wellness KP API";
   "Drug Response KP API";
   "Text Mining Co-occurrence API";
   "TCGA Mutation Frequency API"].

(** Lines 68-145. *)
Definition _createAttributes (kgEdge : KGEdge) : Outcome (list JSValue) :=
  let attributes0 := [aggregator] in
  if truthy (default JUndefined (obj_get "attributes" (attributes kgEdge))) then
    let! given := spread (default JUndefined (obj_get "attributes" (attributes kgEdge))) in
    Ok (attributes0 ++ given)
  else if existsb (fun api_name => set_has api_name (apis kgEdge)) directProviders then
    Ok ((attributes0 ++
         [attribute "biolink:supporting_data_source" (arrayFrom (sources kgEdge))
                    "biolink:InformationResource";
          attribute "biolink:primary_knowledge_source" (arrayFrom (inforesCuries kgEdge))
                    "biolink:InformationResource";
          attribute "publications" (arrayFrom (publications kgEdge)) "biolink:publication"])
        ++ bagAttributes (attributes kgEdge))
  else
    Ok ((attributes0 ++
         [attribute "biolink:primary_knowledge_source" (arrayFrom (sources kgEdge))
                    "biolink:InformationResource";
          attribute "biolink:aggregator_knowledge_source" (arrayFrom (inforesCuries kgEdge))
                    "biolink:InformationResource";
          attribute "publications" (arrayFrom (publications kgEdge)) "biolink:publication"])
        ++ bagAttributes (attributes kgEdge)).

(** Lines 147-154. *)
Definition _createEdge (kgEdge : KGEdge) : Outcome TrapiEdge :=
  let! attributes := _createAttributes kgEdge in
  Ok {| edge_predicate := predicate kgEdge;
        edge_subject := subject kgEdge;
        edge_object := object kgEdge;
        edge_attributes := attributes |}.

(** The builder: [kg] of the source is the pair of the two fields. *)
Record KnowledgeGraph : Type := {
  nodes : Obj TrapiNode;
  edges : Obj TrapiEdge
}.

(** Lines 6-13. *)
Definition constructor : KnowledgeGraph := {| nodes := []; edges := [] |}.

(** Lines 160-162: an edge that cannot be built ends the loop with the
    error; the edges before it are in place. *)
Fixpoint updateEdges (bteEdges : list (string * KGEdge)) (this : KnowledgeGraph)
  : KnowledgeGraph * Outcome unit :=
  match bteEdges with
  | [] => (this, Ok tt)
  | (edge, kgEdge) :: bteEdges' =>
      match _createEdge kgEdge with
      | Ok e =>
          updateEdges bteEdges' {| nodes := nodes this; edges := obj_assign edge e (edges this) |}
      | Throw err => (this, Throw err)
      end
  end.

(** Lines 157-159. *)
Definition updateNodes (bteNodes : list (string * KGNode)) (this : KnowledgeGraph)
  : KnowledgeGraph :=
  fold_left (fun this '(node, kgNode) =>
    {| nodes := obj_assign (_primaryID kgNode) (_createNode kgNode) (nodes this);
       edges := edges this |}) bteNodes this.

(** Lines 156-167. *)
Definition update (bteGraph : BTEGraph) (this : KnowledgeGraph) : KnowledgeGraph * Outcome unit :=
  updateEdges (graph_edges bteGraph) (updateNodes (graph_nodes bteGraph) this).

(** The builder after a series of updates, completed or not. *)
Definition after (bteGraphs : list BTEGraph) : KnowledgeGraph :=
  fold_left (fun this bteGraph => (update bteGraph this).1) bteGraphs constructor.

(** The edge's attribute list begins with the aggregator attribute of BTE. *)
Definition begins_with_aggregator (e : TrapiEdge) : Prop :=
  exists value_type_id rest,
    edge_attributes e
    = JObj [("attribute_type_id", JStr "biolink:aggregator_knowledge_source");
            ("value", JArr [JStr "infores:translator-biothings-explorer"]);
            ("value_type_id", value_type_id)] :: rest.

(** ** Examples: one edge of each kind *)

Definition kgEdge_of (api : string) (bag : Obj JSValue) : KGEdge :=
  {| predicate := "biolink:related_to"; subject := "NCBIGene:3778"; object := "MONDO:0011122";
     apis := [api]; sources := ["infores:source"]; inforesCuries := ["infores:api"];
     publications := ["PMID:123"]; attributes := bag |}.

Definition three_kinds : BTEGraph :=
  {| graph_nodes := [];
     graph_edges :=
       [("trapi", kgEdge_of "Automat Pharos" [("attributes", JArr [JStr "given"])]);
        ("direct", kgEdge_of "Drug Response KP API" [("p", JNum 1)]);
        ("other", kgEdge_of "MyGene.info API" [])] |}.

(** Lines 15-21. *)
Definition getNodes (this : KnowledgeGraph) : Obj TrapiNode := nodes this.

Definition getEdges (this : KnowledgeGraph) : Obj TrapiEdge := edges this.

(** The value [kgEdge.attributes.attributes] is truthy and cannot be
    spread: it is neither an array nor a string. *)
Definition attributesNotIterable (kgEdge : KGEdge) : Prop :=
  let given := default JUndefined (obj_get "attributes" (attributes kgEdge)) in
  truthy given = true /\ (forall l, given <> JArr l) /\ (forall s, given <> JStr s).

(** A graph node for the examples. *)
Definition kgNode_of (primaryID label : string) : KGNode :=
  {| _primaryID := primaryID; _semanticType := "Gene"; _label := label;
     _curies := [primaryID]; _names := [label];
     _sourceNodes := []; _targetNodes := []; _sourceQGNodes := []; _targetQGNodes := ["n0"];
     _nodeAttributes := [] |}.

(** One entity under two keys of the BTE graph, and two edges. *)
Definition small_graph : BTEGraph :=
  {| graph_nodes := [("NCBIGene:3778-n0", kgNode_of "NCBIGene:3778" "KCNMA1");
                     ("NCBIGene:3778-n2", kgNode_of "NCBIGene:3778" "SLO1")];
     graph_edges := [("direct", kgEdge_of "Drug Response KP API" [("p", JNum 1)]);
                     ("other", kgEdge_of "MyGene.info API" [])] |}.

End KnowledgeGraph.

(* ===================================================================== *)
(** * The query handler ([src/index.js]) *)
(* ===================================================================== *)

Module QueryHandler.

Import QueryResults.

(** ** Errors at the boundary ([exceptions/invalid_query_graph_error.js]) *)

(** Line 2: the default message. *)
Definition defaultMessage : string := "Your Input Query Graph is invalid.".

(** [err instanceof InvalidQueryGraphError] *)
Definition isInvalidQueryGraphError (err : Error) : bool :=
  match err with
  | InvalidQueryGraphError _ => true
  | _ => false
  end.

(** [err.name]: line 11 for the class, the built-in names otherwise. *)
Definition name (err : Error) : string :=
  match err with
  | TypeError => "TypeError"
  | RangeError => "RangeError"
  | DecodeError => "Error"
  | InvalidQueryGraphError _ => "InvalidQueryGraphError"
  | OtherError name _ => name
  end.

(** [err.statusCode]: line 13 for the class, [undefined] otherwise. *)
Definition statusCode (err : Error) : option Z :=
  match err with
  | InvalidQueryGraphError _ => Some 400%Z
  | _ => None
  end.

(** ** Logs *)

(** The [data] of a log entry, as far as [query] reads it: [data.qEdgeID],
    [data.type], and whether [data.error] and [data.hits] are truthy. *)
Record LogData : Type := {
  data_qEdgeID : option string;
  data_type : option string;
  data_error : bool;
  data_hits : bool
}.

(** What [new LogEntry(level, null, message, data).getLog()] holds. *)
Record Log : Type := {
  level : string;
  message : string;
  data : option LogData
}.

Definition noData : LogData :=
  {| data_qEdgeID := None; data_type := None; data_error := false; data_hits := false |}.

(** [data?.qEdgeID === id && data?.type === type] *)
Definition logged (id type : string) (log : Log) : bool :=
  match data log with
  | Some d => bool_decide (data_qEdgeID d = Some id) && bool_decide (data_type d = Some type)
  | None => false
  end.

(** Lines 192-203. *)
Definition _logSkippedQueries (unavailableAPIs : Obj Z) (logs : list Log) : list Log :=
  fold_left (fun logs '(api, skippedQueries) =>
    let skippedQueries := (skippedQueries - 1)%Z in
    if bool_decide (0 < skippedQueries)%Z then
      logs ++ [{| level := "WARNING";
                  message := pretty skippedQueries +:+ " additional quer"
                    +:+ (if bool_decide (1 < skippedQueries)%Z then "ies" else "y")
                    +:+ " to " +:+ api +:+ " "
                    +:+ (if bool_decide (1 < skippedQueries)%Z then "were" else "was")
                    +:+ " skipped as the API was unavailable.";
                  data := None |}]
    else logs) unavailableAPIs logs.

(** ** The handler *)

Record TRAPIQueryHandler : Type := {
  logs : list Log;
  trapiResultsAssembler : QueryResult;
  knowledgeGraph : KnowledgeGraph.KnowledgeGraph
}.

(** Lines 75-80. *)
Definition _initializeResponse (this : TRAPIQueryHandler) : TRAPIQueryHandler :=
  {| logs := logs this;
     trapiResultsAssembler := QueryResults.constructor;
     knowledgeGraph := KnowledgeGraph.constructor |}.

(** Lines 41-51. The query graph is echoed and the logs are rendered by
    their own [toJSON]; the response keeps the entries as they are. *)
Record Response : Type := {
  workflow : list string;
  knowledge_graph : KnowledgeGraph.KnowledgeGraph;
  results : list Result;
  response_logs : list Log
}.

Definition getResponse (this : TRAPIQueryHandler) : Response :=
  {| workflow := ["lookup"];
     knowledge_graph := knowledgeGraph this;
     results := getResults (trapiResultsAssembler this);
     response_logs := logs this |}.

(** ** The collaborators

    The edge manager and the batch handler are not among the sources; the
    handler uses them through these interfaces. [M] is the state of an
    edge manager, which owns the execution edges; [E] names one of its
    edges; [R] is a record; [W] is the world the batch handler queries. *)
Class EdgeManager (M E R : Type) : Type := {
  getEdgesNotExecuted : M -> bool;
  getNext : M -> E * M;
  getID : E -> string;
  qEdge_id : E -> string;
  isReversed : M -> E -> bool;
  subject_id : M -> E -> string;
  object_id : M -> E -> string;
  storeRecords : E -> list R -> M -> M;
  updateEdgeRecords : E -> M -> M;
  updateAllOtherEdges : E -> M -> M;
  edge_records : M -> E -> list R;
  set_executed : E -> M -> M
}.

(** [handler.query(handler.qXEdges, unavailableAPIs)]: the records, the
    handler's logs, and what the call leaves in [unavailableAPIs] and in
    the world. *)
Class BatchEdgeQueryHandler (W M E R : Type) : Type := {
  handler_query : W -> M -> E -> Obj Z -> Outcome (list R * list Log * Obj Z * W)
}.

Section Query.

Context {M E R W Edges MetaKG : Type}.
Context `{!EdgeManager M E R, !BatchEdgeQueryHandler W M E R}.

(** [new QueryGraph(queryGraph)] followed by [calculateEdges()]: the
    execution edges and the handler's logs, or what was thrown. *)
Variable calculateEdges : Outcome (Edges * list Log).

(** Lines 86-99. *)
Definition _processQueryGraph (this : TRAPIQueryHandler) : Outcome (TRAPIQueryHandler * Edges) :=
  match calculateEdges with
  | Ok (queryExecutionEdges, handlerLogs) =>
      Ok ({| logs := logs this ++ handlerLogs;
             trapiResultsAssembler := trapiResultsAssembler this;
             knowledgeGraph := knowledgeGraph this |}, queryExecutionEdges)
  | Throw err =>
      if isInvalidQueryGraphError err then Throw err
      else Throw (InvalidQueryGraphError defaultMessage)
  end.

(** The state of a run of the loop. [queried] lists the edges handed to
    the batch handler so far; the code has no such list, the statements
    below use it. *)
Record Run : Type := {
  this_ : TRAPIQueryHandler;
  manager : M;
  unavailableAPIs : Obj Z;
  world : W;
  queried : list E
}.

Definition push (log : Log) (this : TRAPIQueryHandler) : TRAPIQueryHandler :=
  {| logs := logs this ++ [log];
     trapiResultsAssembler := trapiResultsAssembler this;
     knowledgeGraph := knowledgeGraph this |}.

Definition setLogs (logs : list Log) (this : TRAPIQueryHandler) : TRAPIQueryHandler :=
  {| logs := logs;
     trapiResultsAssembler := trapiResultsAssembler this;
     knowledgeGraph := knowledgeGraph this |}.

(** Lines 253-261. *)
Definition executingLog (manager : M) (currentQXEdge : E) : Log :=
  {| level := "INFO";
     message := "Executing " +:+ getID currentQXEdge
       +:+ (if isReversed manager currentQXEdge then " (reversed)" else "") +:+ ": "
       +:+ subject_id manager currentQXEdge +:+ " "
       +:+ (if isReversed manager currentQXEdge then "<--" else "-->") +:+ " "
       +:+ object_id manager currentQXEdge;
     data := None |}.

(** Lines 267-286. *)
Definition summaryLog (logs : list Log) (currentQXEdge : E) (queryRecords : list R) : Log :=
  let cached := length (List.filter (logged (qEdge_id currentQXEdge) "cacheHit") logs) in
  let queries := List.filter (logged (qEdge_id currentQXEdge) "query") logs in
  let fail := length (List.filter (fun log => default false (data_error <$> data log)) queries) in
  let total := length queries in
  let success := total - fail in
  {| level := "INFO";
     message := qEdge_id currentQXEdge +:+ " execution: " +:+ pretty total +:+ " queries ("
       +:+ pretty success +:+ " success/" +:+ pretty fail +:+ " fail) and ("
       +:+ pretty cached +:+ ") cached qEdges return (" +:+ pretty (length queryRecords)
       +:+ ") records";
     data := Some noData |}.

(** Lines 290-296 and 309-315. *)
Definition terminatesLog (currentQXEdge : E) (what : string) : Log :=
  {| level := "WARNING";
     message := "qEdge (" +:+ getID currentQXEdge +:+ ") " +:+ what
       +:+ " 0 records. Your query terminates.";
     data := None |}.

(** How one turn of the loop body ends. *)
Inductive Turn : Type :=
| Continues (r : Run)
| Returns (r : Run)
| Throws (r : Run) (e : Error).

(** Lines 249-320: the body of the loop. *)
Definition turn (r : Run) : Turn :=
  let '(currentQXEdge, manager) := getNext (manager r) in
  let this := push (executingLog manager currentQXEdge) (this_ r) in
  let queried := queried r ++ [currentQXEdge] in
  match handler_query (world r) manager currentQXEdge (unavailableAPIs r) with
  | Throw e =>
      Throws {| this_ := this; manager := manager; unavailableAPIs := unavailableAPIs r;
                world := world r; queried := queried |} e
  | Ok (queryRecords, handlerLogs, unavailableAPIs, world) =>
      let this := setLogs (logs this ++ handlerLogs) this in
      let this := push (summaryLog (logs this) currentQXEdge queryRecords) this in
      if bool_decide (length queryRecords = 0) then
        let this := setLogs (_logSkippedQueries unavailableAPIs (logs this)) this in
        Returns {| this_ := push (terminatesLog currentQXEdge "got") this;
                   manager := manager; unavailableAPIs := unavailableAPIs;
                   world := world; queried := queried |}
      else
        let manager := storeRecords currentQXEdge queryRecords manager in
        let manager := updateEdgeRecords currentQXEdge manager in
        let manager := updateAllOtherEdges currentQXEdge manager in
        if bool_decide (length (edge_records manager currentQXEdge) = 0) then
          let this := setLogs (_logSkippedQueries unavailableAPIs (logs this)) this in
          Returns {| this_ := push (terminatesLog currentQXEdge "kept") this;
                     manager := manager; unavailableAPIs := unavailableAPIs;
                     world := world; queried := queried |}
        else
          Continues {| this_ := this; manager := set_executed currentQXEdge manager;
                       unavailableAPIs := unavailableAPIs; world := world;
                       queried := queried |}
  end.

(** How the loop ends. [fuel] bounds the number of turns: a manager that
    never runs out of edges keeps the loop going for ever. *)
Inductive LoopEnd : Type :=
| AllExecuted (r : Run)
| Returned (r : Run)
| Threw (r : Run) (e : Error)
| StillRunning (r : Run).

(** Lines 248-321. *)
Fixpoint loop (fuel : nat) (r : Run) : LoopEnd :=
  if getEdgesNotExecuted (manager r) then
    match fuel with
    | 0 => StillRunning r
    | S fuel' =>
        match turn r with
        | Continues r' => loop fuel' r'
        | Returns r' => Returned r'
        | Throws r' e => Threw r' e
        end
    end
  else AllExecuted r.

(** [_loadMetaKG()], [global.missingAPIs] (the titles), [_edgesSupported]
    (its logs and its answer), [new EdgeManager(..)], and lines 323-356,
    which run after the loop with collaborators of their own. *)
Variable _loadMetaKG : Outcome MetaKG.
Variable missingAPIs : option (list string).
Variable _edgesSupported : Edges -> MetaKG -> list Log * bool.
Variable newEdgeManager : Edges -> M.
Variable afterLoop : Run -> TRAPIQueryHandler * Outcome unit.
Variable world0 : W.

(** How [query] ends. *)
Inductive Completion : Type :=
| Normal
| Error_ (e : Error)
| Running.

(** Lines 226-246: up to the loop. [None] is the [return] of line 244. *)
Definition beforeLoop (this : TRAPIQueryHandler) : TRAPIQueryHandler * Outcome (option Run) :=
  let this := _initializeResponse this in
  match _loadMetaKG with
  | Throw e => (this, Throw e)
  | Ok metaKG =>
      let this :=
        match missingAPIs with
        | Some titles =>
            push {| level := "WARNING";
                    message := "The following APIs were unavailable at the time of execution: "
                               +:+ join ", " titles;
                    data := None |} this
        | None => this
        end in
      match _processQueryGraph this with
      | Throw e => (this, Throw e)
      | Ok (this, queryExecutionEdges) =>
          let '(supportLogs, supported) := _edgesSupported queryExecutionEdges metaKG in
          let this := setLogs (logs this ++ supportLogs) this in
          if supported then
            (this, Ok (Some {| this_ := this; manager := newEdgeManager queryExecutionEdges;
                               unavailableAPIs := []; world := world0; queried := [] |}))
          else (this, Ok None)
      end
  end.

(** Lines 225-357. *)
Definition query (fuel : nat) (this : TRAPIQueryHandler) : TRAPIQueryHandler * Completion :=
  match beforeLoop this with
  | (this, Throw e) => (this, Error_ e)
  | (this, Ok None) => (this, Normal)
  | (_, Ok (Some r)) =>
      match loop fuel r with
      | AllExecuted r =>
          let r :=
            {| this_ := setLogs (_logSkippedQueries (unavailableAPIs r) (logs (this_ r))) (this_ r);
               manager := manager r; unavailableAPIs := unavailableAPIs r;
               world := world r; queried := queried r |} in
          match afterLoop r with
          | (this, Ok _) => (this, Normal)
          | (this, Throw e) => (this, Error_ e)
          end
      | Returned r => (this_ r, Normal)
      | Threw r e => (this_ r, Error_ e)
      | StillRunning r => (this_ r, Running)
      end
  end.

(** [n] turns of the loop, each of which goes on. *)
Fixpoint turns (n : nat) (r : Run) : option Run :=
  match n with
  | 0 => Some r
  | S n' =>
      if getEdgesNotExecuted (manager r) then
        match turn r with
        | Continues r' => turns n' r'
        | _ => None
        end
      else None
  end.

(** The edge the manager selects next returns zero records. *)
Definition returns_zero_records (r : Run) : Prop :=
  exists handlerLogs unavailableAPIs' world',
    handler_query (world r) (getNext (manager r)).2 (getNext (manager r)).1 (unavailableAPIs r)
    = Ok ([], handlerLogs, unavailableAPIs', world').

(** The edge the manager selects next returns records, none of which is
    left after filtering and propagation. *)
Definition keeps_zero_records (r : Run) : Prop :=
  exists queryRecords handlerLogs unavailableAPIs' world',
    handler_query (world r) (getNext (manager r)).2 (getNext (manager r)).1 (unavailableAPIs r)
    = Ok (queryRecords, handlerLogs, unavailableAPIs', world') /\
    edge_records
      (updateAllOtherEdges (getNext (manager r)).1
         (updateEdgeRecords (getNext (manager r)).1
            (storeRecords (getNext (manager r)).1 queryRecords (getNext (manager r)).2)))
      (getNext (manager r)).1 = [].

End Query.

(** ** Collaborators for the examples

    A manager that hands out its edges in order and keeps every record,
    and a batch handler that finds one record for edge "e0" and none for
    any other edge. *)
Record ToyManager : Type := {
  pending : list string;
  stored_records : Obj (list string)
}.

#[export] Instance toy_manager : EdgeManager ToyManager string string := {|
  getEdgesNotExecuted m := negb (bool_decide (pending m = []));
  getNext m := (default "" (head (pending m)), m);
  getID e := e;
  qEdge_id e := e;
  isReversed _ _ := false;
  subject_id _ e := e +:+ ".subject";
  object_id _ e := e +:+ ".object";
  storeRecords e rs m :=
    {| pending := pending m; stored_records := obj_set e rs (stored_records m) |};
  updateEdgeRecords _ m := m;
  updateAllOtherEdges _ m := m;
  edge_records m e := default [] (obj_get e (stored_records m));
  set_executed e m :=
    {| pending := List.filter (fun e' => negb (bool_decide (e' = e))) (pending m);
       stored_records := stored_records m |}
|}.

#[export] Instance toy_handler : BatchEdgeQueryHandler unit ToyManager string string := {|
  handler_query w _ e unavailableAPIs :=
    Ok (if bool_decide (e = "e0") then ["r0"] else [], [], unavailableAPIs, w)
|}.

Definition emptyHandler : TRAPIQueryHandler :=
  {| logs := []; trapiResultsAssembler := QueryResults.constructor;
     knowledgeGraph := KnowledgeGraph.constructor |}.

(** A query of three edges: the first is answered, the second is not, the
    third is never asked. *)
Definition toy_query (fuel : nat) : TRAPIQueryHandler * Completion :=
  query (Edges := list string) (MetaKG := unit)
    (Ok (["e0"; "e1"; "e2"], [])) (Ok tt) None (fun _ _ => ([], true))
    (fun edges => {| pending := edges; stored_records := [] |})
    (fun r => (this_ r, Ok tt)) tt fuel emptyHandler.

(** ** The query graph ([setQueryGraph], lines 57-73)

    The query graph is the JavaScript value the caller hands over, a tree
    as [JSON.parse] builds it. [setQueryGraph] changes it in place, so the
    caller's object and [this.queryGraph] are one object. *)

(** [arr.includes(x)] for a string [x]: some element is that string. *)
Definition array_includes (x : string) (l : list KnowledgeGraph.JSValue) : bool :=
  existsb (fun v => match v with
                    | KnowledgeGraph.JStr s => bool_decide (s = x)
                    | _ => false
                    end) l.

(** [s.includes(sub)] on strings: [sub] occurs in [s]. *)
Fixpoint string_includes (sub s : string) : bool :=
  String.prefix sub s ||
  match s with
  | EmptyString => false
  | String _ s' => string_includes sub s'
  end.

(** Lines 62-68 on the value of [currentNode['categories']]: an array
    gains "biolink:Gene" at its end when it holds "biolink:Protein" and
    not "biolink:Gene"; a string has [includes] but no [push]; any other
    value has no [includes]. *)
Definition addGene (categories : KnowledgeGraph.JSValue) : Outcome KnowledgeGraph.JSValue :=
  match categories with
  | KnowledgeGraph.JArr l =>
      if array_includes "biolink:Protein" l && negb (array_includes "biolink:Gene" l)
      then Ok (KnowledgeGraph.JArr (l ++ [KnowledgeGraph.JStr "biolink:Gene"]))
      else Ok categories
  | KnowledgeGraph.JStr s =>
      if string_includes "biolink:Protein" s && negb (string_includes "biolink:Gene" s)
      then Throw TypeError
      else Ok categories
  | _ => Throw TypeError
  end.

(** Lines 60-69 for one node. [Object.hasOwnProperty.call] throws on
    [undefined] and [null]; a number, a boolean, a string or an array has
    no own property "categories". *)
Definition visitNode (currentNode : KnowledgeGraph.JSValue) : Outcome KnowledgeGraph.JSValue :=
  match currentNode with
  | KnowledgeGraph.JUndefined | KnowledgeGraph.JNull => Throw TypeError
  | KnowledgeGraph.JObj o =>
      match obj_get "categories" o with
      | Some categories =>
          let! categories := addGene categories in
          Ok (KnowledgeGraph.JObj (obj_set "categories" categories o))
      | None => Ok currentNode
      end
  | _ => Ok currentNode
  end.

(** Lines 58-71: the loop. A node that throws ends it; the nodes before
    it have been changed. *)
Fixpoint visitNodes (nodes : Obj KnowledgeGraph.JSValue)
  : Obj KnowledgeGraph.JSValue * Outcome unit :=
  match nodes with
  | [] => ([], Ok tt)
  | (nodeId, currentNode) :: nodes' =>
      match visitNode currentNode with
      | Ok currentNode =>
          let '(nodes', outcome) := visitNodes nodes' in
          ((nodeId, currentNode) :: nodes', outcome)
      | Throw e => (nodes, Throw e)
      end
  end.

(** Lines 57-73. The result is the caller's object as the call leaves it;
    when the call returns, [this.queryGraph] is that object, and when it
    throws [this.queryGraph] is what it was. [for .. in] runs over the own
    properties of an object and over the indices of an array, and over
    nothing when [nodes] is [undefined], [null], a number or a boolean; the
    characters of a string are no objects. *)
Definition setQueryGraph (queryGraph : KnowledgeGraph.JSValue)
  : KnowledgeGraph.JSValue * Outcome unit :=
  match queryGraph with
  | KnowledgeGraph.JUndefined | KnowledgeGraph.JNull => (queryGraph, Throw TypeError)
  | KnowledgeGraph.JObj o =>
      match obj_get "nodes" o with
      | Some (KnowledgeGraph.JObj nodes) =>
          let '(nodes, outcome) := visitNodes nodes in
          (KnowledgeGraph.JObj (obj_set "nodes" (KnowledgeGraph.JObj nodes) o), outcome)
      | Some (KnowledgeGraph.JArr nodes) =>
          let '(nodes, outcome) := visitNodes (imap (fun i v => (pretty i, v)) nodes) in
          (KnowledgeGraph.JObj (obj_set "nodes" (KnowledgeGraph.JArr nodes.*2) o), outcome)
      | _ => (queryGraph, Ok tt)
      end
  | _ => (queryGraph, Ok tt)
  end.

(** The categories of the node [nodeId] of a query graph, when they are
    an array. *)
Definition categoriesOf (queryGraph : KnowledgeGraph.JSValue) (nodeId : string)
  : option (list KnowledgeGraph.JSValue) :=
  match queryGraph with
  | KnowledgeGraph.JObj o =>
      match obj_get "nodes" o with
      | Some (KnowledgeGraph.JObj nodes) =>
          match obj_get nodeId nodes with
          | Some (KnowledgeGraph.JObj node) =>
              match obj_get "categories" node with
              | Some (KnowledgeGraph.JArr categories) => Some categories
              | _ => None
              end
          | _ => None
          end
      | _ => None
      end
  | _ => None
  end.

(** The property [k] of the node [nodeId] of a query graph, and the node
    identifiers in the order of the object. *)
Definition nodeProperty (queryGraph : KnowledgeGraph.JSValue) (nodeId k : string)
  : option KnowledgeGraph.JSValue :=
  match queryGraph with
  | KnowledgeGraph.JObj o =>
      match obj_get "nodes" o with
      | Some (KnowledgeGraph.JObj nodes) =>
          match obj_get nodeId nodes with
          | Some (KnowledgeGraph.JObj node) => obj_get k node
          | _ => None
          end
      | _ => None
      end
  | _ => None
  end.

Definition nodeIds (queryGraph : KnowledgeGraph.JSValue) : list string :=
  match queryGraph with
  | KnowledgeGraph.JObj o =>
      match obj_get "nodes" o with
      | Some (KnowledgeGraph.JObj nodes) => nodes.*1
      | _ => []
      end
  | _ => []
  end.

(** A query graph of the TRAPI shape: an object whose [nodes] is an
    object of objects, the categories of a node, where it has any, an
    array. *)
Definition wellShaped (queryGraph : KnowledgeGraph.JSValue) : Prop :=
  exists o nodes,
    queryGraph = KnowledgeGraph.JObj o /\
    obj_get "nodes" o = Some (KnowledgeGraph.JObj nodes) /\
    forall nodeId currentNode, (nodeId, currentNode) ∈ nodes ->
      exists node, currentNode = KnowledgeGraph.JObj node /\
        forall categories, obj_get "categories" node = Some categories ->
          exists l, categories = KnowledgeGraph.JArr l.

(** A query graph for the examples: a protein, a gene-and-protein and a
    disease. *)
Definition protein_graph : KnowledgeGraph.JSValue :=
  KnowledgeGraph.JObj
    [("nodes", KnowledgeGraph.JObj
        [("n0", KnowledgeGraph.JObj
            [("ids", KnowledgeGraph.JArr [KnowledgeGraph.JStr "UniProtKB:P04637"]);
             ("categories", KnowledgeGraph.JArr [KnowledgeGraph.JStr "biolink:Protein"])]);
         ("n1", KnowledgeGraph.JObj
            [("categories", KnowledgeGraph.JArr [KnowledgeGraph.JStr "biolink:Gene";
                                                 KnowledgeGraph.JStr "biolink:Protein"])]);
         ("n2", KnowledgeGraph.JObj
            [("categories", KnowledgeGraph.JArr [KnowledgeGraph.JStr "biolink:Disease"])])]);
     ("edges", KnowledgeGraph.JObj [])].

End QueryHandler.

(* ===================================================================== *)
(** * The PFOCR lookup ([unnamed/part_001]) *)
(* ===================================================================== *)

Module Pfocr.

Import KnowledgeGraph.

Section GetPfocr.

(** [String.prototype.toLowerCase]. *)
Variable toLowerCase : string -> string.

(** [axios.get(url)]: the response object the promise is fulfilled with,
    or what it is rejected with. *)
Variable axios_get : string -> Outcome (Obj JSValue).

(** Lines 7-10. *)
Definition query (gene : list string) : string :=
  let lowerGene := toLowerCase <$> gene in
  "q=associatedWith.mentions.genes." +:+ join " OR associatedWith.mentions.genes." lowerGene.

Definition url : string := "https://biothings.ncats.io/pfocr/query?".

(** Lines 6-16: [result['data']] of a response without that property is
    [undefined]; the [catch] rejects with the error it was given. *)
Definition getPfocr (gene : list string) : Outcome JSValue :=
  match axios_get (url +:+ query gene +:+ "&fetch_all=true") with
  | Ok result => Ok (default JUndefined (obj_get "data" result))
  | Throw error => Throw error
  end.

End GetPfocr.

End Pfocr.

(* ===================================================================== *)
(** * Theorems *)
(* ===================================================================== *)

(** ** Facts about the JavaScript fragment *)

Module JSFacts.

Lemma elem_of_set_add (x y : string) (s : JSSet) :
  y ∈ set_add x s <-> y = x \/ y ∈ s.
Proof.
  unfold set_add, set_has. case_bool_decide as Hx.
  - split; [auto | intros [-> | ?]; auto].
  - rewrite elem_of_app, list_elem_of_singleton. tauto.
Qed.

Lemma NoDup_set_add (x : string) (s : JSSet) : NoDup s -> NoDup (set_add x s).
Proof.
  intros Hs. unfold set_add, set_has. case_bool_decide as Hx; [done |].
  apply NoDup_app. split_and!; [done | | apply NoDup_singleton].
  intros y Hy ->%list_elem_of_singleton. done.
Qed.

Lemma elem_of_fold_set_add (l : list string) (s : JSSet) (y : string) :
  y ∈ fold_left (fun s x => set_add x s) l s <-> y ∈ l \/ y ∈ s.
Proof.
  revert s. induction l as [| x l IH]; intros s; simpl.
  - rewrite elem_of_nil. tauto.
  - rewrite IH, elem_of_set_add, elem_of_cons. tauto.
Qed.

Lemma NoDup_fold_set_add (l : list string) (s : JSSet) :
  NoDup s -> NoDup (fold_left (fun s x => set_add x s) l s).
Proof.
  revert s. induction l as [| x l IH]; intros s Hs; simpl; [done |].
  apply IH, NoDup_set_add, Hs.
Qed.

Lemma elem_of_set_of_array (l : list string) (y : string) :
  y ∈ set_of_array l <-> y ∈ l.
Proof.
  unfold set_of_array. rewrite elem_of_fold_set_add, elem_of_nil. tauto.
Qed.

Lemma NoDup_set_of_array (l : list string) : NoDup (set_of_array l).
Proof. apply NoDup_fold_set_add, NoDup_nil_2. Qed.

Lemma sort_insert_Permutation (x : string) (l : list string) :
  sort_insert x l ≡ₚ x :: l.
Proof.
  induction l as [| y l IH]; simpl; [done |].
  destruct (String.leb x y); [done |].
  rewrite IH. apply Permutation_swap.
Qed.

Lemma sort_Permutation (l : list string) : sort l ≡ₚ l.
Proof.
  induction l as [| x l IH]; simpl; [done |].
  unfold sort in *. rewrite sort_insert_Permutation. by f_equiv.
Qed.

Lemma sort_insert_Sorted (x : string) (l : list string) :
  Sorted String.le l -> Sorted String.le (sort_insert x l).
Proof.
  induction l as [| y l IH]; intros Hl; simpl.
  - by repeat constructor.
  - destruct (String.leb x y) eqn:Hxy.
    + constructor; [done |]. constructor. unfold String.le. by rewrite Hxy.
    + apply Sorted_inv in Hl as [Hl Hy].
      constructor; [by apply IH |].
      assert (String.le y x) as Hyx.
      { destruct (String.le_total x y) as [H | H]; [| done].
        unfold String.le in H. by rewrite Hxy in H. }
      destruct l as [| z l]; simpl.
      * by constructor.
      * destruct (String.leb x z); constructor; [done |].
        by apply HdRel_inv in Hy.
Qed.

Lemma sort_Sorted (l : list string) : Sorted String.le (sort l).
Proof.
  induction l as [| x l IH]; simpl; [constructor |].
  by apply sort_insert_Sorted.
Qed.

(** Whatever algorithm sorts, the result is the same: a sorted
    rearrangement of a list of strings is unique. *)
Lemma sort_unique (l l' : list string) :
  Sorted String.le l' -> l' ≡ₚ l -> l' = sort l.
Proof.
  intros Hs Hp. apply (Sorted_unique String.le); [done | apply sort_Sorted |].
  by rewrite sort_Permutation.
Qed.


Lemma obj_get_obj_set {V : Type} (k k' : string) (v : V) (o : Obj V) :
  obj_get k' (obj_set k v o) = if decide (k = k') then Some v else obj_get k' o.
Proof.
  induction o as [| [k0 v0] o IH]; simpl.
  - repeat (case_bool_decide || case_decide); congruence.
  - repeat (case_bool_decide || case_decide || simpl); congruence.
Qed.

Lemma obj_set_keys {V : Type} (k : string) (v : V) (o : Obj V) :
  (obj_set k v o).*1 = if decide (k ∈ o.*1) then o.*1 else o.*1 ++ [k].
Proof.
  induction o as [| [k0 v0] o IH].
  - simpl. destruct (decide (k ∈ [])) as [H |]; [by apply elem_of_nil in H | done].
  - cbn [obj_set]. case_bool_decide as Hk.
    + subst k0. rewrite decide_True by apply list_elem_of_here. done.
    + rewrite !fmap_cons, IH. cbn [fst].
      destruct (decide (k ∈ o.*1)) as [Hin | Hin].
      * rewrite decide_True by (by apply list_elem_of_further). done.
      * rewrite decide_False; [done |]. rewrite elem_of_cons. naive_solver.
Qed.

Lemma elem_of_obj_set {V : Type} (k k' : string) (v v' : V) (o : Obj V) :
  (k', v') ∈ obj_set k v o -> (k', v') = (k, v) \/ (k', v') ∈ o.
Proof.
  induction o as [| [k0 v0] o IH]; simpl.
  - intros ->%list_elem_of_singleton. by left.
  - case_bool_decide; rewrite !elem_of_cons; naive_solver.
Qed.

Lemma obj_get_None {V : Type} (k : string) (o : Obj V) :
  obj_get k o = None <-> k ∉ o.*1.
Proof.
  induction o as [| [k0 v0] o IH]; simpl.
  - split; [intros _ H; by apply elem_of_nil in H | done].
  - case_bool_decide; rewrite not_elem_of_cons; naive_solver.
Qed.

Lemma obj_get_Some {V : Type} (k : string) (v : V) (o : Obj V) :
  NoDup o.*1 -> obj_get k o = Some v <-> (k, v) ∈ o.
Proof.
  induction o as [| [k0 v0] o IH]; simpl; intros Hnd.
  - split; [done | intros H; by apply elem_of_nil in H].
  - apply NoDup_cons in Hnd as [Hk0 Hnd]. rewrite elem_of_cons.
    case_bool_decide as Hk.
    + subst k0. split; [naive_solver |].
      intros [? | Hin]; [naive_solver |].
      exfalso. apply Hk0. apply list_elem_of_fmap. by exists (k, v).
    + rewrite IH by done. naive_solver.
Qed.

Lemma mapM_Forall2 {A B : Type} (f : A -> Outcome B) (l : list A) (l' : list B) :
  mapM f l = Ok l' -> Forall2 (fun x y => f x = Ok y) l l'.
Proof.
  revert l'. induction l as [| x l IH]; intros l'; simpl.
  - intros [= <-]. constructor.
  - destruct (f x) as [y |] eqn:Hy; simpl; [| done].
    destruct (mapM f l) as [ys |]; simpl; [| done].
    intros [= <-]. constructor; [done | by apply IH].
Qed.

(** [mapM] completes when its callback does on every element. *)
Lemma mapM_Ok {A B : Type} (f : A -> Outcome B) (l : list A) :
  Forall (fun x => exists y, f x = Ok y) l -> exists l', mapM f l = Ok l'.
Proof.
  induction 1 as [| x l [y Hy] _ [l' IH]]; simpl; [by eexists |].
  rewrite Hy, IH. simpl. by eexists.
Qed.

(** ** Property assignment *)

Lemma insertIndex_Permutation {V : Type} (n : N) (k : string) (v : V) (o : Obj V) :
  insertIndex n k v o ≡ₚ (k, v) :: o.
Proof.
  induction o as [| [k0 v0] o IH]; simpl; [done |].
  destruct (arrayIndex k0) as [n0 |]; [| done].
  case_bool_decide; [| done]. rewrite IH. apply Permutation_swap.
Qed.

Lemma insertIndex_sublist {V : Type} (n : N) (k : string) (v : V) (o : Obj V) :
  o `sublist_of` insertIndex n k v o.
Proof.
  induction o as [| [k0 v0] o IH]; simpl; [apply sublist_nil_l |].
  destruct (arrayIndex k0) as [n0 |]; [| by apply sublist_cons].
  case_bool_decide; [by apply sublist_skip | by apply sublist_cons].
Qed.

Lemma obj_get_insertIndex {V : Type} (n : N) (k k' : string) (v : V) (o : Obj V) :
  k ∉ o.*1 ->
  obj_get k' (insertIndex n k v o) = if decide (k = k') then Some v else obj_get k' o.
Proof.
  induction o as [| [k0 v0] o IH]; intros Hk.
  - simpl. case_bool_decide; case_decide; congruence.
  - rewrite fmap_cons, not_elem_of_cons in Hk. destruct Hk as [Hk0 Hk]. simpl in Hk0.
    cbn [insertIndex].
    assert (obj_get k' ((k, v) :: (k0, v0) :: o)
            = if decide (k = k') then Some v else obj_get k' ((k0, v0) :: o)) as Hfront.
    { cbn [obj_get]. case_bool_decide; case_decide; congruence. }
    destruct (arrayIndex k0) as [n0 |]; [| exact Hfront].
    case_bool_decide; [| exact Hfront].
    cbn [obj_get]. rewrite IH by done.
    case_bool_decide; case_decide; congruence.
Qed.

Lemma obj_get_app_new {V : Type} (k k' : string) (v : V) (o : Obj V) :
  k ∉ o.*1 ->
  obj_get k' (o ++ [(k, v)]) = if decide (k = k') then Some v else obj_get k' o.
Proof.
  induction o as [| [k0 v0] o IH]; intros Hk.
  - simpl. case_bool_decide; case_decide; congruence.
  - rewrite fmap_cons, not_elem_of_cons in Hk. destruct Hk as [Hk0 Hk]. simpl in Hk0.
    simpl. rewrite IH by done. case_bool_decide; case_decide; congruence.
Qed.

(** What [o[k] = v] does to the properties of [o]: it writes a property
    the object has, does nothing under the name "__proto__", and adds any
    other property, the ones the object has staying in their order. *)
Lemma obj_assign_cases {V : Type} (k : string) (v : V) (o : Obj V) :
  (k ∈ o.*1 /\ obj_assign k v o = obj_set k v o) \/
  ((k ∉ o.*1) /\ k = "__proto__" /\ obj_assign k v o = o) \/
  ((k ∉ o.*1) /\ k <> "__proto__" /\
   obj_assign k v o ≡ₚ (k, v) :: o /\ o `sublist_of` obj_assign k v o /\
   forall k', obj_get k' (obj_assign k v o) = if decide (k = k') then Some v else obj_get k' o).
Proof.
  unfold obj_assign, obj_has. case_bool_decide as Hin; [by left |]. right.
  case_bool_decide as Hproto; [by left |]. right. split_and!; [done | done | | |].
  - destruct (arrayIndex k); [apply insertIndex_Permutation |].
    symmetry. apply Permutation_cons_append.
  - destruct (arrayIndex k); [apply insertIndex_sublist | by apply sublist_inserts_r].
  - intros k'. destruct (arrayIndex k); [by apply obj_get_insertIndex | by apply obj_get_app_new].
Qed.

Lemma obj_get_obj_assign {V : Type} (k k' : string) (v : V) (o : Obj V) :
  obj_get k' (obj_assign k v o)
  = if decide (k = k' /\ (k <> "__proto__" \/ k ∈ o.*1)) then Some v else obj_get k' o.
Proof.
  destruct (obj_assign_cases k v o) as [[Hin ->] | [(Hin & Hp & ->) | (Hin & Hp & _ & _ & ->)]].
  - rewrite obj_get_obj_set. repeat case_decide; naive_solver.
  - case_decide; naive_solver.
  - repeat case_decide; naive_solver.
Qed.

Lemma elem_of_obj_assign {V : Type} (k k' : string) (v v' : V) (o : Obj V) :
  (k', v') ∈ obj_assign k v o -> (k', v') = (k, v) \/ (k', v') ∈ o.
Proof.
  destruct (obj_assign_cases k v o) as [[Hin ->] | [(Hin & Hp & ->) | (Hin & Hp & Hperm & _)]].
  - apply elem_of_obj_set.
  - by right.
  - rewrite Hperm, elem_of_cons. done.
Qed.

Lemma obj_assign_keys {V : Type} (k k' : string) (v : V) (o : Obj V) :
  k' ∈ (obj_assign k v o).*1 <-> k' ∈ o.*1 \/ (k' = k /\ k <> "__proto__").
Proof.
  destruct (obj_assign_cases k v o) as [[Hin ->] | [(Hin & Hp & ->) | (Hin & Hp & Hperm & _)]].
  - rewrite obj_set_keys, decide_True by done. naive_solver.
  - naive_solver.
  - rewrite Hperm, fmap_cons, elem_of_cons. naive_solver.
Qed.

Lemma obj_assign_keys_same {V : Type} (k : string) (v : V) (o : Obj V) :
  k ∈ o.*1 \/ k = "__proto__" -> (obj_assign k v o).*1 = o.*1.
Proof.
  intros Hk.
  destruct (obj_assign_cases k v o) as [[Hin ->] | [(Hin & Hp & ->) | (Hin & Hp & _)]].
  - rewrite obj_set_keys. by rewrite decide_True.
  - done.
  - naive_solver.
Qed.

Lemma obj_assign_NoDup {V : Type} (k : string) (v : V) (o : Obj V) :
  NoDup o.*1 -> NoDup (obj_assign k v o).*1.
Proof.
  intros Hnd.
  destruct (obj_assign_cases k v o) as [[Hin ->] | [(Hin & Hp & ->) | (Hin & Hp & Hperm & _)]].
  - rewrite obj_set_keys. by rewrite decide_True.
  - done.
  - rewrite Hperm, fmap_cons. by apply NoDup_cons.
Qed.

Lemma obj_assign_keys_sublist {V : Type} (k : string) (v : V) (o : Obj V) :
  o.*1 `sublist_of` (obj_assign k v o).*1.
Proof.
  destruct (obj_assign_cases k v o) as [[Hin ->] | [(Hin & Hp & ->) | (Hin & Hp & _ & Hsub & _)]].
  - rewrite obj_set_keys. by rewrite decide_True.
  - done.
  - by apply fmap_sublist.
Qed.

(** The engine's order of the properties, and the name "__proto__". *)
Example obj_assign_array_index :
  obj_assign "3" 1 [("7", 2); ("n1", 3)] = [("3", 1); ("7", 2); ("n1", 3)] /\
  obj_assign "10" 1 [("7", 2); ("n1", 3)] = [("7", 2); ("10", 1); ("n1", 3)] /\
  obj_assign "07" 1 [("7", 2); ("n1", 3)] = [("7", 2); ("n1", 3); ("07", 1)] /\
  obj_assign "n1" 1 [("7", 2); ("n1", 3)] = [("7", 2); ("n1", 1)] /\
  obj_assign "__proto__" 1 [("7", 2); ("n1", 3)] = [("7", 2); ("n1", 3)].
Proof. by split_and!. Qed.

Lemma obj_assign_nil {V : Type} (k : string) (v : V) :
  k <> "__proto__" -> obj_assign k v [] = [(k, v)].
Proof.
  intros Hk. unfold obj_assign, obj_has.
  case_bool_decide as Hin; [by apply elem_of_nil in Hin |].
  case_bool_decide; [done |]. by destruct (arrayIndex k).
Qed.

(** ** Strings *)

Lemma includes_app (c : ascii) (a b : string) :
  CacheHandler.includes c (a +:+ b) = CacheHandler.includes c a || CacheHandler.includes c b.
Proof.
  induction a as [| x a IH]; [done |].
  change (CacheHandler.includes c (String x (a +:+ b))
          = CacheHandler.includes c (String x a) || CacheHandler.includes c b).
  simpl. rewrite IH. by rewrite orb_assoc.
Qed.

End JSFacts.

(** ** The results assembler *)

Module QueryResultsFacts.

Import JSFacts QueryResults.

(** The token of one node occurrence, source against specification. *)
Lemma _getUniqueNodeID_spec (qNodeIDsWithIsSet : JSSet) (qNodeID curie : string) :
  _getUniqueNodeID qNodeIDsWithIsSet qNodeID curie
  = spec_token (fun q => q ∈ qNodeIDsWithIsSet) qNodeID curie.
Proof.
  unfold _getUniqueNodeID, spec_token, set_has.
  case_bool_decide; case_decide; done.
Qed.

Lemma elem_of_uniqueNodeIDs (S : JSSet) (p : Preresult) (t : string) :
  t ∈ uniqueNodeIDs S p <->
  exists r, r ∈ p /\
    (t = _getUniqueNodeID S (inputQNodeID r) (inputPrimaryCurie r) \/
     t = _getUniqueNodeID S (outputQNodeID r) (outputPrimaryCurie r)).
Proof.
  unfold uniqueNodeIDs.
  assert (forall acc,
    t ∈ fold_left (fun s r =>
          set_add (_getUniqueNodeID S (outputQNodeID r) (outputPrimaryCurie r))
            (set_add (_getUniqueNodeID S (inputQNodeID r) (inputPrimaryCurie r)) s)) p acc
    <-> t ∈ acc \/ exists r, r ∈ p /\
          (t = _getUniqueNodeID S (inputQNodeID r) (inputPrimaryCurie r) \/
           t = _getUniqueNodeID S (outputQNodeID r) (outputPrimaryCurie r))) as Hgen.
  { induction p as [| r p IH]; intros acc; simpl.
    - split; [auto | intros [? | (r & Hr & _)]; [done | by apply elem_of_nil in Hr]].
    - rewrite IH, !elem_of_set_add. split.
      + intros [[-> | [-> | ?]] | (r' & Hr' & Ht)]; eauto using list_elem_of_here.
        right. exists r'. split; [by apply list_elem_of_further | done].
      + intros [? | (r' & Hr' & Ht)]; [tauto |].
        apply elem_of_cons in Hr' as [-> | Hr']; [tauto | eauto]. }
  rewrite Hgen, elem_of_nil. tauto.
Qed.

Lemma NoDup_uniqueNodeIDs (S : JSSet) (p : Preresult) : NoDup (uniqueNodeIDs S p).
Proof.
  unfold uniqueNodeIDs. generalize (NoDup_nil_2 (A := string)).
  generalize (@nil string). induction p as [| r p IH]; intros acc Hacc; simpl; [done |].
  by apply IH, NoDup_set_add, NoDup_set_add.
Qed.

(** C1. The consolidated result identifier [update] files a preresult under
    is the one the specification describes: one token per node occurrence
    (the QNode identifier alone when the QNode is in the is_set collection,
    else identifier, "-" and primary curie), the tokens collected into a
    set, sorted, and joined with "_&_". *)
Theorem uniqueResultID_is_spec_key (qNodeIDsWithIsSet : JSSet) (ucResult : Preresult) :
  uniqueResultID qNodeIDsWithIsSet ucResult
  = spec_consolidation_key (fun q => q ∈ qNodeIDsWithIsSet) ucResult.
Proof.
  unfold uniqueResultID, spec_consolidation_key, join, set_to_array. f_equal.
  symmetry. apply sort_unique; [apply Sorted_merge_sort, _ |].
  rewrite merge_sort_Permutation.
  apply NoDup_Permutation; [apply NoDup_elements | apply NoDup_uniqueNodeIDs |].
  intros t. rewrite elem_of_elements. unfold spec_tokens.
  rewrite elem_of_list_to_set, list_elem_of_bind, elem_of_uniqueNodeIDs.
  split; intros (r & Ht & Hr); exists r.
  - rewrite !_getUniqueNodeID_spec. split; [done |].
    rewrite elem_of_cons, list_elem_of_singleton in Ht. done.
  - rewrite !_getUniqueNodeID_spec in Hr. split; [| tauto].
    rewrite elem_of_cons, list_elem_of_singleton. tauto.
Qed.

(** *** The scenarios of the specification *)

Example two_hop_one_result :
  update 10 two_hop constructor
  = ({| _results :=
          [{| node_bindings := [("n1", [Build_Binding "NCBIGene:3778"]);
                                ("n2", [Build_Binding "MONDO:0011122"]);
                                ("n3", [Build_Binding "NCBIGene:7289"])];
              edge_bindings := [("e01", [Build_Binding "h1"]); ("e02", [Build_Binding "h2"])];
              score := 1 |}] |}, Ok tt).
Proof. reflexivity. Qed.

Example is_set_merges_three_diseases :
  length (getResults (update 10 (three_diseases true) constructor).1) = 1 /\
  length (getResults (update 10 (three_diseases false) constructor).1) = 3.
Proof. split; reflexivity. Qed.

Example dead_end_is_left_out :
  (fun r => edge_bindings r) <$> getResults (update 10 dead_end constructor).1
  = [[("e01", [Build_Binding "aD1"]); ("e02", [Build_Binding "bD1"])]].
Proof. reflexivity. Qed.

(** The traversal has no visited set: two edges between the same two
    nodes send it round until the stack (here of 50 frames) is used up. *)
Example cycle_overflows_the_stack :
  let cycle :=
    [("e0", {| connected_to := ["e1"];
               records := [mkRecord "n0" "A" "n1" "B" "h0" false false] |});
     ("e1", {| connected_to := ["e0"];
               records := [mkRecord "n1" "B" "n0" "A" "h1" false false] |})] in
  update 50 cycle constructor = ({| _results := [] |}, Throw RangeError).
Proof. reflexivity. Qed.

(** *** Grouping *)

Lemma obj_get_fileUnder (k k' : string) (x : Preresult) (o : Obj (list Preresult)) :
  obj_get k' (fileUnder k x o)
  = if decide (k = k' /\ (k <> "__proto__" \/ k ∈ o.*1))
    then Some (default [] (obj_get k o) ++ [x]) else obj_get k' o.
Proof.
  unfold fileUnder, obj_has. case_bool_decide as Hk.
  - destruct (obj_get k o) as [l |] eqn:Hl; [| by apply obj_get_None in Hl].
    rewrite obj_get_obj_set. simpl. repeat case_decide; naive_solver.
  - pose proof Hk as Hnone. apply obj_get_None in Hnone. rewrite Hnone.
    rewrite (obj_get_obj_assign k k). case_decide as Hstores.
    + rewrite obj_get_obj_set, obj_get_obj_assign. simpl. repeat case_decide; naive_solver.
    + rewrite Hnone, obj_get_obj_assign. repeat case_decide; naive_solver.
Qed.

Lemma fileUnder_keys (k k' : string) (x : Preresult) (o : Obj (list Preresult)) :
  k' ∈ (fileUnder k x o).*1 <-> k' ∈ o.*1 \/ (k' = k /\ k <> "__proto__").
Proof.
  unfold fileUnder, obj_has. case_bool_decide as Hk.
  - destruct (obj_get k o) as [l |] eqn:Hl; [| by apply obj_get_None in Hl].
    rewrite obj_set_keys, decide_True by done. naive_solver.
  - destruct (obj_get k (obj_assign k [] o)) as [l |] eqn:Hl.
    + rewrite obj_set_keys, decide_True; [apply obj_assign_keys |].
      destruct (decide (k ∈ (obj_assign k [] o).*1)) as [| Hout]; [done |].
      apply obj_get_None in Hout. congruence.
    + apply obj_assign_keys.
Qed.

Lemma fileUnder_NoDup (k : string) (x : Preresult) (o : Obj (list Preresult)) :
  NoDup o.*1 -> NoDup (fileUnder k x o).*1.
Proof.
  intros Hnd. unfold fileUnder, obj_has.
  assert (forall o' : Obj (list Preresult), NoDup o'.*1 ->
            NoDup (match obj_get k o' with
                   | Some ucResults => obj_set k (ucResults ++ [x]) o'
                   | None => o'
                   end).*1) as Hpush.
  { intros o' Ho'. destruct (obj_get k o') as [l |] eqn:Hl; [| done].
    rewrite obj_set_keys, decide_True; [done |].
    destruct (decide (k ∈ o'.*1)) as [| Hout]; [done |].
    apply obj_get_None in Hout. congruence. }
  case_bool_decide; apply Hpush; [done | by apply obj_assign_NoDup].
Qed.

Section Grouping.

Variable S : JSSet.

Lemma fileAll_NoDup (l : list Preresult) (o : Obj (list Preresult)) :
  NoDup o.*1 -> NoDup (fileAll S l o).*1.
Proof.
  revert o. induction l as [| p l IH]; intros o Ho; simpl; [done |].
  by apply IH, fileUnder_NoDup.
Qed.

Lemma fileAll_keys (l : list Preresult) (o : Obj (list Preresult)) (k : string) :
  k ∈ (fileAll S l o).*1 <-> k ∈ o.*1 \/ (k ∈ uniqueResultID S <$> l /\ k <> "__proto__").
Proof.
  revert o. induction l as [| p l IH]; intros o; simpl.
  - rewrite elem_of_nil. tauto.
  - rewrite IH, fileUnder_keys, elem_of_cons. naive_solver.
Qed.

Lemma obj_get_fileAll (l : list Preresult) (o : Obj (list Preresult)) (k : string) :
  k <> "__proto__" \/ k ∈ o.*1 ->
  obj_get k (fileAll S l o)
  = match filter (fun p => uniqueResultID S p = k) l with
    | [] => obj_get k o
    | g => Some (default [] (obj_get k o) ++ g)
    end.
Proof.
  revert o. induction l as [| p l IH]; intros o Hk; simpl; [done |].
  rewrite IH by (rewrite fileUnder_keys; tauto).
  rewrite obj_get_fileUnder, filter_cons.
  destruct (decide (uniqueResultID S p = k)) as [<- | Hp].
  - rewrite decide_True by done.
    simpl. destruct (filter _ l); simpl; [done |]. by rewrite <- app_assoc.
  - rewrite decide_False by tauto. done.
Qed.

Lemma groupByResultID_NoDup (pre : list Preresult) : NoDup (groupByResultID S pre).*1.
Proof. apply fileAll_NoDup, NoDup_nil_2. Qed.

(** The groups are the classes of preresults with one identifier, except
    the class of the identifier "__proto__", which is in no group. *)
Lemma groupByResultID_classes (pre : list Preresult) (k : string) (g : list Preresult) :
  (k, g) ∈ groupByResultID S pre <->
  k <> "__proto__" /\ g <> [] /\ g = filter (fun p => uniqueResultID S p = k) pre.
Proof.
  rewrite <- obj_get_Some by apply groupByResultID_NoDup.
  unfold groupByResultID.
  destruct (decide (k = "__proto__")) as [-> | Hk].
  - split; [| tauto]. intros Hget.
    assert ("__proto__" ∈ (fileAll S pre []).*1) as Hin.
    { destruct (decide ("__proto__" ∈ (fileAll S pre []).*1)) as [| Hout]; [done |].
      apply obj_get_None in Hout. congruence. }
    apply fileAll_keys in Hin as [Hin | [_ Hin]]; [by apply elem_of_nil in Hin | done].
  - rewrite obj_get_fileAll by tauto. simpl.
    destruct (filter _ pre); naive_solver.
Qed.

Lemma groupByResultID_length (pre : list Preresult) :
  length (groupByResultID S pre)
  = size ((list_to_set (uniqueResultID S <$> pre) : gset string) ∖ {["__proto__"]}).
Proof.
  rewrite <- (length_fmap fst).
  rewrite <- (size_list_to_set (C := gset string)) by apply groupByResultID_NoDup.
  f_equal. apply set_eq. intros k.
  rewrite elem_of_difference, !elem_of_list_to_set, elem_of_singleton.
  unfold groupByResultID. rewrite fileAll_keys. simpl. rewrite elem_of_nil. tauto.
Qed.

End Grouping.

(** *** When the consolidation completes *)

Lemma consolidateRecords_defined (col : list UcRecord) :
  col <> [] -> exists c, consolidateRecords (Some <$> col) = Ok c.
Proof.
  intros Hcol. unfold consolidateRecords.
  destruct col as [| r0 col]; [done |]. simpl.
  match goal with |- context [forEachM ?f _ ?c0] =>
    assert (forall l c, exists c', forEachM f (Some <$> l) c = Ok c') as Hall
  end.
  { induction l as [| r l IH]; intros c; simpl; [by eexists | apply IH]. }
  apply Hall.
Qed.

Lemma lookup_column (n i : nat) (g : list Preresult) :
  i < n -> Forall (fun p => length p = n) g ->
  exists col, (fun a : list UcRecord => a !! i) <$> g = Some <$> col /\
              length col = length g.
Proof.
  intros Hi. induction 1 as [| q g Hq _ (col & IH & Hlen)]; [by exists [] |].
  destruct (lookup_lt_is_Some_2 q i) as [r Hr]; [lia |].
  exists (r :: col). rewrite !fmap_cons. cbv beta.
  rewrite IH, Hr. simpl. by rewrite Hlen.
Qed.

Lemma max_list_uniform (n : nat) (g : list Preresult) :
  g <> [] -> Forall (fun p => length p = n) g -> max_list (length <$> g) = n.
Proof.
  intros Hg Hn.
  assert (max_list (length <$> g) = match g with [] => 0 | _ => n end) as ->.
  { clear Hg. induction Hn as [| q g Hq _ IH]; [done |].
    rewrite fmap_cons. cbn [max_list]. rewrite IH, Hq.
    unfold Datatypes.id. destruct g; lia. }
  by destruct g.
Qed.

(** A group of preresults of one length is consolidated without error. *)
Lemma consolidate_uniform (n : nat) (g : list Preresult) :
  g <> [] -> Forall (fun p => length p = n) g -> exists cs, consolidate g = Ok cs.
Proof.
  intros Hg Hn. unfold consolidate, zip. apply mapM_Ok.
  rewrite (max_list_uniform n) by done.
  apply Forall_fmap, Forall_forall. intros i [_ Hi]%elem_of_seq.
  destruct (lookup_column n i g) as (col & Hcol & Hlen); [lia | done |].
  unfold compose. rewrite Hcol. apply consolidateRecords_defined.
  destruct col, g; simpl in *; done.
Qed.

(** [update] completes once the enumeration has, if the preresults it
    enumerated all have one length. *)
Lemma assemble_completes (depth n : nat) (recordsByQEdgeID : DataByEdge)
    (S : JSSet) (pre : list Preresult) :
  findIsSet recordsByQEdgeID = Ok S ->
  enumerate depth recordsByQEdgeID = Ok pre ->
  Forall (fun p => length p = n) pre ->
  exists a, assemble depth recordsByQEdgeID = Ok a /\ isSetIDs a = S /\ preresults a = pre.
Proof.
  intros HS Hpre Hn. unfold assemble. rewrite HS, Hpre. simpl.
  destruct (mapM_Ok (fun '(_, ucResults) => consolidate ucResults) (groupByResultID S pre))
    as [cs ->]; [| by eexists].
  apply Forall_forall. intros [k g] (_ & Hg & ->)%groupByResultID_classes.
  apply (consolidate_uniform n); [done |].
  apply Forall_forall. intros p [_ Hp]%list_elem_of_filter.
  by apply (proj1 (Forall_forall _ _) Hn).
Qed.

(** *** A query graph of one edge: [update] completes *)

Lemma matches_None (x : string) : matches x None = true.
Proof. unfold matches. apply bool_decide_eq_true_2. by right. Qed.

Lemma filter_matches_None (get : QRecord -> string) (l : list QRecord) :
  List.filter (fun record => matches (get record) None) l = l.
Proof.
  induction l as [| x l IH]; [done |].
  cbn [List.filter]. by rewrite matches_None, IH.
Qed.

Lemma push_alloc (a : Preresult) (x : UcRecord) (h : Heap) :
  push (alloc a h).1 x (alloc a h).2
  = {| arrays := arrays h ++ [a ++ [x]]; ucResults := ucResults h |}.
Proof.
  unfold push, alloc. simpl. f_equal.
  rewrite <- (Nat.add_0_r (length (arrays h))). by rewrite alter_app_r.
Qed.

Lemma deref_last (l : list Preresult) (a : Preresult) (us : list nat) :
  deref {| arrays := l ++ [a]; ucResults := us |} (length l) = a.
Proof. unfold deref. simpl. by rewrite list_lookup_middle. Qed.

Lemma deref_all (l : list Preresult) (us : list nat) :
  deref {| arrays := l; ucResults := us |} <$> seq 0 (length l) = l.
Proof.
  apply list_eq. intros i. rewrite list_lookup_fmap. unfold deref. simpl.
  destruct (decide (i < length l)) as [Hi | Hi].
  - rewrite lookup_seq_lt by done. simpl.
    destruct (lookup_lt_is_Some_2 l i Hi) as [a Ha]. by rewrite Ha.
  - rewrite lookup_seq_ge by lia. by rewrite lookup_ge_None_2 by lia.
Qed.

Lemma enumerate_one_hop (depth : nat) (e : string) (r : QRecord) (rs : list QRecord) :
  enumerate (S depth) (one_hop e (r :: rs)) = Ok ((fun x => [ucRecord e x]) <$> (r :: rs)).
Proof.
  unfold enumerate, one_hop. cbn [findRoot fmap list_fmap fst records connected_to head helper defined bind length].
  rewrite bool_decide_eq_true_2 by done.
  cbn [bind property_key set_of_array fold_left]. 
  change (length (set_add e [])) with 1.
  cbn [_getUnconsolidatedResults obj_get].
  rewrite bool_decide_eq_true_2 by done.
  cbn [defined bind records head helper connected_to].
  unfold matches at 1. rewrite bool_decide_eq_true_2 by (by left).
  rewrite filter_matches_None.
  change (deref {| arrays := [[]]; ucResults := [] |} 0) with (@nil UcRecord).
  match goal with |- context [forEachM ?f _ _] => set (step := f) end.
  assert (forall xs i cur h, i <> 0 ->
    exists cur',
      forEachM step xs (i, cur, h)
      = Ok (i + length xs, cur',
            {| arrays := arrays h ++ ((fun x => [ucRecord e x]) <$> xs);
               ucResults := ucResults h ++ seq (length (arrays h)) (length xs) |}))
    as Hrest.
  { induction xs as [| x xs IH]; intros i cur h Hi.
    - exists cur. simpl. rewrite !app_nil_r, Nat.add_0_r. by destruct h.
    - cbn [forEachM]. unfold step at 1. rewrite bool_decide_eq_true_2 by done.
      destruct (alloc [] h) as [ref h1] eqn:Halloc.
      pose proof (push_alloc [] (ucRecord e x) h) as Hpush. rewrite Halloc in Hpush.
      simpl in Hpush. rewrite Hpush.
      assert (ref = length (arrays h)) as -> by (by injection Halloc as <- _).
      rewrite deref_last. simpl length. rewrite bool_decide_eq_true_2 by done.
      cbn [forEachM bind]. unfold push_result. simpl.
      destruct (IH (S i) (length (arrays h))
                  {| arrays := arrays h ++ [[ucRecord e x]];
                     ucResults := ucResults h ++ [length (arrays h)] |}) as [cur' ->]; [done |].
      exists cur'. simpl. rewrite length_app. simpl.
      rewrite <- !app_assoc. simpl.
      by rewrite Nat.add_1_r, Nat.add_succ_r. }
  cbn [forEachM]. unfold step at 1. rewrite bool_decide_eq_false_2 by lia.
  change (push 0 (ucRecord e r) {| arrays := [[]]; ucResults := [] |})
    with {| arrays := [[ucRecord e r]]; ucResults := [] |}.
  change (deref {| arrays := [[ucRecord e r]]; ucResults := [] |} 0) with [ucRecord e r].
  cbn [length]. rewrite bool_decide_eq_true_2 by done.
  cbn [forEachM bind].
  change (push_result 0 {| arrays := [[ucRecord e r]]; ucResults := [] |})
    with {| arrays := [[ucRecord e r]]; ucResults := [0] |}.
  destruct (Hrest rs 1 0 {| arrays := [[ucRecord e r]]; ucResults := [0] |}) as [cur' ->]; [done |].
  simpl. f_equal.
  change (0 :: seq 1 (length rs)) with (seq 0 (S (length rs))).
  rewrite <- (length_fmap (fun x => [ucRecord e x]) rs).
  apply (deref_all ([ucRecord e r] :: ((fun x => [ucRecord e x]) <$> rs))).
Qed.

(** On a query graph of one edge with at least one record, [update]
    completes with any stack of at least one frame: there is one
    preresult per record. *)
Lemma update_one_hop_completes (depth : nat) (e : string) (r : QRecord) (rs : list QRecord)
    (this : QueryResult) :
  exists a,
    assemble (S depth) (one_hop e (r :: rs)) = Ok a /\
    preresults a = (fun x => [ucRecord e x]) <$> (r :: rs) /\
    update (S depth) (one_hop e (r :: rs)) this = ({| _results := results a |}, Ok tt).
Proof.
  destruct (findIsSet (one_hop e (r :: rs))) as [S |] eqn:HS; [| done].
  destruct (assemble_completes (Datatypes.S depth) 1 (one_hop e (r :: rs)) S _ HS
              (enumerate_one_hop depth e r rs)) as (a & Ha & _ & Hpre).
  { apply Forall_fmap, Forall_forall. done. }
  exists a. split_and!; [done | done |]. unfold update. by rewrite Ha.
Qed.

(** What a completed assembly holds, and that [update] stores its results. *)
Lemma assemble_Ok (depth : nat) (recordsByQEdgeID : DataByEdge) (this : QueryResult)
    (a : Assembly) :
  assemble depth recordsByQEdgeID = Ok a ->
  getResults (update depth recordsByQEdgeID this).1 = results a /\
  groups a = groupByResultID (isSetIDs a) (preresults a) /\
  Forall2 (fun kg r => exists c, consolidate kg.2 = Ok c /\ r = toResult c)
          (groups a) (results a).
Proof.
  intros Ha. unfold update, getResults. rewrite Ha. simpl.
  unfold assemble in Ha.
  destruct (findIsSet recordsByQEdgeID) as [S |]; simpl in Ha; [| done].
  destruct (enumerate depth recordsByQEdgeID) as [pre |]; simpl in Ha; [| done].
  destruct (mapM _ (groupByResultID S pre)) as [cs |] eqn:Hcs; simpl in Ha; [| done].
  injection Ha as <-. simpl. apply mapM_Forall2 in Hcs.
  split_and!; [done | done |].
  apply Forall2_fmap_r. eapply Forall2_impl; [exact Hcs |].
  intros [k g] c Hc. simpl in *. eauto.
Qed.

(** *** The identifier "__proto__" *)

Lemma join_includes_separator (x y : string) (l : list string) :
  CacheHandler.includes "&" (join "_&_" (x :: y :: l)) = true.
Proof.
  change (join "_&_" (x :: y :: l)) with (x +:+ "_&_" +:+ join "_&_" (y :: l)).
  rewrite !includes_app. simpl. apply orb_true_r.
Qed.

Lemma _getUniqueNodeID_proto (S : JSSet) (q c : string) :
  _getUniqueNodeID S q c = "__proto__" -> q = "__proto__" /\ q ∈ S.
Proof.
  unfold _getUniqueNodeID, set_has. case_bool_decide as Hq; [done |].
  intros Heq. apply (f_equal (CacheHandler.includes "-")) in Heq.
  rewrite !includes_app in Heq. simpl in Heq. by rewrite orb_true_r in Heq.
Qed.

(** A preresult has the identifier "__proto__" only when every QNode it
    names is a QNode of that name marked [is_set]. *)
Lemma uniqueResultID_proto (S : JSSet) (p : Preresult) (u : UcRecord) :
  uniqueResultID S p = "__proto__" -> u ∈ p ->
  inputQNodeID u = "__proto__" /\ outputQNodeID u = "__proto__" /\ "__proto__" ∈ S.
Proof.
  intros Hid Hu.
  assert (forall t, t ∈ uniqueNodeIDs S p -> t = "__proto__") as Htokens.
  { intros t Ht. unfold uniqueResultID, set_to_array in Hid.
    rewrite <- sort_Permutation in Ht.
    destruct (sort (uniqueNodeIDs S p)) as [| x [| y l]].
    - by apply elem_of_nil in Ht.
    - apply list_elem_of_singleton in Ht as ->. by rewrite <- Hid.
    - apply (f_equal (CacheHandler.includes "&")) in Hid.
      by rewrite join_includes_separator in Hid. }
  destruct (_getUniqueNodeID_proto S (inputQNodeID u) (inputPrimaryCurie u)) as [Hi HS].
  { apply Htokens, elem_of_uniqueNodeIDs. exists u. tauto. }
  destruct (_getUniqueNodeID_proto S (outputQNodeID u) (outputPrimaryCurie u)) as [Ho _].
  { apply Htokens, elem_of_uniqueNodeIDs. exists u. tauto. }
  split_and!; [done | done | by rewrite <- Hi].
Qed.



(** *** Bindings *)

Lemma first_occurrences_NoDup (l : list string) : NoDup (first_occurrences l).
Proof.
  unfold first_occurrences, set_to_array.
  apply NoDup_fmap_2; [| apply NoDup_set_of_array].
  intros x y. congruence.
Qed.

Lemma consolidateRecords_from (ocol : list (option UcRecord)) (c0 c : ConsolidatedRecord) :
  forEachM (fun c ucResultRecord =>
    let! r := defined ucResultRecord in
    Ok {| c_inputQNodeID := c_inputQNodeID c;
          c_outputQNodeID := c_outputQNodeID c;
          inputPrimaryCuries := set_add (inputPrimaryCurie r) (inputPrimaryCuries c);
          outputPrimaryCuries := set_add (outputPrimaryCurie r) (outputPrimaryCuries c);
          c_qEdgeID := c_qEdgeID c;
          recordHashes := set_add (recordHash r) (recordHashes c) |}) ocol c0 = Ok c ->
  exists col, ocol = Some <$> col /\
    c = {| c_inputQNodeID := c_inputQNodeID c0;
           c_outputQNodeID := c_outputQNodeID c0;
           inputPrimaryCuries :=
             fold_left (fun s x => set_add x s) (inputPrimaryCurie <$> col) (inputPrimaryCuries c0);
           outputPrimaryCuries :=
             fold_left (fun s x => set_add x s) (outputPrimaryCurie <$> col) (outputPrimaryCuries c0);
           c_qEdgeID := c_qEdgeID c0;
           recordHashes :=
             fold_left (fun s x => set_add x s) (recordHash <$> col) (recordHashes c0) |}.
Proof.
  revert c0. induction ocol as [| o ocol IH]; intros c0; simpl.
  - intros [= <-]. exists []. split; [done |]. by destruct c0.
  - destruct o as [r |]; simpl; [| done].
    intros (col & -> & ->)%IH. by exists (r :: col).
Qed.

Lemma consolidateRecords_Ok (ocol : list (option UcRecord)) (c : ConsolidatedRecord) :
  consolidateRecords ocol = Ok c ->
  exists col r0, ocol = Some <$> col /\ head col = Some r0 /\
    c = {| c_inputQNodeID := inputQNodeID r0;
           c_outputQNodeID := outputQNodeID r0;
           inputPrimaryCuries := set_of_array (inputPrimaryCurie <$> col);
           outputPrimaryCuries := set_of_array (outputPrimaryCurie <$> col);
           c_qEdgeID := qEdgeID r0;
           recordHashes := set_of_array (recordHash <$> col) |}.
Proof.
  unfold consolidateRecords.
  destruct (mjoin (head ocol)) as [r0 |] eqn:Hr0; simpl; [| done].
  intros (col & -> & ->)%consolidateRecords_from.
  exists col, r0. split; [done |]. split; [| done].
  destruct col; simpl in *; congruence.
Qed.

(** Where the binding lists of a result come from. *)
Lemma toResult_bindings (cs : list ConsolidatedRecord) :
  (forall q bs, (q, bs) ∈ node_bindings (toResult cs) ->
     exists c, c ∈ cs /\
       ((q = c_inputQNodeID c /\ bs = Build_Binding <$> inputPrimaryCuries c) \/
        (q = c_outputQNodeID c /\ bs = Build_Binding <$> outputPrimaryCuries c))) /\
  (forall e bs, (e, bs) ∈ edge_bindings (toResult cs) ->
     exists c, c ∈ cs /\ e = c_qEdgeID c /\ bs = Build_Binding <$> recordHashes c).
Proof.
  unfold toResult, set_to_array.
  match goal with |- context [fold_left ?f cs ?r0] =>
    assert (forall r,
      (forall q bs, (q, bs) ∈ node_bindings (fold_left f cs r) ->
         (q, bs) ∈ node_bindings r \/
         exists c, c ∈ cs /\
           ((q = c_inputQNodeID c /\ bs = Build_Binding <$> inputPrimaryCuries c) \/
            (q = c_outputQNodeID c /\ bs = Build_Binding <$> outputPrimaryCuries c))) /\
      (forall e bs, (e, bs) ∈ edge_bindings (fold_left f cs r) ->
         (e, bs) ∈ edge_bindings r \/
         exists c, c ∈ cs /\ e = c_qEdgeID c /\ bs = Build_Binding <$> recordHashes c))
      as Hgen
  end.
  { induction cs as [| c cs IH]; intros r; simpl; [by auto |].
    destruct (IH (
      {| node_bindings :=
           obj_assign (c_outputQNodeID c) (Build_Binding <$> outputPrimaryCuries c)
             (obj_assign (c_inputQNodeID c) (Build_Binding <$> inputPrimaryCuries c)
                (node_bindings r));
         edge_bindings :=
           obj_assign (c_qEdgeID c) (Build_Binding <$> recordHashes c) (edge_bindings r);
         score := score r |})) as [IHn IHe].
    split.
    - intros q bs [Hin | (c' & Hc' & H)]%IHn.
      + simpl in Hin. apply elem_of_obj_assign in Hin as [[= -> ->] | Hin].
        { right. exists c. split; [apply list_elem_of_here | auto]. }
        apply elem_of_obj_assign in Hin as [[= -> ->] | Hin]; [| by left].
        right. exists c. split; [apply list_elem_of_here | auto].
      + right. exists c'. split; [by apply list_elem_of_further | done].
    - intros e bs [Hin | (c' & Hc' & H)]%IHe.
      + simpl in Hin. apply elem_of_obj_assign in Hin as [[= -> ->] | Hin]; [| by left].
        right. exists c. split; [apply list_elem_of_here | auto].
      + right. exists c'. split; [by apply list_elem_of_further | done]. }
  destruct (Hgen {| node_bindings := []; edge_bindings := []; score := 1 |}) as [Hn He].
  split.
  - intros q bs [Hin | ?]%Hn; [by apply elem_of_nil in Hin | done].
  - intros e bs [Hin | ?]%He; [by apply elem_of_nil in Hin | done].
Qed.

Lemma consolidate_bindings (g : list Preresult) (cs : list ConsolidatedRecord) :
  consolidate g = Ok cs -> bindings_from_group g (toResult cs).
Proof.
  unfold consolidate. intros Hcs%mapM_Forall2.
  assert (forall c, c ∈ cs -> exists col r0, column_of g col /\ head col = Some r0 /\
    c = {| c_inputQNodeID := inputQNodeID r0;
           c_outputQNodeID := outputQNodeID r0;
           inputPrimaryCuries := set_of_array (inputPrimaryCurie <$> col);
           outputPrimaryCuries := set_of_array (outputPrimaryCurie <$> col);
           c_qEdgeID := qEdgeID r0;
           recordHashes := set_of_array (recordHash <$> col) |}) as Hcol.
  { intros c (i & Hi)%list_elem_of_lookup.
    destruct (Forall2_lookup_r _ _ _ _ _ Hcs Hi) as (ocol & Hocol & Hc).
    apply consolidateRecords_Ok in Hc as (col & r0 & -> & Hr0 & ->).
    exists col, r0. split; [| done].
    unfold column_of. apply list_elem_of_lookup. eauto. }
  destruct (toResult_bindings cs) as [Hn He]. split.
  - intros q bs (c & (col & r0 & Hg & Hr0 & ->)%Hcol & H)%Hn. simpl in H.
    split.
    + destruct H as [[_ ->] | [_ ->]]; apply first_occurrences_NoDup.
    + exists col, r0. split_and!; [done | done |]. exact H.
  - intros e bs (c & (col & r0 & Hg & Hr0 & ->)%Hcol & -> & ->)%He. simpl.
    split; [apply first_occurrences_NoDup |].
    exists col, r0. done.
Qed.

(** C8, as the code has it. No binding list is sorted by [update]; each
    lists, without repetition and in order of first occurrence, the curies
    (for a QNode) or record hashes (for a QEdge) that the preresults of
    the result's group hold at one position. *)
Theorem update_bindings_in_first_occurrence_order (depth : nat)
    (recordsByQEdgeID : DataByEdge) (this : QueryResult) (a : Assembly) :
  assemble depth recordsByQEdgeID = Ok a ->
  Forall2 (fun kg r => bindings_from_group kg.2 r) (groups a)
          (getResults (update depth recordsByQEdgeID this).1).
Proof.
  intros Ha.
  destruct (assemble_Ok depth recordsByQEdgeID this a Ha) as (-> & _ & Hres).
  eapply Forall2_impl; [exact Hres |].
  intros [k g] r (c & Hc & ->). simpl in *. by apply consolidate_bindings.
Qed.

Lemma update_bindings_in_first_occurrence_order_witness :
  exists a, assemble 10 (three_diseases true) = Ok a /\
    Forall2 (fun kg r => bindings_from_group kg.2 r) (groups a)
            (getResults (update 10 (three_diseases true) constructor).1).
Proof.
  destruct (assemble 10 (three_diseases true)) as [a |] eqn:Ha; [| by vm_compute in Ha].
  exists a. split; [done |].
  apply (update_bindings_in_first_occurrence_order 10 (three_diseases true) constructor a Ha).
Defined.

(** C8, as the specification states it, fails: with three diseases D3, D1, D2 (in
    this order in the records) at an is_set node, the one result binds n2
    to D3, D1, D2, which is sorted neither upwards nor downwards. *)
Lemma update_bindings_not_sorted :
  exists r, r ∈ getResults (update 10 (three_diseases true) constructor).1 /\
    ("n2", [Build_Binding "D3"; Build_Binding "D1"; Build_Binding "D2"]) ∈ node_bindings r /\
    ~ bindings_sorted String.le r /\ ~ bindings_sorted (flip String.le) r.
Proof.
  eexists. split; [vm_compute; apply list_elem_of_here |].
  assert (("n2", [Build_Binding "D3"; Build_Binding "D1"; Build_Binding "D2"])
          ∈ [("n1", [Build_Binding "NCBIGene:3778"]);
             ("n2", [Build_Binding "D3"; Build_Binding "D1"; Build_Binding "D2"]);
             ("n3", [Build_Binding "NCBIGene:7289"])]) as Hin.
  { apply list_elem_of_further, list_elem_of_here. }
  split; [exact Hin |].
  split; intros [Hn _]; specialize (Hn _ _ Hin); simpl in Hn.
  - apply Sorted_inv in Hn as [_ Hhd]. apply HdRel_inv in Hhd. by vm_compute in Hhd.
  - apply Sorted_inv in Hn as [Hn _]. apply Sorted_inv in Hn as [_ Hhd].
    apply HdRel_inv in Hhd. by vm_compute in Hhd.
Qed.

(** C10. [update] replaces the stored results: whatever was stored before
    (by an earlier call, completed or not), after [update] on [r2] the
    object is as a fresh one after [update] on [r2], and repeating a call
    changes nothing. *)
Theorem update_replaces_results (depth1 depth2 : nat) (r1 r2 : DataByEdge)
    (this : QueryResult) :
  update depth2 r2 (update depth1 r1 this).1 = update depth2 r2 constructor /\
  getResults (update depth2 r2 (update depth1 r1 this).1).1
  = getResults (update depth2 r2 constructor).1 /\
  update depth1 r1 (update depth1 r1 this).1 = update depth1 r1 this.
Proof.
  assert (forall depth r this1 this2, update depth r this1 = update depth r this2) as Hany.
  { intros depth r this1 this2. unfold update. by destruct (assemble depth r). }
  split_and!.
  - apply Hany.
  - by rewrite (Hany depth2 r2 _ constructor).
  - apply Hany.
Qed.

(** ** What the result identifier looks at *)

(** Preresults with the same tokens have the same identifier. *)
Lemma uniqueResultID_tokens (S : JSSet) (p p' : Preresult) :
  (forall t, t ∈ uniqueNodeIDs S p <-> t ∈ uniqueNodeIDs S p') ->
  uniqueResultID S p = uniqueResultID S p'.
Proof.
  intros Htokens. unfold uniqueResultID, set_to_array. f_equal.
  apply sort_unique; [apply sort_Sorted |].
  rewrite sort_Permutation.
  apply NoDup_Permutation; [apply NoDup_uniqueNodeIDs | apply NoDup_uniqueNodeIDs | done].
Qed.

(** X18. The identifier of a preresult does not depend on the order of its
    elements, nor on which end of an element is its input: a permutation
    of the preresult, and the preresult with every element reversed, have
    the identifier of the preresult. *)
Theorem uniqueResultID_order_independent (S : JSSet) (p p' : Preresult) :
  p ≡ₚ p' ->
  uniqueResultID S p' = uniqueResultID S p /\
  uniqueResultID S (flipRecord <$> p') = uniqueResultID S p.
Proof.
  intros Hperm. split; apply uniqueResultID_tokens; intros t;
    rewrite !elem_of_uniqueNodeIDs.
  - split; intros (r & Hr & Ht); exists r; (split; [| done]).
    + by rewrite Hperm.
    + by rewrite <- Hperm.
  - split.
    + intros (r & Hr & Ht). apply list_elem_of_fmap in Hr as (r0 & -> & Hr0).
      exists r0. split; [by rewrite Hperm |]. simpl in Ht. tauto.
    + intros (r & Hr & Ht). exists (flipRecord r).
      split; [apply list_elem_of_fmap; exists r; by rewrite <- Hperm |]. simpl. tauto.
Qed.

Lemma uniqueResultID_order_independent_witness :
  let a := {| inputQNodeID := "n0"; outputQNodeID := "n1"; inputPrimaryCurie := "A";
              outputPrimaryCurie := "B"; qEdgeID := "e0"; recordHash := "h0" |} in
  let b := {| inputQNodeID := "n1"; outputQNodeID := "n2"; inputPrimaryCurie := "B";
              outputPrimaryCurie := "C"; qEdgeID := "e1"; recordHash := "h1" |} in
  uniqueResultID [] [b; a] = uniqueResultID [] [a; b] /\
  uniqueResultID [] (flipRecord <$> [b; a]) = uniqueResultID [] [a; b].
Proof.
  intros a b. apply (uniqueResultID_order_independent [] [a; b] [b; a]).
  apply Permutation_swap.
Defined.

Lemma _getUniqueNodeID_is_set (S : JSSet) (q c c' : string) :
  q ∈ S \/ c = c' -> _getUniqueNodeID S q c = _getUniqueNodeID S q c'.
Proof.
  unfold _getUniqueNodeID, set_has. intros [Hq | ->]; [| done].
  by rewrite bool_decide_eq_true_2.
Qed.

(** X19. The identifier does not see the curie of a QNode marked [is_set]: two
    preresults that, element by element, name the same QNodes and agree
    on the curies of the QNodes that are not marked have one identifier. *)
Theorem uniqueResultID_ignores_is_set_curies (S : JSSet) (p p' : Preresult) :
  Forall2 (agreeUpToIsSet S) p p' ->
  uniqueResultID S p = uniqueResultID S p'.
Proof.
  intros Hagree. apply uniqueResultID_tokens. intros t. rewrite !elem_of_uniqueNodeIDs.
  assert (forall r r', agreeUpToIsSet S r r' ->
    _getUniqueNodeID S (inputQNodeID r) (inputPrimaryCurie r)
    = _getUniqueNodeID S (inputQNodeID r') (inputPrimaryCurie r') /\
    _getUniqueNodeID S (outputQNodeID r) (outputPrimaryCurie r)
    = _getUniqueNodeID S (outputQNodeID r') (outputPrimaryCurie r')) as Htok.
  { intros r r' (Hi & Ho & Hic & Hoc). rewrite <- Hi, <- Ho.
    split; by apply _getUniqueNodeID_is_set. }
  split; intros (r & Hr & Ht).
  - apply list_elem_of_lookup in Hr as [i Hi].
    destruct (Forall2_lookup_l _ _ _ _ _ Hagree Hi) as (r' & Hi' & Hrr').
    exists r'. split; [by eapply list_elem_of_lookup_2 |].
    destruct (Htok r r' Hrr') as [<- <-]. done.
  - apply list_elem_of_lookup in Hr as [i Hi].
    destruct (Forall2_lookup_r _ _ _ _ _ Hagree Hi) as (r' & Hi' & Hrr').
    exists r'. split; [by eapply list_elem_of_lookup_2 |].
    destruct (Htok r' r Hrr') as [-> ->]. done.
Qed.

Lemma uniqueResultID_ignores_is_set_curies_witness :
  let a d := {| inputQNodeID := "n0"; outputQNodeID := "n1"; inputPrimaryCurie := "A";
                outputPrimaryCurie := d; qEdgeID := "e0"; recordHash := "h" +:+ d |} in
  uniqueResultID ["n1"] [a "D1"] = uniqueResultID ["n1"] [a "D2"].
Proof.
  intros a. apply (uniqueResultID_ignores_is_set_curies ["n1"] [a "D1"] [a "D2"]).
  constructor; [| constructor].
  split_and!; [done | done | by right | left; apply list_elem_of_here].
Defined.

(** ** Input that [update] cannot assemble *)

Lemma findIsSet_empty_records (recordsByQEdgeID : DataByEdge) (s : JSSet) :
  (exists e d, (e, d) ∈ recordsByQEdgeID /\ records d = []) ->
  forEachM (fun qNodeIDsWithIsSet '(qEdgeID, edge) =>
    let! inputQNodeID := helper _getInputQueryNodeID (head (records edge)) in
    let! outputQNodeID := helper _getOutputQueryNodeID (head (records edge)) in
    let! inputIsSet := helper _getInputIsSet (head (records edge)) in
    let s := if inputIsSet then set_add inputQNodeID qNodeIDsWithIsSet
             else qNodeIDsWithIsSet in
    let! outputIsSet := helper _getOutputIsSet (head (records edge)) in
    Ok (if outputIsSet then set_add outputQNodeID s else s))
  recordsByQEdgeID s = Throw TypeError.
Proof.
  revert s. induction recordsByQEdgeID as [| [e0 d0] rb IH]; intros s (e & d & Hin & Hd).
  - by apply elem_of_nil in Hin.
  - cbn [forEachM]. destruct (records d0) as [| x xs] eqn:Hd0; [done |].
    cbn [head helper defined bind]. apply IH.
    apply elem_of_cons in Hin as [[= -> ->] | Hin]; [congruence | by exists e, d].
Qed.

(** X17. [update] cannot assemble an empty object, nor an object in which some
    edge has no record: it throws a [TypeError], and the results it held
    are gone. *)
Theorem update_throws_on_missing_records (depth : nat) (recordsByQEdgeID : DataByEdge)
    (this : QueryResult) :
  recordsByQEdgeID = [] \/
  (exists e d, (e, d) ∈ recordsByQEdgeID /\ records d = []) ->
  update (S depth) recordsByQEdgeID this = ({| _results := [] |}, Throw TypeError) /\
  getResults (update (S depth) recordsByQEdgeID this).1 = [].
Proof.
  intros [-> | Hempty].
  - done.
  - unfold update, assemble, findIsSet. by rewrite findIsSet_empty_records.
Qed.

Lemma update_throws_on_missing_records_witness :
  update 3 [("e0", {| connected_to := []; records := [] |})]
         {| _results := [{| node_bindings := []; edge_bindings := []; score := 1 |}] |}
  = ({| _results := [] |}, Throw TypeError) /\
  getResults
    (update 3 [("e0", {| connected_to := []; records := [] |})]
       {| _results := [{| node_bindings := []; edge_bindings := []; score := 1 |}] |}).1 = [].
Proof.
  apply (update_throws_on_missing_records 2). right.
  exists "e0", {| connected_to := []; records := [] |}. split; [by left | done].
Defined.

(** ** Where the bindings come from *)

Lemma forEachM_invariant {S A : Type} (I : S -> Prop) (f : S -> A -> Outcome S)
    (l : list A) (s s' : S) :
  (forall s x s', x ∈ l -> I s -> f s x = Ok s' -> I s') ->
  I s -> forEachM f l s = Ok s' -> I s'.
Proof.
  revert s. induction l as [| x l IH]; intros s Hstep Hs; simpl.
  - by intros [= <-].
  - destruct (f s x) as [s1 |] eqn:Hf; [| done]. simpl. apply IH.
    + intros s2 y s3 Hy. apply Hstep. by right.
    + eapply Hstep; [by left | done | done].
Qed.

Section Provenance.

Variable recordsByQEdgeID : DataByEdge.

(** Every array of the store holds elements built from the records. *)
Definition heapFrom (h : Heap) : Prop :=
  Forall (Forall (fromRecords recordsByQEdgeID)) (arrays h).

Lemma deref_heapFrom (h : Heap) (r : nat) :
  heapFrom h -> Forall (fromRecords recordsByQEdgeID) (deref h r).
Proof.
  intros Hh. unfold deref. destruct (arrays h !! r) as [a |] eqn:Ha; simpl; [| constructor].
  by eapply (Forall_lookup_1 _ _ _ _ Hh).
Qed.

Lemma alloc_heapFrom (a : Preresult) (h : Heap) :
  Forall (fromRecords recordsByQEdgeID) a -> heapFrom h -> heapFrom (alloc a h).2.
Proof.
  intros Ha Hh. unfold heapFrom, alloc. simpl. apply Forall_app. split; [done |].
  by constructor.
Qed.

Lemma push_heapFrom (r : nat) (x : UcRecord) (h : Heap) :
  fromRecords recordsByQEdgeID x -> heapFrom h -> heapFrom (push r x h).
Proof.
  intros Hx Hh. unfold heapFrom, push. simpl. apply Forall_alter; [done |].
  intros a _ Ha. apply Forall_app. split; [done | by constructor].
Qed.

Lemma _getUnconsolidatedResults_heapFrom (depth : nat) (qEdgeID : string) (edgeCount : nat)
    (ucResult : nat) (qNodeIDToMatch primaryCurieToMatch : option string) (h h' : Heap) :
  heapFrom h ->
  _getUnconsolidatedResults depth recordsByQEdgeID qEdgeID edgeCount ucResult
    qNodeIDToMatch primaryCurieToMatch h = Ok h' ->
  heapFrom h'.
Proof.
  revert qEdgeID ucResult qNodeIDToMatch primaryCurieToMatch h h'.
  induction depth as [| depth IH];
    intros qEdgeID ucResult qNodeIDToMatch primaryCurieToMatch h h' Hh; [done |].
  cbn [_getUnconsolidatedResults].
  destruct (obj_get qEdgeID recordsByQEdgeID) as [edge |] eqn:Hedge; [| done].
  cbn [defined bind].
  destruct (head (records edge)) as [record0 |]; [| done].
  cbn [helper defined bind].
  match goal with
  | |- match ?d with _ => _ end = _ -> _ => destruct d as [[[otherQNodeID getM] getO] |]
  end; [| by intros [= <-]].
  match goal with
  | |- context [forEachM ?f ?l ?s] => set (step := f); set (matching := l)
  end.
  destruct (forEachM step matching (0, ucResult, h)) as [[[i u] h1] |] eqn:Hloop; [| done].
  cbn [bind]. intros [= <-].
  assert (forall record, record ∈ matching -> record ∈ records edge) as Hmatching.
  { intros record Hin. apply list_elem_of_In in Hin. apply filter_In in Hin as [Hin _].
    by apply list_elem_of_In. }
  apply (forEachM_invariant (fun '(_, _, h) => heapFrom h) step matching
           (0, ucResult, h) (i, u, h1)); [| done | done].
  intros [[i0 u0] h0] record [[i1 u1] h2] Hin Hh0. unfold step.
  destruct (if bool_decide (i0 <> 0) then alloc (deref h ucResult) h0 else (u0, h0))
    as [u2 h3] eqn:Hclone.
  assert (heapFrom h3) as Hh3.
  { case_bool_decide.
    - pose proof (alloc_heapFrom (deref h ucResult) h0 (deref_heapFrom h ucResult Hh) Hh0) as H3.
      by rewrite Hclone in H3.
    - by injection Hclone as _ <-. }
  match goal with
  | |- context [forEachM ?f ?l ?s] => set (visit := f); set (h4 := s)
  end.
  assert (heapFrom h4) as Hh4.
  { unfold h4. assert (heapFrom (push u2 (ucRecord qEdgeID record) h3)) as Hp.
    { apply push_heapFrom; [| done]. exists edge, record. by auto. }
    destruct (bool_decide (length _ = edgeCount)); exact Hp. }
  destruct (forEachM visit (connected_to edge) h4) as [h5 |] eqn:Hvisit; [| done].
  cbn [bind]. intros [= _ _ <-].
  apply (forEachM_invariant heapFrom visit (connected_to edge) h4 h5); [| done | done].
  intros s c s' _ Hs. unfold visit. by apply IH.
Qed.

Lemma enumerate_fromRecords (depth : nat) (pre : list Preresult) :
  enumerate depth recordsByQEdgeID = Ok pre ->
  Forall (Forall (fromRecords recordsByQEdgeID)) pre.
Proof.
  unfold enumerate.
  destruct (findRoot _ _ _) as [[initialQEdgeID initialQNodeIDToMatch] |]; [| done].
  cbn [bind].
  destruct (_getUnconsolidatedResults _ _ _ _ _ _ _ _) as [h |] eqn:Hh; [| done].
  cbn [bind]. intros [= <-].
  apply _getUnconsolidatedResults_heapFrom in Hh; [| by repeat constructor].
  apply Forall_fmap, Forall_forall. intros r _. by apply deref_heapFrom.
Qed.

End Provenance.

Lemma column_of_elem_of (g : list Preresult) (col : list UcRecord) (u : UcRecord) :
  column_of g col -> u ∈ col -> exists p, p ∈ g /\ u ∈ p.
Proof.
  unfold column_of, zip. intros Hcol Hu.
  apply list_elem_of_fmap in Hcol as (i & Hcol & _).
  apply list_elem_of_lookup in Hu as [j Hj].
  assert ((Some <$> col) !! j = Some (Some u)) as Hj' by (by rewrite list_lookup_fmap, Hj).
  rewrite Hcol, list_lookup_fmap in Hj'.
  destruct (g !! j) as [p |] eqn:Hp; [| done]. simpl in Hj'. injection Hj' as Hpi.
  exists p. split; by eapply list_elem_of_lookup_2.
Qed.

(** X16. The results bind nothing that the records do not hold: when [update]
    completes, every edge binding is filed under a QEdge of the input and
    is the hash of one of the records, and every node binding is filed
    under a QNode of a record and is the input or output curie of one of
    the records. *)
Theorem update_binds_what_records_hold (depth : nat) (recordsByQEdgeID : DataByEdge)
    (this : QueryResult) (a : Assembly) :
  assemble depth recordsByQEdgeID = Ok a ->
  Forall (fun res =>
    (forall q bs b, (q, bs) ∈ node_bindings res -> b ∈ bs ->
       (exists edge record, edge ∈ recordsByQEdgeID.*2 /\ record ∈ records edge /\
          (q = _getInputQueryNodeID record \/ q = _getOutputQueryNodeID record)) /\
       (exists edge record, edge ∈ recordsByQEdgeID.*2 /\ record ∈ records edge /\
          (id b = _getInputCurie record \/ id b = _getOutputCurie record))) /\
    (forall e bs b, (e, bs) ∈ edge_bindings res -> b ∈ bs ->
       e ∈ recordsByQEdgeID.*1 /\
       exists edge record, edge ∈ recordsByQEdgeID.*2 /\ record ∈ records edge /\
         id b = _getRecordHash record))
    (getResults (update depth recordsByQEdgeID this).1).
Proof.
  intros Ha. destruct (assemble_Ok depth recordsByQEdgeID this a Ha) as (-> & Hgroups & Hres).
  assert (Forall (Forall (fromRecords recordsByQEdgeID)) (preresults a)) as Hpre.
  { revert Ha. unfold assemble. destruct (findIsSet _); [| done]. cbn [bind].
    destruct (enumerate depth recordsByQEdgeID) as [pre |] eqn:Hpre; [| done]. cbn [bind].
    destruct (mapM _ _); [| done]. cbn [bind]. intros [= <-]. simpl.
    by eapply enumerate_fromRecords. }
  assert (forall k g col u, (k, g) ∈ groups a -> column_of g col -> u ∈ col ->
            fromRecords recordsByQEdgeID u) as Hcol.
  { intros k g col u Hg Hc Hu. destruct (column_of_elem_of g col u Hc Hu) as (p & Hp & Hup).
    rewrite Hgroups in Hg. apply groupByResultID_classes in Hg as (_ & _ & ->).
    apply list_elem_of_filter in Hp as [_ Hp].
    eapply (proj1 (Forall_forall _ _)); [| exact Hup].
    by eapply (proj1 (Forall_forall _ _) Hpre). }
  assert (forall u, fromRecords recordsByQEdgeID u ->
            qEdgeID u ∈ recordsByQEdgeID.*1 /\
            exists edge record, edge ∈ recordsByQEdgeID.*2 /\ record ∈ records edge /\
              u = ucRecord (qEdgeID u) record) as Hfrom.
  { intros u (edge & record & Hedge & Hrecord & Hu). split.
    - destruct (decide (qEdgeID u ∈ recordsByQEdgeID.*1)) as [| Hk]; [done |].
      apply obj_get_None in Hk. congruence.
    - exists edge, record. split_and!; [| done | done].
      clear -Hedge. induction recordsByQEdgeID as [| [k d] rb IH]; [done |].
      simpl in *. case_bool_decide; [injection Hedge as ->; by left | right; by apply IH]. }
  apply Forall_forall. intros res Hin.
  apply list_elem_of_lookup in Hin as [i Hi].
  destruct (Forall2_lookup_r _ _ _ _ _ Hres Hi) as ([k g] & Hkg & c & Hc & ->).
  apply list_elem_of_lookup_2 in Hkg. simpl in Hc.
  destruct (consolidate_bindings g c Hc) as [Hnodes Hedges].
  split.
  - intros q bs b Hq Hb.
    destruct (Hnodes q bs Hq) as (_ & col & r0 & Hcolumn & Hhead & Hside).
    assert (r0 ∈ col) as Hr0 by (destruct col; [done | injection Hhead as ->; by left]).
    destruct (Hfrom r0 (Hcol k g col r0 Hkg Hcolumn Hr0)) as (_ & edge0 & record0 & He0 & Hrec0 & Hu0).
    split.
    + exists edge0, record0. split_and!; [done | done |].
      destruct Hside as [[-> _] | [-> _]]; rewrite Hu0; simpl; by auto.
    + assert (exists u, u ∈ col /\
                (id b = inputPrimaryCurie u \/ id b = outputPrimaryCurie u)) as (u & Hu & Hid).
      { destruct Hside as [[_ ->] | [_ ->]]; unfold first_occurrences, set_to_array in Hb;
          apply list_elem_of_fmap in Hb as (s & -> & Hs);
          apply elem_of_set_of_array, list_elem_of_fmap in Hs as (u & -> & Hu);
          exists u; by auto. }
      destruct (Hfrom u (Hcol k g col u Hkg Hcolumn Hu)) as (_ & edge & record & He & Hrec & Huu).
      exists edge, record. split_and!; [done | done |].
      rewrite Huu in Hid. simpl in Hid. done.
  - intros e bs b He Hb.
    destruct (Hedges e bs He) as (_ & col & r0 & Hcolumn & Hhead & -> & ->).
    assert (r0 ∈ col) as Hr0 by (destruct col; [done | injection Hhead as ->; by left]).
    destruct (Hfrom r0 (Hcol k g col r0 Hkg Hcolumn Hr0)) as (Hkey & _).
    split; [done |].
    unfold first_occurrences, set_to_array in Hb.
    apply list_elem_of_fmap in Hb as (s & -> & Hs).
    apply elem_of_set_of_array, list_elem_of_fmap in Hs as (u & -> & Hu).
    destruct (Hfrom u (Hcol k g col u Hkg Hcolumn Hu)) as (_ & edge & record & Hedge & Hrec & Huu).
    exists edge, record. split_and!; [done | done |]. rewrite Huu. done.
Qed.

Lemma update_binds_what_records_hold_witness :
  Forall (fun res =>
    (forall q bs b, (q, bs) ∈ node_bindings res -> b ∈ bs ->
       (exists edge record, edge ∈ two_hop.*2 /\ record ∈ records edge /\
          (q = _getInputQueryNodeID record \/ q = _getOutputQueryNodeID record)) /\
       (exists edge record, edge ∈ two_hop.*2 /\ record ∈ records edge /\
          (id b = _getInputCurie record \/ id b = _getOutputCurie record))) /\
    (forall e bs b, (e, bs) ∈ edge_bindings res -> b ∈ bs ->
       e ∈ two_hop.*1 /\
       exists edge record, edge ∈ two_hop.*2 /\ record ∈ records edge /\
         id b = _getRecordHash record))
    (getResults (update 10 two_hop constructor).1).
Proof.
  destruct (assemble 10 two_hop) as [a |] eqn:Ha; [| by vm_compute in Ha].
  exact (update_binds_what_records_hold 10 two_hop constructor a Ha).
Defined.

(** ** One edge: every record is bound *)

Lemma zip_singletons (col : list UcRecord) :
  col <> [] -> zip ((fun u => [u]) <$> col) = [Some <$> col].
Proof.
  intros Hcol. unfold zip.
  assert (max_list (length <$> ((fun u : UcRecord => [u]) <$> col)) = 1) as ->.
  { destruct col as [| u col]; [done |]. clear Hcol. simpl.
    induction col as [| v col IH]; [done |]. simpl in *. unfold Datatypes.id in *. lia. }
  simpl. f_equal. rewrite <- list_fmap_compose. by apply list_fmap_ext.
Qed.

Lemma consolidate_singletons (col : list UcRecord) (r0 : UcRecord) :
  head col = Some r0 ->
  consolidate ((fun u => [u]) <$> col)
  = Ok [{| c_inputQNodeID := inputQNodeID r0;
           c_outputQNodeID := outputQNodeID r0;
           inputPrimaryCuries := set_of_array (inputPrimaryCurie <$> col);
           outputPrimaryCuries := set_of_array (outputPrimaryCurie <$> col);
           c_qEdgeID := qEdgeID r0;
           recordHashes := set_of_array (recordHash <$> col) |}].
Proof.
  intros Hhead. assert (col <> []) as Hcol by (by destruct col).
  unfold consolidate. rewrite zip_singletons by done. cbn [mapM].
  destruct (consolidateRecords_defined col Hcol) as [c Hc]. rewrite Hc. cbn [bind].
  apply consolidateRecords_Ok in Hc as (col' & r0' & Hcol' & Hhead' & ->).
  apply (inj (fmap Some)) in Hcol' as <-. rewrite Hhead in Hhead'. by injection Hhead' as <-.
Qed.

Lemma filter_singletons (P : Preresult -> Prop) {Pdec : forall p, Decision (P p)}
    (e : string) (recs : list QRecord) :
  exists col,
    filter P ((fun x => [ucRecord e x]) <$> recs) = (fun u => [u]) <$> col /\
    (forall u, u ∈ col <-> exists x, x ∈ recs /\ u = ucRecord e x /\ P [u]).
Proof.
  induction recs as [| x recs (col & Hcol & Hin)].
  - exists []. split; [done |]. intros u. split; [by intros H%elem_of_nil |].
    intros (x & Hx & _). by apply elem_of_nil in Hx.
  - rewrite fmap_cons, filter_cons. destruct (decide (P [ucRecord e x])) as [HP | HP].
    + exists (ucRecord e x :: col). split; [simpl; by rewrite Hcol |].
      intros u. rewrite elem_of_cons, Hin. split.
      * intros [-> | (y & Hy & -> & HPy)]; [exists x | exists y]; split_and!;
          try done; [by left | by right].
      * intros (y & [-> | Hy]%elem_of_cons & -> & HPy); [by left | right; by exists y].
    + exists col. split; [done |]. intros u. rewrite Hin. split.
      * intros (y & Hy & -> & HPy). exists y. split_and!; [by right | done | done].
      * intros (y & [-> | Hy]%elem_of_cons & -> & HPy); [done | by exists y].
Qed.



(** ** A path of two edges *)

Section TwoHop.

Variables e1 e2 : string.
Variable forward : bool.
Variables r1 r2 : QRecord.
Variables rs1 rs2 : list QRecord.

Hypothesis e1_e2 : e1 <> e2.
Hypothesis e1_named : e1 <> "".
Hypothesis path : isPath forward r1 r2.

Local Abbreviation rb := (two_hop_path e1 e2 (r1 :: rs1) (r2 :: rs2)).

Lemma two_hop_get1 :
  obj_get e1 rb = Some {| connected_to := [e2]; records := r1 :: rs1 |}.
Proof. unfold two_hop_path. simpl. by rewrite bool_decide_eq_true_2. Qed.

Lemma two_hop_get2 :
  obj_get e2 rb = Some {| connected_to := [e1]; records := r2 :: rs2 |}.
Proof.
  unfold two_hop_path. simpl. rewrite (bool_decide_eq_false_2 (e1 = e2)) by done.
  by rewrite bool_decide_eq_true_2.
Qed.

Lemma two_hop_findRoot :
  findRoot rb rb (None, None) = Ok (Some e1, Some (_getInputQueryNodeID r1)).
Proof.
  destruct path as (Hshared & H12 & H31 & H32).
  unfold two_hop_path. cbn [findRoot records connected_to head helper defined bind length].
  rewrite bool_decide_eq_false_2 by done.
  cbn [findRootAmong obj_get].
  rewrite (bool_decide_eq_false_2 (e1 = e2)) by done.
  rewrite bool_decide_eq_true_2 by done.
  cbn [defined bind records head helper fst truthy negb].
  rewrite bool_decide_eq_true_2.
  - cbn [bind fst truthy]. by rewrite bool_decide_eq_false_2.
  - intros Hin. apply elem_of_cons in Hin as [Hin | Hin].
    + destruct forward; simpl in *; congruence.
    + apply list_elem_of_singleton in Hin. destruct forward; simpl in *; congruence.
Qed.

(** The visit that comes back to the first edge from the far end of the
    second finds neither of its QNodes and returns. *)
Lemma two_hop_back (depth ref : nat) (c : string) (h : Heap) :
  depth <> 0 ->
  _getUnconsolidatedResults depth rb e1 2 ref (Some (farNode forward r2)) (Some c) h = Ok h.
Proof.
  destruct path as (Hshared & H12 & H31 & H32).
  destruct depth as [| depth]; [done |]. intros _.
  cbn [_getUnconsolidatedResults]. rewrite two_hop_get1.
  cbn [defined bind records head helper].
  unfold matches. rewrite bool_decide_eq_false_2 by (intros [[=] | [=]]; done).
  by rewrite bool_decide_eq_false_2 by (intros [=]; done).
Qed.


Lemma matches_Some (a c : string) : matches a (Some c) = bool_decide (a = c).
Proof. unfold matches. apply bool_decide_ext. split; [by intros [[= ->] | [=]] | intros ->; by left]. Qed.

Local Abbreviation matching x :=
  (List.filter (fun y => bool_decide (sharedCurie forward y = _getOutputCurie x)) (r2 :: rs2)).

(** What the store gains while the records of the second edge are
    visited for the record [x] of the first. *)
Definition block (x : QRecord) : list Preresult :=
  match matching x with
  | [] => [[ucRecord e1 x]]
  | ys => (fun y => [ucRecord e1 x; ucRecord e2 y]) <$> ys
  end.

Lemma two_hop_second (depth : nat) (A : list Preresult) (U : list nat) (x : QRecord) :
  _getUnconsolidatedResults (S (S depth)) rb e2 2 (length A)
    (Some (_getOutputQueryNodeID r1)) (Some (_getOutputCurie x))
    {| arrays := A ++ [[ucRecord e1 x]]; ucResults := U |}
  = Ok {| arrays := A ++ block x;
          ucResults := U ++ seq (length A) (length (matching x)) |}.
Proof.
  destruct path as (Hshared & H12 & H31 & H32).
  remember (S depth) as d eqn:Hd. assert (d <> 0) as Hd0 by lia. clear Hd.
  cbn [_getUnconsolidatedResults]. rewrite two_hop_get2.
  cbn [defined bind records head helper connected_to].
  assert ((if matches (_getInputQueryNodeID r2) (Some (_getOutputQueryNodeID r1))
           then Some (_getOutputQueryNodeID r2, _getInputCurie, _getOutputCurie)
           else if bool_decide (Some (_getOutputQueryNodeID r1) = Some (_getOutputQueryNodeID r2))
                then Some (_getInputQueryNodeID r2, _getOutputCurie, _getInputCurie)
                else None)
          = Some (farNode forward r2, sharedCurie forward, farCurie forward)) as ->.
  { rewrite matches_Some. destruct forward; simpl in *.
    - by rewrite bool_decide_eq_true_2.
    - rewrite bool_decide_eq_false_2 by congruence.
      by rewrite bool_decide_eq_true_2 by congruence. }
  rewrite deref_last.
  rewrite (filter_ext _ (fun y => bool_decide (sharedCurie forward y = _getOutputCurie x)))
    by (intros y; apply matches_Some).
  unfold block.
  match goal with |- context [forEachM ?f _ _] => set (step := f) end.
  assert (forall ys j cur A' U', j <> 0 ->
    exists cur',
      forEachM step ys (j, cur, {| arrays := A'; ucResults := U' |})
      = Ok (j + length ys, cur',
            {| arrays := A' ++ ((fun y => [ucRecord e1 x; ucRecord e2 y]) <$> ys);
               ucResults := U' ++ seq (length A') (length ys) |}))
    as Hrest.
  { induction ys as [| y ys IH]; intros j cur A' U' Hj.
    - exists cur. simpl. by rewrite !app_nil_r, Nat.add_0_r.
    - cbn [forEachM]. unfold step at 1. rewrite bool_decide_eq_true_2 by done.
      destruct (alloc [ucRecord e1 x] {| arrays := A'; ucResults := U' |}) as [ref h1] eqn:Halloc.
      pose proof (push_alloc [ucRecord e1 x] (ucRecord e2 y) {| arrays := A'; ucResults := U' |})
        as Hpush.
      rewrite Halloc in Hpush. simpl in Hpush. rewrite Hpush.
      assert (ref = length A') as -> by (by injection Halloc as <- _).
      rewrite deref_last. simpl length. rewrite bool_decide_eq_true_2 by done.
      cbn [forEachM]. rewrite two_hop_back by done. cbn [bind].
      unfold push_result. simpl.
      destruct (IH (S j) (length A')
                  (A' ++ [[ucRecord e1 x; ucRecord e2 y]]) (U' ++ [length A'])) as [cur' ->];
        [done |].
      exists cur'. simpl. rewrite length_app. simpl.
      rewrite <- !app_assoc. simpl.
      by rewrite Nat.add_1_r, Nat.add_succ_r. }
  destruct (matching x) as [| y ys] eqn:Hys.
  - simpl. by rewrite app_nil_r.
  - cbn [forEachM]. unfold step at 1. rewrite bool_decide_eq_false_2 by lia.
    assert (push (length A) (ucRecord e2 y) {| arrays := A ++ [[ucRecord e1 x]]; ucResults := U |}
            = {| arrays := A ++ [[ucRecord e1 x; ucRecord e2 y]]; ucResults := U |}) as ->.
    { unfold push. simpl. f_equal.
      rewrite <- (Nat.add_0_r (length A)). by rewrite alter_app_r. }
    rewrite deref_last. simpl length. rewrite bool_decide_eq_true_2 by done.
    cbn [forEachM]. rewrite two_hop_back by done. cbn [bind].
    unfold push_result. simpl.
    destruct (Hrest ys 1 (length A) (A ++ [[ucRecord e1 x; ucRecord e2 y]]) (U ++ [length A]))
      as [cur' ->]; [done |].
    simpl. rewrite length_app. simpl. rewrite <- !app_assoc. simpl.
    by rewrite Nat.add_1_r.
Qed.


Lemma deref_block (A B : list Preresult) (U : list nat) :
  deref {| arrays := A ++ B; ucResults := U |} <$> seq (length A) (length B) = B.
Proof.
  apply list_eq. intros i. rewrite list_lookup_fmap. unfold deref. simpl.
  destruct (decide (i < length B)) as [Hi | Hi].
  - rewrite lookup_seq_lt by done. simpl.
    rewrite lookup_app_r by lia. replace (length A + i - length A) with i by lia.
    destruct (lookup_lt_is_Some_2 B i Hi) as [b Hb]. by rewrite Hb.
  - rewrite lookup_seq_ge by lia. by rewrite lookup_ge_None_2 by lia.
Qed.

(** The results read from the store [A] with the references [U] are [R]. *)
Definition reads (A : list Preresult) (U : list nat) (R : list Preresult) : Prop :=
  deref {| arrays := A; ucResults := U |} <$> U = R /\ Forall (fun r => r < length A) U.

Lemma reads_block (A : list Preresult) (U : list nat) (R : list Preresult) (x : QRecord) :
  reads A U R ->
  reads (A ++ block x) (U ++ seq (length A) (length (matching x)))
        (R ++ ((fun y => [ucRecord e1 x; ucRecord e2 y]) <$> matching x)).
Proof.
  intros [HR HU]. unfold reads. rewrite fmap_app. split.
  - f_equal.
    + rewrite <- HR. apply Forall_fmap_ext_1. eapply Forall_impl; [exact HU |].
      intros r Hr. unfold deref. simpl. by rewrite lookup_app_l.
    + unfold block. destruct (matching x) as [| y ys]; [done |].
      rewrite <- (length_fmap (fun y => [ucRecord e1 x; ucRecord e2 y]) (y :: ys)).
      apply deref_block.
  - apply Forall_app. split.
    + eapply Forall_impl; [exact HU |]. intros r Hr. rewrite length_app. simpl in *. lia.
    + apply Forall_forall. intros r Hr. apply elem_of_seq in Hr. rewrite length_app.
      assert (length (matching x) <= length (block x)); [| lia].
      unfold block. destruct (matching x) as [| y ys]; [simpl; lia |].
      by rewrite length_fmap.
Qed.

Lemma two_hop_enumerate (depth : nat) :
  enumerate (S (S (S depth))) rb = Ok (joined e1 e2 forward (r1 :: rs1) (r2 :: rs2)).
Proof.
  pose proof path as (Hshared & H12 & H31 & H32).
  unfold enumerate. rewrite two_hop_findRoot. cbn [bind property_key].
  assert (length (set_of_array (two_hop_path e1 e2 (r1 :: rs1) (r2 :: rs2)).*1) = 2) as ->.
  { unfold two_hop_path, set_of_array. simpl. unfold set_add at 2. simpl.
    unfold set_add, set_has. rewrite bool_decide_eq_false_2; [done |].
    intros Hin%list_elem_of_singleton. done. }
  remember (S (S depth)) as d eqn:Hd.
  cbn [_getUnconsolidatedResults]. rewrite two_hop_get1.
  cbn [defined bind records head helper connected_to].
  unfold matches at 1. rewrite bool_decide_eq_true_2 by (by left).
  rewrite filter_matches_None.
  change (deref {| arrays := [[]]; ucResults := [] |} 0) with (@nil UcRecord).
  match goal with |- context [forEachM ?f _ _] => set (step := f) end.
  assert (forall xs i (cur : nat) A U R, i <> 0 -> reads A U R ->
    exists (cur' : nat) (A' : list Preresult) (U' : list nat),
      forEachM step xs (i, cur, {| arrays := A; ucResults := U |})
      = Ok (i + length xs, cur', {| arrays := A'; ucResults := U' |}) /\
      reads A' U' (R ++ joined e1 e2 forward xs (r2 :: rs2)))
    as Hrest.
  { induction xs as [| x xs IH]; intros i cur A U R Hi HR.
    - exists cur, A, U. simpl. by rewrite app_nil_r, Nat.add_0_r.
    - cbn [forEachM]. unfold step at 1. rewrite bool_decide_eq_true_2 by done.
      destruct (alloc [] {| arrays := A; ucResults := U |}) as [ref h1] eqn:Halloc.
      pose proof (push_alloc [] (ucRecord e1 x) {| arrays := A; ucResults := U |}) as Hpush.
      rewrite Halloc in Hpush. simpl in Hpush. rewrite Hpush.
      assert (ref = length A) as -> by (by injection Halloc as <- _).
      rewrite deref_last. simpl length. rewrite bool_decide_eq_false_2 by lia.
      cbn [forEachM]. subst d. rewrite two_hop_second. cbn [bind].
      destruct (IH (S i) (length A) _ _ _ ltac:(done) (reads_block A U R x HR))
        as (cur' & A' & U' & -> & HR').
      exists cur', A', U'. split; [f_equal; f_equal; f_equal; simpl; lia |].
      unfold joined in *. cbn [mbind list_bind]. simpl. by rewrite <- app_assoc in HR'. }
  cbn [forEachM]. unfold step at 1. rewrite bool_decide_eq_false_2 by lia.
  change (push 0 (ucRecord e1 r1) {| arrays := [[]]; ucResults := [] |})
    with {| arrays := [[ucRecord e1 r1]]; ucResults := [] |}.
  change (deref {| arrays := [[ucRecord e1 r1]]; ucResults := [] |} 0)
    with [ucRecord e1 r1].
  cbn [length]. rewrite bool_decide_eq_false_2 by lia.
  cbn [forEachM]. subst d.
  pose proof (two_hop_second depth [] [] r1) as Hsecond. cbn [length app] in Hsecond.
  rewrite Hsecond. cbn [bind].
  destruct (Hrest rs1 1 0 _ _ _ ltac:(done) (reads_block [] [] [] r1 ltac:(by split)))
    as (cur' & A' & U' & Hloop & [HR' _]).
  cbn [length app] in Hloop. rewrite Hloop.
  cbn [bind]. f_equal. simpl in HR'. exact HR'.
Qed.



End TwoHop.


End QueryResultsFacts.

(** ** The cache handler *)

Module CacheHandlerFacts.

Import JSFacts QExeEdge CacheHandler.

(** *** Strings as lists of characters *)

Lemma list_ascii_of_string_app (a b : string) :
  list_ascii_of_string (a +:+ b) = list_ascii_of_string a ++ list_ascii_of_string b.
Proof. induction a as [| c a IH]; simpl; [done | by rewrite IH]. Qed.

Lemma string_of_list_ascii_app (a b : list ascii) :
  string_of_list_ascii (a ++ b) = string_of_list_ascii a +:+ string_of_list_ascii b.
Proof. induction a as [| c a IH]; simpl; [done | by rewrite IH]. Qed.

Lemma length_list_ascii_of_string (s : string) :
  length (list_ascii_of_string s) = String.length s.
Proof. induction s as [| c s IH]; simpl; [done | by rewrite IH]. Qed.

Lemma includes_elem_of (c : ascii) (s : string) :
  includes c s = true <-> c ∈ list_ascii_of_string s.
Proof.
  induction s as [| c' s IH]; simpl.
  - split; [done | intros H; by apply elem_of_nil in H].
  - rewrite orb_true_iff, bool_decide_eq_true, IH, elem_of_cons. naive_solver.
Qed.

Lemma includes_false (c : ascii) (s : string) :
  includes c s = false <-> c ∉ list_ascii_of_string s.
Proof. rewrite <- includes_elem_of. by destruct (includes c s). Qed.

Lemma string_app_assoc (a b c : string) : (a +:+ b) +:+ c = a +:+ b +:+ c.
Proof.
  induction a as [| x a IH]; [done |].
  change (String x ((a +:+ b) +:+ c) = String x (a +:+ b +:+ c)). by f_equal.
Qed.

Lemma string_app_nil_r (a : string) : a +:+ "" = a.
Proof.
  induction a as [| x a IH]; [done |].
  change (String x (a +:+ "") = String x a). by f_equal.
Qed.

Lemma encodeStream_cons {Payload : Type} (encode : Payload -> string)
    (x : Payload) (L : list Payload) :
  encodeStream Payload encode (x :: L) = encode x +:+ "," +:+ encodeStream Payload encode L.
Proof.
  unfold encodeStream. rewrite fmap_cons.
  destruct L as [| y L]; cbn [String.concat fmap list_fmap].
  - by rewrite string_app_nil_r.
  - rewrite string_app_assoc. reflexivity.
Qed.

(** *** The decode stream waits for ever on a chunk without delimiter *)

Lemma _transform_without_delimiter {Payload : Type} (decode : string -> Outcome Payload)
    (chunk : string) (this : DelimitedChunks Payload) :
  includes "," (_buffer Payload this +:+ chunk) = false ->
  exists this', _transform Payload decode chunk this = NoCallback Payload this'.
Proof. intros H. unfold _transform. rewrite H. by eexists. Qed.

Lemma chunker_first (n : nat) (a b : string) :
  0 < n -> n <= String.length a ->
  exists cs, chunker n (a +:+ b)
             = string_of_list_ascii (take n (list_ascii_of_string a)) :: cs.
Proof.
  intros Hn Ha. unfold chunker.
  rewrite <- (length_list_ascii_of_string (a +:+ b)), list_ascii_of_string_app.
  rewrite <- length_list_ascii_of_string in Ha.
  destruct (list_ascii_of_string a) as [| c l] eqn:Hl; [simpl in Ha; lia |].
  rewrite <- app_comm_cons. cbn [length chunks]. rewrite app_comm_cons.
  rewrite take_app_le by done. rewrite fmap_cons. by eexists.
Qed.

Lemma pipeDecode_cons {Payload : Type} (decode : string -> Outcome Payload)
    (chunk : string) (chunks : list string) (this : DelimitedChunks Payload) :
  pipeDecode Payload decode (chunk :: chunks) this
  = match _transform Payload decode chunk this with
    | CalledBack _ this' => pipeDecode Payload decode chunks this'
    | NoCallback _ _ => NeverEnds Payload
    | Threw _ e => Uncaught Payload e
    end.
Proof. reflexivity. Qed.

(** C3, where the code leaves the specification: [_transform] calls its callback
    only when the buffer holds a delimiter (line 27 is inside the [if]).
    A record whose encoding fills a whole chunk makes the first stored
    chunk one without delimiter, and reading the entry back never ends:
    the list is not returned. *)
Theorem decodeStored_never_ends_on_large_record {Payload : Type}
    (encode : Payload -> string) (decode : string -> Outcome Payload)
    (x : Payload) (L : list Payload) :
  includes "," (encode x) = false ->
  chunkSize <= String.length (encode x) ->
  decodeStored Payload decode (stored Payload encode (x :: L)) = NeverEnds Payload.
Proof.
  intros Hcomma Hlen. unfold stored. rewrite encodeStream_cons.
  assert (0 < chunkSize) as Hpos by (unfold chunkSize; lia).
  destruct (chunker_first chunkSize (encode x) ("," +:+ encodeStream Payload encode L)
              Hpos Hlen) as [cs ->].
  unfold decodeStored. rewrite pipeDecode_cons.
  edestruct (_transform_without_delimiter decode) as [this' ->]; [| done].
  change (_buffer Payload (newDelimitedChunks Payload) +:+ ?s) with s.
  apply includes_false. rewrite list_ascii_of_string_of_list_ascii.
  apply includes_false in Hcomma. intros Hin. apply Hcomma.
  by eapply subseteq_take.
Qed.

(** The failing input with the codec of the examples: one record as long
    as a chunk. *)
Lemma decodeStored_never_ends_on_large_record_witness :
  includes "," (unary_encode large_record) = false /\
  chunkSize <= String.length (unary_encode large_record) /\
  decodeStored nat unary_decode (stored nat unary_encode [large_record])
  = NeverEnds nat.
Proof.
  assert (includes "," (unary_encode large_record) = false) as H1 by (by vm_compute).
  assert (chunkSize <= String.length (unary_encode large_record)) as H2.
  { apply Nat.leb_le. by vm_compute. }
  split_and!; [done | done |].
  apply (decodeStored_never_ends_on_large_record unary_encode unary_decode large_record [] H1 H2).
Defined.


(** *** Splitting at the delimiter *)

Lemma split_app_sep (c : ascii) (p s : string) :
  includes c p = false -> split c (p +:+ String c s) = p :: split c s.
Proof.
  induction p as [| x p IH]; intros Hp.
  - change (split c (String c s) = "" :: split c s). simpl.
    by rewrite bool_decide_eq_true_2.
  - change (split c (String x (p +:+ String c s)) = String x p :: split c s).
    simpl in *. apply orb_false_iff in Hp as [Hx Hp].
    rewrite Hx, IH by done. done.
Qed.

Lemma split_without_sep (c : ascii) (p : string) :
  includes c p = false -> split c p = [p].
Proof.
  induction p as [| x p IH]; intros Hp; simpl in *; [done |].
  apply orb_false_iff in Hp as [Hx Hp]. by rewrite Hx, IH.
Qed.

(** *** The lock is released on every path of the lookup *)

Lemma lookup_releases_lock {Payload : Type} (decode : string -> Outcome Payload)
    (redis : Redis) (qXEdgeKGHashes : string) :
  (lookup Payload decode redis qXEdgeKGHashes).1
  = [Lock ("redisLock:" +:+ qXEdgeKGHashes); Unlock ("redisLock:" +:+ qXEdgeKGHashes)].
Proof.
  unfold lookup. destruct (redis _) as [[sortedRecords |] | e]; reflexivity.
Qed.

(** *** A payload that does not decode *)

Lemma decodeStored_undecodable {Payload : Type} (decode : string -> Outcome Payload)
    (part : string) (e : Error) :
  includes "," part = false ->
  decode part = Throw e ->
  decodeStored Payload decode [part +:+ ","] = Uncaught Payload e.
Proof.
  intros Hpart He. unfold decodeStored. rewrite pipeDecode_cons. unfold _transform.
  change (_buffer Payload (newDelimitedChunks Payload) +:+ ?s) with s.
  rewrite includes_app, orb_true_r.
  rewrite (split_app_sep "," part "") by done.
  cbn [split removelast mapM]. by rewrite He.
Qed.

(** C6, where the code leaves the specification. The lock is released (the two
    events), but a stored payload that does not decode makes [_transform]
    throw from the stream's callback, after and outside the [try] of
    lines 75-98: the promise is never resolved with [null], the edge is
    not returned among the non-cached edges, and the error escapes. *)
Theorem categorizeEdges_decode_failure_escapes {Payload : Type}
    (decode : string -> Outcome Payload) (_generateHash : string -> string)
    (redis : Redis) (metaKG : option MetaKG) (qXEdge : QExeEdge)
    (part : string) (e : Error) :
  includes "," part = false ->
  decode part = Throw e ->
  redis ("bte:edgeCache:" +:+ cacheKey _generateHash metaKG qXEdge)
  = Ok (Some [part +:+ ","]) ->
  categorizeEdges Payload decode _generateHash true redis metaKG [qXEdge]
  = Escaped Payload
      [Lock ("redisLock:" +:+ cacheKey _generateHash metaKG qXEdge);
       Unlock ("redisLock:" +:+ cacheKey _generateHash metaKG qXEdge)] e.
Proof.
  intros Hpart He Hredis. unfold categorizeEdges. cbn [categorize].
  unfold lookup. rewrite Hredis, (decodeStored_undecodable decode part e Hpart He).
  reflexivity.
Qed.

(** The failing input with the codec of the examples: an entry whose one
    payload holds characters outside the alphabet. *)
Lemma categorizeEdges_decode_failure_escapes_witness :
  categorizeEdges nat unary_decode (fun s => s) true (fun _ => Ok (Some ["!!!,"])) None
    [gene_protein ["Gene"; "Protein"]]
  = Escaped nat
      [Lock ("redisLock:" +:+ cacheKey (fun s => s) None (gene_protein ["Gene"; "Protein"]));
       Unlock ("redisLock:" +:+ cacheKey (fun s => s) None (gene_protein ["Gene"; "Protein"]))]
      DecodeError.
Proof.
  apply (categorizeEdges_decode_failure_escapes unary_decode (fun s => s)
           (fun _ => Ok (Some ["!!!,"])) None (gene_protein ["Gene"; "Protein"])
           "!!!" DecodeError); reflexivity.
Defined.


(** *** Reading back what was stored, when every chunk holds a delimiter *)

Lemma string_app_eq_inv (a b c d : string) :
  a +:+ b = c +:+ d ->
  (exists k, a = c +:+ k /\ d = k +:+ b) \/ (exists k, c = a +:+ k /\ b = k +:+ d).
Proof.
  revert c. induction a as [| x a IH]; intros c H.
  - right. exists c. done.
  - destruct c as [| y c].
    + left. exists (String x a). done.
    + change (String x (a +:+ b) = String y (c +:+ d)) in H.
      injection H as -> H. destruct (IH c H) as [(k & -> & ->) | (k & -> & ->)].
      * left. by exists k.
      * right. by exists k.
Qed.

Lemma string_app_eq_nil (a b : string) : a +:+ b = "" -> a = "" /\ b = "".
Proof. destruct a; [done | discriminate]. Qed.

Section RoundTrip.

Context {Payload : Type} (encode : Payload -> string) (decode : string -> Outcome Payload).

(** The codec reads back what it wrote, and the base64url alphabet has no
    comma. *)
Hypothesis decode_encode : forall x, decode (encode x) = Ok x.
Hypothesis encode_no_delimiter : forall x, includes "," (encode x) = false.

Lemma mapM_decode_encode (L : list Payload) : mapM decode (encode <$> L) = Ok L.
Proof.
  induction L as [| x L IH]; [done |].
  rewrite fmap_cons. cbn [mapM]. by rewrite decode_encode, IH.
Qed.

Lemma split_encodeStream (L : list Payload) (r : string) :
  includes "," r = false ->
  split "," (encodeStream Payload encode L +:+ r) = (encode <$> L) ++ [r].
Proof.
  intros Hr. induction L as [| x L IH].
  - by apply split_without_sep.
  - rewrite encodeStream_cons, !string_app_assoc.
    change ("," +:+ ?s) with (String "," s).
    rewrite split_app_sep by done. by rewrite IH.
Qed.

(** A prefix of the stream is some whole records and the beginning of the
    next. *)
Lemma encodeStream_prefix (L : list Payload) (u v : string) :
  u +:+ v = encodeStream Payload encode L ->
  exists L1 L2 r, L = L1 ++ L2 /\ u = encodeStream Payload encode L1 +:+ r /\
    includes "," r = false /\ r +:+ v = encodeStream Payload encode L2.
Proof.
  revert u. induction L as [| x L IH]; intros u H.
  - apply string_app_eq_nil in H as [-> ->]. by exists [], [], "".
  - rewrite encodeStream_cons in H.
    destruct (string_app_eq_inv _ _ _ _ H) as [(k & -> & Hk) | (k & Hx & ->)].
    + destruct k as [| y k].
      * exists [], (x :: L), (encode x). rewrite encodeStream_cons, string_app_nil_r.
        split_and!; [done | done | apply encode_no_delimiter |].
        change ("" +:+ v) with v in Hk. by rewrite <- Hk.
      * change (String "," (encodeStream Payload encode L) = String y (k +:+ v)) in Hk.
        injection Hk as <- Hk. symmetry in Hk.
        destruct (IH k Hk) as (L1 & L2 & r & -> & -> & Hr & Hv).
        exists (x :: L1), L2, r. rewrite encodeStream_cons, !string_app_assoc.
        split_and!; done.
    + exists [], (x :: L), u. rewrite encodeStream_cons, Hx, string_app_assoc.
      split_and!; [done | done | | done].
      pose proof (encode_no_delimiter x) as Hno. rewrite Hx, includes_app in Hno.
      by apply orb_false_iff in Hno as [? _].
Qed.

Lemma pipeDecode_delimited (chunks : list string) (this : DelimitedChunks Payload)
    (L : list Payload) :
  Forall (fun chunk => includes "," chunk = true) chunks ->
  includes "," (_buffer Payload this) = false ->
  _buffer Payload this +:+ String.concat "" chunks = encodeStream Payload encode L ->
  pipeDecode Payload decode chunks this = End_ Payload (pushed Payload this ++ L).
Proof.
  revert this L. induction chunks as [| chunk chunks IH]; intros this L Hall Hbuf Hcat.
  - cbn [String.concat] in Hcat. rewrite string_app_nil_r in Hcat.
    destruct L as [| x L].
    + cbn [pipeDecode]. unfold _flush. unfold encodeStream in Hcat. simpl in Hcat.
      rewrite Hcat. simpl. by rewrite app_nil_r.
    + rewrite Hcat, encodeStream_cons, !includes_app in Hbuf. simpl in Hbuf.
      by rewrite orb_true_r in Hbuf.
  - apply Forall_cons in Hall as [Hchunk Hall].
    assert (String.concat "" (chunk :: chunks) = chunk +:+ String.concat "" chunks) as Hcons.
    { destruct chunks; cbn [String.concat]; [by rewrite string_app_nil_r | done]. }
    rewrite Hcons, <- string_app_assoc in Hcat.
    destruct (encodeStream_prefix L _ _ Hcat) as (L1 & L2 & r & -> & Hu & Hr & Hv).
    rewrite pipeDecode_cons. unfold _transform.
    rewrite includes_app, Hchunk, orb_true_r, Hu, split_encodeStream by done.
    rewrite removelast_last, last_last, mapM_decode_encode.
    rewrite (IH _ L2); [| done | done | done].
    cbn [pushed]. by rewrite app_assoc.
Qed.

(** In the stream of records shorter than a chunk, a delimiter follows
    every position within the length of a chunk. *)
Definition delimiter_within (n : nat) (l : list ascii) : Prop :=
  forall k, k < length l -> exists j, j < n /\ l !! (k + j) = Some ","%char.

Lemma delimiter_within_encodeStream (n : nat) (L : list Payload) :
  Forall (fun x => String.length (encode x) < n) L ->
  delimiter_within n (list_ascii_of_string (encodeStream Payload encode L)).
Proof.
  induction 1 as [| x L Hx _ IH]; intros k Hk; [simpl in Hk; lia |].
  rewrite encodeStream_cons, list_ascii_of_string_app in *.
  change ("," +:+ ?s) with (String "," s) in *. cbn [list_ascii_of_string] in *.
  rewrite length_app in Hk. cbn [length] in Hk.
  rewrite <- length_list_ascii_of_string in Hx.
  set (lx := list_ascii_of_string (encode x)) in *.
  destruct (decide (k <= length lx)) as [Hle | Hgt].
  - exists (length lx - k). split; [lia |].
    replace (k + (length lx - k)) with (length lx) by lia.
    rewrite lookup_app_r by lia. by rewrite Nat.sub_diag.
  - destruct (IH (k - S (length lx))) as (j & Hj & Hlook); [lia |].
    exists j. split; [done |].
    rewrite lookup_app_r by lia.
    replace (k + j - length lx) with (S (k - S (length lx) + j)) by lia. done.
Qed.

Lemma chunks_delimited (fuel n : nat) (l : list ascii) :
  delimiter_within n l ->
  Forall (fun chunk => ","%char ∈ chunk) (chunks fuel n l).
Proof.
  revert l. induction fuel as [| fuel IH]; intros l Hl; [by destruct l |].
  destruct l as [| c l]; [done |]. cbn [chunks]. constructor.
  - destruct (Hl 0) as (j & Hj & Hlook); [simpl; lia |].
    apply elem_of_take. by exists j.
  - apply IH. intros k Hk. rewrite length_drop in Hk.
    destruct (Hl (n + k)) as (j & Hj & Hlook); [lia |].
    exists j. split; [done |]. by rewrite lookup_drop, Nat.add_assoc.
Qed.

Lemma chunks_join (fuel n : nat) (l : list ascii) :
  0 < n -> length l <= fuel -> mjoin (chunks fuel n l) = l.
Proof.
  intros Hn. revert l. induction fuel as [| fuel IH]; intros l Hfuel.
  - destruct l; [done | simpl in Hfuel; lia].
  - destruct l as [| c l]; [done |]. cbn [chunks].
    change (mjoin (?a :: ?b)) with (a ++ mjoin b).
    rewrite IH; [apply take_drop |].
    rewrite length_drop. simpl in *. lia.
Qed.

Lemma concat_string_of_list_ascii (ls : list (list ascii)) :
  String.concat "" (string_of_list_ascii <$> ls) = string_of_list_ascii (mjoin ls).
Proof.
  induction ls as [| l ls IH]; [done |].
  rewrite fmap_cons. change (mjoin (l :: ls)) with (l ++ mjoin ls).
  rewrite string_of_list_ascii_app, <- IH.
  destruct ls; cbn [String.concat fmap list_fmap]; [by rewrite string_app_nil_r | done].
Qed.

(** The part of C3 the code keeps: a list of records each of which encodes
    to less than a chunk is read back as it was written. *)
Theorem decodeStored_stored_small_records (L : list Payload) :
  Forall (fun x => String.length (encode x) < chunkSize) L ->
  decodeStored Payload decode (stored Payload encode L) = End_ Payload L.
Proof.
  intros Hsmall. unfold decodeStored.
  rewrite (pipeDecode_delimited _ _ L); [done | | done |].
  - unfold stored, chunker. apply Forall_fmap.
    eapply Forall_impl; [apply chunks_delimited, delimiter_within_encodeStream, Hsmall |].
    intros chunk Hin. simpl. apply includes_elem_of.
    by rewrite list_ascii_of_string_of_list_ascii.
  - change (_buffer Payload (newDelimitedChunks Payload) +:+ ?s) with s.
    unfold stored, chunker. rewrite concat_string_of_list_ascii, chunks_join.
    + apply string_of_list_ascii_of_string.
    + unfold chunkSize. lia.
    + by rewrite length_list_ascii_of_string.
Qed.

(** The back-reference to the execution edge, dropped by [_copyRecord],
    is set again on the records read for that edge. *)
Lemma categorizeEdges_restores_back_reference (_generateHash : string -> string)
    (redis : Redis) (metaKG : option MetaKG) (qXEdge : QExeEdge)
    (records : list (CachedRecord Payload)) :
  Forall (fun r => String.length (encode (_copyRecord Payload r)) < chunkSize) records ->
  Forall (fun r => trapi_qEdge_obj Payload r = Some qXEdge) records ->
  redis ("bte:edgeCache:" +:+ cacheKey _generateHash metaKG qXEdge)
  = Ok (Some (stored Payload encode (_copyRecord Payload <$> records))) ->
  exists result,
    categorizeEdges Payload decode _generateHash true redis metaKG [qXEdge] = Returned Payload result /\
    cachedRecords Payload result = records /\
    nonCachedQXEdges Payload result = [] /\
    cacheHits Payload result = [getID (qEdge qXEdge)].
Proof.
  intros Hsmall Hback Hredis. unfold categorizeEdges. cbn [categorize].
  unfold lookup. rewrite Hredis, decodeStored_stored_small_records by by apply Forall_fmap.
  eexists. split; [reflexivity |]. cbn [cachedRecords nonCachedQXEdges cacheHits].
  split_and!; [| done | done].
  rewrite app_nil_l, <- list_fmap_compose.
  rewrite <- (list_fmap_id records) at 2. apply Forall_fmap_ext_1.
  eapply Forall_impl; [exact Hback |]. intros [p e] He. simpl in *. by subst e.
Qed.

End RoundTrip.

Lemma unary_decode_encode (x : nat) : unary_decode (unary_encode x) = Ok x.
Proof.
  unfold unary_encode. induction x as [| x IH]; [done |].
  cbn [replicate string_of_list_ascii unary_decode]. by rewrite bool_decide_eq_true_2, IH.
Qed.

Lemma unary_encode_no_delimiter (x : nat) : includes "," (unary_encode x) = false.
Proof. unfold unary_encode. induction x as [| x IH]; [done |]. simpl. exact IH. Qed.

(** The codec of the examples is a codec, and a list of small records is
    read back as written. *)
Lemma decodeStored_stored_small_records_witness :
  decodeStored nat unary_decode (stored nat unary_encode [3; 0; 5]) = End_ nat [3; 0; 5].
Proof.
  apply (decodeStored_stored_small_records unary_encode unary_decode
           unary_decode_encode unary_encode_no_delimiter [3; 0; 5]).
  repeat (apply Forall_cons_2; [apply Nat.ltb_lt; by vm_compute |]).
  apply Forall_nil_2.
Defined.

(** *** The cache key *)

(** C4, as the code has it. The key is a function of the two category
    lists, the predicate, the input curies (each as the code lists them,
    in order), the number of MetaKG operations and the concatenation of
    the distinct API identifiers in order of first occurrence (or of the
    absence of a MetaKG): two edges that agree on these get the same key,
    whatever else differs. The lists enter as they are, joined with ",";
    no order is made canonical. *)
Theorem cacheKey_depends_only_on (_generateHash : string -> string)
    (metaKG1 metaKG2 : option MetaKG) (e1 e2 : QExeEdge) :
  getCategories (subject e1) = getCategories (subject e2) ->
  predicate e1 = predicate e2 ->
  getCategories (object e1) = getCategories (object e2) ->
  getInputCurie e1 = getInputCurie e2 ->
  (fun kg => length (ops kg)) <$> metaKG1 = (fun kg => length (ops kg)) <$> metaKG2 ->
  allIDs <$> metaKG1 = allIDs <$> metaKG2 ->
  cacheKey _generateHash metaKG1 e1 = cacheKey _generateHash metaKG2 e2.
Proof.
  intros Hs Hp Ho Hc Hlen Hids.
  unfold cacheKey, getHashedEdgeRepresentation, toBeHashed.
  rewrite Hs, Hp, Ho, Hc.
  destruct metaKG1 as [kg1 |], metaKG2 as [kg2 |]; simpl in *; try done.
  injection Hlen as Hlen. injection Hids as Hids.
  unfold len. by rewrite Hlen, Hids.
Qed.

(** Two edges that differ in direction flag, predecessor and QEdge, and
    two MetaKGs that list the same APIs with different multiplicity. *)
Lemma cacheKey_depends_only_on_witness :
  let e1 := gene_protein ["Gene"; "Protein"] in
  let e2 := {| qEdge := {| getID := "e07"; qEdge_subject := qEdge_subject (qEdge e1);
                           qEdge_object := qEdge_object (qEdge e1);
                           qEdge_predicate := Undefined |};
               reverse := true; prev_edge := Some "e01";
               input_equivalent_identifiers := [("NCBIGene:3778", ["HGNC:6284"])];
               output_equivalent_identifiers := [];
               subject := subject e1; predicate := predicate e1; object := object e1 |} in
  let kg1 := Some {| ops := [Build_Op "a"; Build_Op "b"; Build_Op "a"] |} in
  let kg2 := Some {| ops := [Build_Op "a"; Build_Op "b"; Build_Op "b"] |} in
  e1 <> e2 /\ kg1 <> kg2 /\
  cacheKey (fun s => s) kg1 e1 = cacheKey (fun s => s) kg2 e2.
Proof.
  intros e1 e2 kg1 kg2. split_and!; [done | done |].
  apply (cacheKey_depends_only_on (fun s => s) kg1 kg2 e1 e2); reflexivity.
Defined.

Lemma string_app_inv_tail (a b r : string) : a +:+ r = b +:+ r -> a = b.
Proof.
  intros H. apply (f_equal list_ascii_of_string) in H.
  rewrite !list_ascii_of_string_app in H. apply app_inv_tail in H.
  apply (f_equal string_of_list_ascii) in H.
  by rewrite !string_of_list_ascii_of_string in H.
Qed.

(** C4, as the specification states it, fails: the categories are hashed in the
    order [getCategories()] gives them. For the same edge with categories
    Gene, Protein and Protein, Gene the strings that are hashed differ,
    so the keys are equal only where [_generateHash] collides; with a hash
    that does not (here, the identity) the keys differ. *)
Lemma cacheKey_changes_with_category_order :
  let e1 := gene_protein ["Gene"; "Protein"] in
  let e2 := gene_protein ["Protein"; "Gene"] in
  getCategories (subject e1) ≡ₚ getCategories (subject e2) /\
  getCategories (object e1) = getCategories (object e2) /\
  predicate e1 = predicate e2 /\
  getInputCurie e1 = getInputCurie e2 /\
  toBeHashed e1 <> toBeHashed e2 /\
  (forall _generateHash metaKG,
     cacheKey _generateHash metaKG e1 = cacheKey _generateHash metaKG e2 ->
     exists s1 s2, s1 <> s2 /\ _generateHash s1 = _generateHash s2) /\
  (forall metaKG, cacheKey (fun s => s) metaKG e1 <> cacheKey (fun s => s) metaKG e2) /\
  ~ (forall (_generateHash : string -> string) (metaKG : option MetaKG) (e1 e2 : QExeEdge),
       getCategories (subject e1) ≡ₚ getCategories (subject e2) ->
       getCategories (object e1) ≡ₚ getCategories (object e2) ->
       predicate e1 = predicate e2 ->
       getInputCurie e1 = getInputCurie e2 ->
       cacheKey _generateHash metaKG e1 = cacheKey _generateHash metaKG e2).
Proof.
  intros e1 e2.
  assert (toBeHashed e1 <> toBeHashed e2) as Hne by (by vm_compute).
  assert (forall _generateHash metaKG,
     cacheKey _generateHash metaKG e1 = cacheKey _generateHash metaKG e2 ->
     exists s1 s2, s1 <> s2 /\ _generateHash s1 = _generateHash s2) as Hcollide.
  { intros h [kg |] Hkey; unfold cacheKey, _hashEdgeByKG, getHashedEdgeRepresentation in Hkey.
    - destruct (decide (h (toBeHashed e1) = h (toBeHashed e2))) as [Heq | Hneq].
      + by exists (toBeHashed e1), (toBeHashed e2).
      + eexists _, _. split; [| exact Hkey].
        intros Happ. by apply string_app_inv_tail in Happ.
    - by exists (toBeHashed e1), (toBeHashed e2). }
  assert (forall metaKG, cacheKey (fun s => s) metaKG e1 <> cacheKey (fun s => s) metaKG e2)
    as Hid.
  { intros metaKG Hkey. destruct (Hcollide _ _ Hkey) as (s1 & s2 & Hs & Heq). done. }
  split_and!; try done.
  - apply Permutation_swap.
  - intros Hall. apply (Hid None), Hall; [apply Permutation_swap | done..].
Qed.

(** ** The order of the stored chunks *)

Lemma digit_pretty_N_char (d : N) :
  (d < 10)%N -> digit (pretty_N_char d) = Some (Z.of_N d).
Proof.
  intros Hd.
  assert (d = 0 \/ d = 1 \/ d = 2 \/ d = 3 \/ d = 4 \/ d = 5 \/ d = 6 \/ d = 7 \/ d = 8 \/ d = 9)%N
    as Hcases by lia.
  repeat (destruct Hcases as [-> | Hcases]; [reflexivity |]). by subst.
Qed.

Lemma decimal_from_pretty_N_go (x : N) :
  exists m, forall acc s,
    decimal_from acc (pretty_N_go x s) = decimal_from (acc * m + Z.of_N x) s.
Proof.
  induction (N.lt_wf_0 x) as [x _ IH].
  destruct (decide (x = 0)%N) as [-> | Hx].
  - exists 1%Z. intros acc s. rewrite pretty_N_go_0. f_equal. lia.
  - destruct (IH (x `div` 10)%N) as [m Hm]; [apply N.div_lt; lia |].
    exists (10 * m)%Z. intros acc s. rewrite pretty_N_go_step by lia.
    rewrite Hm. cbn [decimal_from].
    rewrite digit_pretty_N_char by (apply N.mod_lt; lia). f_equal.
    pose proof (N.div_mod x 10 ltac:(lia)) as Hdm. lia.
Qed.

Lemma pretty_N_go_String (x : N) (c : ascii) (s : string) :
  exists c' s', pretty_N_go x (String c s) = String c' s'.
Proof.
  revert c s. induction (N.lt_wf_0 x) as [x _ IH]; intros c s.
  destruct (decide (x = 0)%N) as [-> | Hx].
  - rewrite pretty_N_go_0. by eexists _, _.
  - rewrite pretty_N_go_step by lia. apply IH. apply N.div_lt; lia.
Qed.

(** [decimal] reads back the numerals [String(i)] writes. *)
Lemma decimal_pretty (i : nat) : decimal (pretty i) = Some (Z.of_nat i).
Proof.
  unfold pretty, pretty_nat, pretty, pretty_N.
  destruct (decide (N.of_nat i = 0)%N) as [Hi | Hi].
  - assert (i = 0) as -> by lia. reflexivity.
  - rewrite pretty_N_go_step by lia.
    destruct (pretty_N_go_String (N.of_nat i `div` 10)
                (pretty_N_char (N.of_nat i `mod` 10)) "") as (c' & s' & Hs).
    unfold decimal. rewrite Hs, <- Hs.
    destruct (decimal_from_pretty_N_go (N.of_nat i `div` 10)) as [m Hm].
    rewrite Hm. cbn [decimal_from].
    rewrite digit_pretty_N_char by (apply N.mod_lt; lia). f_equal.
    pose proof (N.div_mod (N.of_nat i) 10 ltac:(lia)) as Hdm. lia.
Qed.

Section Order.

Variable parseInt : string -> option Z.

(** [parseInt] reads back the numerals [String(i)] writes. *)
Hypothesis parseInt_pretty : forall i : nat, parseInt (pretty i) = Some (Z.of_nat i).

#[local] Instance fieldsInOrder_total : Total (fieldsInOrder parseInt).
Proof.
  intros entry1 entry2. unfold fieldsInOrder.
  destruct (parseInt entry1.1), (parseInt entry2.1); try (by left). lia.
Qed.

(** The number of a field: the entry [i] of a stored record has number [i]. *)
Definition fieldNumber (entry : string * string) : nat :=
  Z.to_nat (default 0%Z (parseInt entry.1)).

Lemma fieldNumber_imap (chunks : list string) (i : nat) (entry : string * string) :
  imap (fun i chunk => (pretty i, chunk)) chunks !! i = Some entry -> fieldNumber entry = i.
Proof.
  rewrite list_lookup_imap. destruct (chunks !! i) as [chunk |]; [| done].
  simpl. intros [= <-]. unfold fieldNumber. simpl. rewrite parseInt_pretty. simpl. lia.
Qed.

Lemma fieldNumbers_imap (chunks : list string) :
  fieldNumber <$> imap (fun i chunk => (pretty i, chunk)) chunks = seq 0 (length chunks).
Proof.
  apply list_eq. intros i. rewrite list_lookup_fmap.
  destruct (decide (i < length chunks)) as [Hi | Hi].
  - rewrite lookup_seq_lt by done.
    destruct (lookup_lt_is_Some_2 (imap (fun i chunk => (pretty i, chunk)) chunks) i) as [entry He].
    { by rewrite length_imap. }
    rewrite He. simpl. f_equal. by eapply fieldNumber_imap.
  - rewrite lookup_seq_ge by lia. rewrite lookup_ge_None_2; [done |]. rewrite length_imap. lia.
Qed.

Lemma Sorted_fieldNumbers (entries : Obj string) :
  Forall (fun entry => exists i : nat, parseInt entry.1 = Some (Z.of_nat i)) entries ->
  Sorted (fieldsInOrder parseInt) entries -> Sorted le (fieldNumber <$> entries).
Proof.
  intros Hall Hsorted. induction Hsorted as [| entry entries Hs IH Hhd]; [constructor |].
  apply Forall_cons in Hall as [[i Hi] Hall]. simpl. constructor; [by apply IH |].
  destruct Hhd as [| entry' entries' Hord]; [constructor |].
  apply Forall_cons in Hall as [[j Hj] _]. simpl. constructor.
  unfold fieldNumber, fieldsInOrder in *. rewrite Hi, Hj in *. simpl. lia.
Qed.

Lemma Sorted_seq (a n : nat) : Sorted le (seq a n).
Proof.
  revert a. induction n as [| n IH]; intros a; simpl; [constructor |].
  constructor; [apply IH |]. destruct n; simpl; constructor. lia.
Qed.

(** Sorting puts the fields of a stored record back in the order of their
    numbers, whatever order they come in. *)
Lemma merge_sort_fields (chunks : list string) (cachedRecord : Obj string) :
  cachedRecord ≡ₚ imap (fun i chunk => (pretty i, chunk)) chunks ->
  merge_sort (fieldsInOrder parseInt) cachedRecord
  = imap (fun i chunk => (pretty i, chunk)) chunks.
Proof.
  intros Hperm.
  set (T := imap (fun i chunk => (pretty i, chunk)) chunks) in *.
  set (L := merge_sort (fieldsInOrder parseInt) cachedRecord).
  assert (L ≡ₚ T) as HLT by (unfold L; by rewrite merge_sort_Permutation).
  assert (Forall (fun entry => exists i : nat, parseInt entry.1 = Some (Z.of_nat i)) T) as HT.
  { apply Forall_forall. intros entry Hin. apply list_elem_of_lookup in Hin as [i Hi].
    unfold T in Hi. rewrite list_lookup_imap in Hi.
    destruct (chunks !! i); [| done]. injection Hi as <-. exists i. apply parseInt_pretty. }
  assert (fieldNumber <$> L = fieldNumber <$> T) as Hnum.
  { replace (fieldNumber <$> T) with (seq 0 (length chunks))
      by (symmetry; apply fieldNumbers_imap).
    apply (Sorted_unique le); [| apply Sorted_seq |].
    - apply Sorted_fieldNumbers; [rewrite HLT; exact HT |].
      apply (Sorted_merge_sort (fieldsInOrder parseInt)).
    - rewrite HLT. unfold T. by rewrite fieldNumbers_imap. }
  apply list_eq. intros i.
  assert ((fieldNumber <$> L) !! i = (fieldNumber <$> T) !! i) as Hi by (by rewrite Hnum).
  rewrite !list_lookup_fmap in Hi.
  destruct (L !! i) as [x |] eqn:Hx, (T !! i) as [y |] eqn:Hy; try done.
  f_equal. injection Hi as Hxy.
  assert (x ∈ T) as Hin by (rewrite <- HLT; by eapply list_elem_of_lookup_2).
  apply list_elem_of_lookup in Hin as [j Hj].
  pose proof (fieldNumber_imap chunks j x Hj) as Hjx.
  pose proof (fieldNumber_imap chunks i y Hy) as Hiy.
  assert (j = i) as -> by congruence. congruence.
Qed.

Lemma imap_fields_values (chunks : list string) :
  (imap (fun i chunk => (pretty i, chunk)) chunks).*2 = chunks.
Proof.
  apply list_eq. intros i. rewrite list_lookup_fmap, list_lookup_imap.
  by destruct (chunks !! i).
Qed.

(** X22. Lines 79-83 restore the order in which the chunks were written,
    whatever order Redis returns the fields in. *)
Theorem sortedRecords_restores_chunk_order (chunks : list string) (cachedRecord : Obj string) :
  cachedRecord ≡ₚ imap (fun i chunk => (pretty i, chunk)) chunks ->
  sortedRecords parseInt cachedRecord = chunks.
Proof.
  intros Hperm. unfold sortedRecords. rewrite (merge_sort_fields chunks) by done.
  apply imap_fields_values.
Qed.

End Order.

Lemma sortedRecords_restores_chunk_order_witness :
  sortedRecords decimal [("10", "k"); ("0", "a"); ("1", "b"); ("2", "c"); ("3", "d");
                         ("4", "e"); ("5", "f"); ("6", "g"); ("7", "h"); ("8", "i");
                         ("9", "j")]
  = ["a"; "b"; "c"; "d"; "e"; "f"; "g"; "h"; "i"; "j"; "k"].
Proof.
  apply (sortedRecords_restores_chunk_order decimal decimal_pretty
           ["a"; "b"; "c"; "d"; "e"; "f"; "g"; "h"; "i"; "j"; "k"]).
  change (imap (fun i chunk => (pretty i, chunk))
               ["a"; "b"; "c"; "d"; "e"; "f"; "g"; "h"; "i"; "j"; "k"])
    with ([("0", "a"); ("1", "b"); ("2", "c"); ("3", "d"); ("4", "e"); ("5", "f");
           ("6", "g"); ("7", "h"); ("8", "i"); ("9", "j")] ++ [("10", "k")]).
  apply Permutation_cons_append.
Defined.

(** ** Grouping the records to cache *)

Lemma obj_set_NoDup_keys {V : Type} (k : string) (v : V) (o : Obj V) :
  NoDup o.*1 -> NoDup (obj_set k v o).*1.
Proof.
  intros Hnd. rewrite obj_set_keys. destruct (decide (k ∈ o.*1)) as [| Hk]; [done |].
  apply NoDup_app. split_and!; [done | | apply NoDup_singleton].
  intros x Hx ->%list_elem_of_singleton. done.
Qed.

Section CacheGrouping.

Context {Payload : Type} (_generateHash : string -> string) (metaKG : option MetaKG).

Local Abbreviation keyOf := (CacheHandler.keyOf Payload _generateHash metaKG).

Local Abbreviation step :=
  (fun (groupedRecords : Obj (list Payload)) (record : CachedRecord Payload) =>
     match trapi_qEdge_obj Payload record with
     | Some qXEdge =>
         let qXEdgeKGHash := cacheKey _generateHash metaKG qXEdge in
         let groupedRecords :=
           if obj_has qXEdgeKGHash groupedRecords then groupedRecords
           else obj_set qXEdgeKGHash [] groupedRecords in
         obj_set qXEdgeKGHash
           (default [] (obj_get qXEdgeKGHash groupedRecords) ++ [_copyRecord Payload record])
           groupedRecords
     | None => groupedRecords
     end).

Lemma group_step_NoDup (o : Obj (list Payload)) (record : CachedRecord Payload) :
  NoDup o.*1 -> NoDup (step o record).*1.
Proof.
  intros Hnd. cbn beta. destruct (trapi_qEdge_obj Payload record) as [qXEdge |]; [| done].
  apply obj_set_NoDup_keys. destruct (obj_has _ _); [done | by apply obj_set_NoDup_keys].
Qed.

Lemma group_step_obj_get (o : Obj (list Payload)) (record : CachedRecord Payload) (k : string) :
  obj_get k (step o record)
  = if decide (keyOf record = Some k)
    then Some (default [] (obj_get k o) ++ [_copyRecord Payload record])
    else obj_get k o.
Proof.
  unfold CacheHandler.keyOf. cbn beta. destruct (trapi_qEdge_obj Payload record) as [qXEdge |]; simpl.
  - rewrite obj_get_obj_set.
    destruct (decide (cacheKey _generateHash metaKG qXEdge = k)) as [<- | Hk].
    + rewrite decide_True by done. f_equal. f_equal.
      unfold obj_has. case_bool_decide as Hin; [done |].
      rewrite obj_get_obj_set, decide_True by done.
      apply obj_get_None in Hin. by rewrite Hin.
    + rewrite decide_False by congruence.
      unfold obj_has. case_bool_decide; [done |].
      rewrite obj_get_obj_set. by rewrite decide_False.
  - done.
Qed.

Lemma group_fold_NoDup (l : list (CachedRecord Payload)) (o : Obj (list Payload)) :
  NoDup o.*1 -> NoDup (fold_left step l o).*1.
Proof.
  revert o. induction l as [| record l IH]; intros o Hnd; [done |].
  cbn [fold_left]. apply IH. by apply group_step_NoDup.
Qed.

Lemma group_fold_obj_get (l : list (CachedRecord Payload)) (o : Obj (list Payload))
    (k : string) :
  obj_get k (fold_left step l o)
  = match _copyRecord Payload <$> filter (fun record => keyOf record = Some k) l with
    | [] => obj_get k o
    | records => Some (default [] (obj_get k o) ++ records)
    end.
Proof.
  revert o. induction l as [| record l IH]; intros o; [done |].
  cbn [fold_left]. rewrite IH, group_step_obj_get, filter_cons.
  destruct (decide (keyOf record = Some k)) as [Hk | Hk].
  - rewrite fmap_cons. simpl.
    destruct (_copyRecord Payload <$> filter _ l) as [| x xs]; [done |].
    by rewrite <- app_assoc.
  - done.
Qed.

(** The groups, by key. *)
Lemma groups_by_key (queryRecords : list (CachedRecord Payload)) :
  NoDup (_groupQueryRecordsByQXEdgeHash Payload _generateHash metaKG queryRecords).*1 /\
  forall hash records,
    (hash, records) ∈ _groupQueryRecordsByQXEdgeHash Payload _generateHash metaKG queryRecords <->
    records <> [] /\
    records = _copyRecord Payload
                <$> filter (fun record => keyOf record = Some hash) queryRecords.
Proof.
  assert (NoDup (_groupQueryRecordsByQXEdgeHash Payload _generateHash metaKG queryRecords).*1)
    as Hnd by (apply group_fold_NoDup; constructor).
  split; [done |]. intros hash records.
  rewrite <- (obj_get_Some _ _ _ Hnd). unfold _groupQueryRecordsByQXEdgeHash.
  rewrite group_fold_obj_get. simpl.
  destruct (_copyRecord Payload <$> filter _ queryRecords) as [| x xs].
  - split; [done | by intros [? ->]].
  - split; [by intros [= <-] | by intros [_ ->]].
Qed.


End CacheGrouping.

(** ** Writing the cache and reading it back *)

Lemma string_app_inv_head (a b c : string) : a +:+ b = a +:+ c -> b = c.
Proof.
  induction a as [| x a IH]; [done |].
  change (String x (a +:+ b) = String x (a +:+ c) -> b = c). intros [= H]. by apply IH.
Qed.

Lemma obj_set_fresh {V : Type} (k : string) (v : V) (o : Obj V) :
  k ∉ o.*1 -> obj_set k v o = o ++ [(k, v)].
Proof.
  induction o as [| [k0 v0] o IH]; simpl; [done |].
  intros Hk. apply not_elem_of_cons in Hk as [Hk0 Hk].
  rewrite bool_decide_eq_false_2 by done. by rewrite IH.
Qed.

Lemma obj_get_filter_other {V : Type} (key id : string) (s : Obj V) :
  obj_get id (List.filter (fun entry => negb (bool_decide (entry.1 = key))) s)
  = if decide (id = key) then None else obj_get id s.
Proof.
  induction s as [| [k v] s IH]; simpl.
  - by destruct (decide _).
  - case_bool_decide as Hk; simpl.
    + subst k. rewrite IH. destruct (decide (id = key)) as [-> | Hid]; [done |].
      by rewrite bool_decide_eq_false_2 by done.
    + case_bool_decide as Hk'; [| exact IH].
      subst k. by rewrite decide_False by done.
Qed.

(** The chunks written under one key, in the store of the examples. *)
Lemma writeChunks_memory (redisID : string) (chunks : list string) (i : nat) (s : Store) :
  (default [] (obj_get redisID s)).*1 = pretty <$> seq 0 i ->
  exists s',
    writeChunks redisID i chunks s = (s', []) /\
    default [] (obj_get redisID s')
    = default [] (obj_get redisID s) ++ imap (fun j chunk => (pretty (i + j), chunk)) chunks /\
    (chunks <> [] -> is_Some (obj_get redisID s')) /\
    forall id, id <> redisID -> obj_get id s' = obj_get id s.
Proof.
  revert i s. induction chunks as [| chunk chunks IH]; intros i s Hfields.
  - exists s. split_and!; [done | by rewrite app_nil_r | done | done].
  - cbn [writeChunks hsetAsync memory].
    rewrite (obj_set_fresh (pretty i) chunk).
    2:{ intros Hin. eapply (eq_ind _ (fun l => pretty i ∈ l)) in Hin; [| exact Hfields].
        apply list_elem_of_fmap in Hin as (j & Hj%(inj pretty) & Hin). subst j.
        apply elem_of_seq in Hin. lia. }
    match goal with |- context [writeChunks _ _ _ ?s] => set (s1 := s) end.
    assert (obj_get redisID s1
            = Some (default [] (obj_get redisID s) ++ [(pretty i, chunk)])) as Hs1.
    { unfold s1. by rewrite obj_get_obj_set, decide_True. }
    destruct (IH (S i) s1) as (s' & Hwrite & Hget & _ & Hother).
    { rewrite Hs1. cbn [default from_option id]. rewrite fmap_app, Hfields.
      rewrite seq_S, fmap_app. done. }
    exists s'. rewrite Hwrite. split_and!; [done | | | ].
    + rewrite Hget, Hs1. cbn [default from_option id imap]. rewrite <- app_assoc.
      cbn [app]. rewrite Nat.add_0_r. do 2 f_equal.
      apply imap_ext. intros j c _. cbn. f_equal. f_equal. lia.
    + intros _. destruct (obj_get redisID s') as [fs |] eqn:Hs'; [done |].
      simpl in Hget. rewrite Hs1 in Hget. simpl in Hget.
      by destruct (default [] (obj_get redisID s)).
    + intros id Hid. rewrite Hother by done. unfold s1.
      rewrite obj_get_obj_set. by rewrite decide_False.
Qed.

Section RoundTrip2.

Context {Payload : Type} (encode : Payload -> string) (decode : string -> Outcome Payload).
Context (_generateHash : string -> string) (parseInt : string -> option Z).

Hypothesis decode_encode : forall x, decode (encode x) = Ok x.
Hypothesis encode_no_delimiter : forall x, includes "," (encode x) = false.
Hypothesis parseInt_pretty : forall i : nat, parseInt (pretty i) = Some (Z.of_nat i).

Lemma stored_not_empty (x : Payload) (L : list Payload) :
  stored Payload encode (x :: L) <> [].
Proof.
  unfold stored, chunker. rewrite encodeStream_cons.
  destruct (encode x +:+ "," +:+ encodeStream Payload encode L) as [| c s] eqn:Hs.
  - apply string_app_eq_nil in Hs as [_ Hs]. by apply string_app_eq_nil in Hs as [? _].
  - cbn [String.length list_ascii_of_string chunks]. rewrite fmap_cons. discriminate.
Qed.

(** The entry of one key after [cacheEdge], in the store of the examples. *)
Lemma cacheEdge_memory (env : Env) (hash : string) (x : Payload) (L : list Payload)
    (r : CacheRun (Db := Store)) :
  hgetallAsync ("bte:edgeCache:" +:+ hash)
    (store (cacheEdge Payload encode env hash (x :: L) r))
  = Ok (Some (imap (fun i chunk => (pretty i, chunk)) (stored Payload encode (x :: L)))) /\
  forall id, id <> "bte:edgeCache:" +:+ hash ->
    obj_get id (store (cacheEdge Payload encode env hash (x :: L) r)) = obj_get id (store r).
Proof.
  unfold cacheEdge. cbn [delAsync memory].
  set (redisID := "bte:edgeCache:" +:+ hash).
  match goal with |- context [writeChunks _ _ _ ?s] => set (s0 := s) end.
  assert (obj_get redisID s0 = None) as Hs0.
  { unfold s0. rewrite obj_get_filter_other. by rewrite decide_True. }
  destruct (writeChunks_memory redisID (stored Payload encode (x :: L)) 0 s0)
    as (s' & Hwrite & Hget & Hsome & Hother).
  { exact (f_equal (fun o => (default [] o).*1) Hs0). }
  rewrite Hwrite. cbn [expireAsync memory store]. split.
  - cbn [hgetallAsync memory]. destruct (Hsome (stored_not_empty x L)) as [fields Hfields].
    rewrite Hfields in *. rewrite Hs0 in Hget. simpl in Hget. subst fields.
    pose proof (stored_not_empty x L) as Hne.
    destruct (stored Payload encode (x :: L)); done.
  - intros id Hid. rewrite Hother by done. unfold s0. rewrite obj_get_filter_other.
    by rewrite decide_False.
Qed.

Lemma cacheEdge_fold_memory (env : Env) (groups : Obj (list Payload))
    (r : CacheRun (Db := Store)) (hash : string) (x : Payload) (L : list Payload) :
  NoDup groups.*1 ->
  (hash, x :: L) ∈ groups ->
  Forall (fun g => g.2 <> []) groups ->
  hgetallAsync ("bte:edgeCache:" +:+ hash)
    (store (fold_left (fun r '(hash, records) => cacheEdge Payload encode env hash records r)
                      groups r))
  = Ok (Some (imap (fun i chunk => (pretty i, chunk)) (stored Payload encode (x :: L)))).
Proof.
  revert r. induction groups as [| [k g] groups IH]; intros r Hnd Hin Hne.
  - by apply elem_of_nil in Hin.
  - cbn [fold_left]. apply NoDup_cons in Hnd as [Hk Hnd].
    apply Forall_cons in Hne as [Hg Hne].
    apply elem_of_cons in Hin as [[= <- <-] | Hin]; [| by apply IH].
    clear IH. revert r.
    assert (forall r : CacheRun (Db := Store),
      hgetallAsync ("bte:edgeCache:" +:+ hash)
        (store (fold_left (fun r '(hash, records) => cacheEdge Payload encode env hash records r)
                          groups r))
      = hgetallAsync ("bte:edgeCache:" +:+ hash) (store r)) as Hkeep.
    { clear Hg. induction groups as [| [k' g'] groups IH]; intros r; [done |].
      cbn [fold_left]. apply NoDup_cons in Hnd as [_ Hnd].
      apply Forall_cons in Hne as [Hg' Hne].
      rewrite IH; [| | done | done].
      - destruct g' as [| y g']; [done |].
        cbn [hgetallAsync memory]. f_equal.
        destruct (cacheEdge_memory env k' y g' r) as [_ Hother].
        rewrite Hother; [done |].
        intros Heq%string_app_inv_head. subst k'. apply Hk. simpl. by left.
      - intros Hin. apply Hk. simpl. by right. }
    intros r. rewrite Hkeep. apply cacheEdge_memory.
Qed.

(** In the store of the examples no command is rejected. *)
Lemma writeChunks_memory_clean (redisID : string) (chunks : list string) (i : nat) (s : Store) :
  (writeChunks redisID i chunks s).2 = [].
Proof.
  revert i s. induction chunks as [| chunk chunks IH]; intros i s; [done |].
  cbn [writeChunks hsetAsync memory]. apply IH.
Qed.

Lemma cacheEdge_memory_clean (env : Env) (hash : string) (records : list Payload)
    (r : CacheRun (Db := Store)) :
  unhandledRejections (cacheEdge Payload encode env hash records r) = unhandledRejections r.
Proof.
  unfold cacheEdge.
  destruct (delAsync _ (store r)) as [s0 | e] eqn:Hdel; [| done].
  pose proof (writeChunks_memory_clean ("bte:edgeCache:" +:+ hash)
                (stored Payload encode records) 0 s0) as Hclean.
  destruct (writeChunks _ 0 (stored Payload encode records) s0) as [s' rejections].
  cbn [snd] in Hclean. subst rejections. done.
Qed.

Lemma store_cacheEdges_memory (parentPort : bool) (env : Env) (metaKG : option MetaKG)
    (queryRecords : list (CachedRecord Payload)) (s : Store) :
  store (cacheEdges Payload encode _generateHash true parentPort env metaKG queryRecords s)
  = store (fold_left (fun r '(hash, records) => cacheEdge Payload encode env hash records r)
             (_groupQueryRecordsByQXEdgeHash Payload _generateHash metaKG queryRecords)
             {| store := s; locks := [];
                messages := if parentPort then [CacheInProgress] else [];
                console := []; unhandledRejections := [] |}).
Proof.
  unfold cacheEdges.
  match goal with |- context [fold_left ?f ?groups ?r0] =>
    assert (forall r : CacheRun (Db := Store), unhandledRejections r = [] ->
      fold_left f groups r
      = fold_left (fun r '(hash, records) => cacheEdge Payload encode env hash records r)
                  groups r /\
      unhandledRejections (fold_left f groups r) = []) as Hfold
  end.
  { induction (_groupQueryRecordsByQXEdgeHash Payload _generateHash metaKG queryRecords)
      as [| [hash records] groups IH]; intros r Hr; [done |].
    cbn [fold_left]. rewrite Hr. apply IH. by rewrite cacheEdge_memory_clean. }
  match goal with |- context [fold_left ?f ?groups ?r0] =>
    destruct (Hfold r0 eq_refl) as [Heq Hclean]
  end.
  rewrite Hclean, Heq. done.
Qed.


End RoundTrip2.


(** ** Locks and messages *)

Section Locks.

Context {Payload : Type} (encode : Payload -> string) (decode : string -> Outcome Payload).
Context (_generateHash : string -> string).
Context {Db : Type} `{!RedisClient Db}.

Lemma cacheEdge_locks (env : Env) (hash : string) (records : list Payload) (r : CacheRun) :
  unhandledRejections (cacheEdge Payload encode env hash records r) = [] ->
  locks (cacheEdge Payload encode env hash records r) = locks r ++ lockedAndReleased hash /\
  messages (cacheEdge Payload encode env hash records r) = messages r.
Proof.
  unfold cacheEdge, lockedAndReleased. destruct (delAsync _ _) as [s1 |]; simpl.
  - destruct (writeChunks _ _ _ _) as [s2 [| rejection rejections]].
    + intros _. destruct (expireAsync _ _ _); simpl; by rewrite <- app_assoc.
    + simpl. intros Hnone. by destruct (unhandledRejections r).
  - intros _. by rewrite <- app_assoc.
Qed.

Lemma cacheEdges_fold_locks (env : Env) (groups : Obj (list Payload)) (r : CacheRun) :
  let run :=
    fold_left (fun r '(hash, records) =>
                 match unhandledRejections r with
                 | [] => cacheEdge Payload encode env hash records r
                 | _ :: _ => r
                 end) groups r in
  unhandledRejections run = [] ->
  locks run = locks r ++ (groups.*1 ≫= lockedAndReleased) /\ messages run = messages r.
Proof.
  revert r. induction groups as [| [hash records] groups IH]; intros r run Hclean.
  - simpl. by rewrite app_nil_r.
  - subst run. cbn [fold_left] in *.
    destruct (unhandledRejections r) as [| e es] eqn:Hr.
    + destruct (IH _ Hclean) as [-> ->].
      assert (unhandledRejections (cacheEdge Payload encode env hash records r) = [])
        as Hstep.
      { destruct (unhandledRejections (cacheEdge Payload encode env hash records r))
          as [| e es] eqn:Hstep; [done |]. exfalso. revert Hclean.
        generalize (cacheEdge Payload encode env hash records r) Hstep. clear.
        induction groups as [| [hash records] groups IH]; intros r1 Hr1; simpl.
        - by rewrite Hr1.
        - rewrite Hr1. by apply IH. }
      destruct (cacheEdge_locks env hash records r Hstep) as [-> ->].
      split; [| done]. rewrite <- app_assoc. done.
    + exfalso. revert Hclean. generalize r Hr. clear.
      induction groups as [| [hash records] groups IH]; intros r1 Hr1; simpl.
      * by rewrite Hr1.
      * rewrite Hr1. by apply IH.
Qed.

(** X23. When no [hsetAsync] is rejected, [cacheEdges] keeps no lock it was
    granted, whatever becomes of [delAsync] and [expireAsync]: for every
    key it writes, in the order of the groups, it takes the lock of the
    key and releases it before it goes on, also when one of the two is
    rejected; with caching disabled it takes none. In a worker thread it
    posts that caching is in progress and, last, that it is done. *)
Theorem cacheEdges_releases_every_lock (cacheEnabled parentPort : bool) (env : Env)
    (metaKG : option MetaKG) (queryRecords : list (CachedRecord Payload)) (s : Db) :
  unhandledRejections (cacheEdges Payload encode _generateHash cacheEnabled parentPort env
                                  metaKG queryRecords s) = [] ->
  locks (cacheEdges Payload encode _generateHash cacheEnabled parentPort env metaKG
                    queryRecords s)
  = (if cacheEnabled
     then (_groupQueryRecordsByQXEdgeHash Payload _generateHash metaKG queryRecords).*1
            ≫= lockedAndReleased
     else []) /\
  messages (cacheEdges Payload encode _generateHash cacheEnabled parentPort env metaKG
                       queryRecords s)
  = (if parentPort
     then if cacheEnabled then [CacheInProgress; CacheDone] else [CacheDoneDisabled]
     else []).
Proof.
  unfold cacheEdges. destruct cacheEnabled; [| by destruct parentPort].
  match goal with |- context [fold_left ?f ?g ?r0] =>
    pose proof (cacheEdges_fold_locks env g r0) as Hfold; cbv zeta in Hfold;
    destruct (unhandledRejections (fold_left f g r0)) as [| e es] eqn:Hrun
  end.
  - intros _. destruct (Hfold eq_refl) as [Hlocks Hmessages].
    cbn [locks messages]. rewrite Hlocks, Hmessages. by destruct parentPort.
  - intros Hclean. congruence.
Qed.

(** The locks of the lookups of [n] edges, one after the other. *)
Lemma categorize_locks (redis : Redis) (metaKG : option MetaKG) (qXEdges : list QExeEdge)
    (acc : Categorized Payload) :
  match categorize Payload decode _generateHash redis metaKG qXEdges acc with
  | Returned _ result =>
      lockEvents Payload result
      = lockEvents Payload acc
        ++ ((cacheKey _generateHash metaKG <$> qXEdges) ≫= lockedAndReleased)
  | Hangs _ events | Escaped _ events _ =>
      exists n,
        events = lockEvents Payload acc
                 ++ ((cacheKey _generateHash metaKG <$> take n qXEdges) ≫= lockedAndReleased)
  end.
Proof.
  revert acc. induction qXEdges as [| qXEdge qXEdges IH]; intros acc.
  - simpl. by rewrite app_nil_r.
  - cbn [categorize].
    pose proof (lookup_releases_lock decode redis (cacheKey _generateHash metaKG qXEdge)) as Hl.
    destruct (lookup Payload decode redis _) as [events [[records |] | | e]].
    + simpl in Hl. subst events.
      match goal with |- context [categorize _ _ _ _ _ _ ?acc'] => specialize (IH acc') end.
      destruct (categorize _ _ _ _ _ _ _); simpl in *.
      * rewrite IH. by rewrite <- app_assoc.
      * destruct IH as [n ->]. exists (S n). by rewrite <- app_assoc.
      * destruct IH as [n ->]. exists (S n). by rewrite <- app_assoc.
    + simpl in Hl. subst events.
      match goal with |- context [categorize _ _ _ _ _ _ ?acc'] => specialize (IH acc') end.
      destruct (categorize _ _ _ _ _ _ _); simpl in *.
      * rewrite IH. by rewrite <- app_assoc.
      * destruct IH as [n ->]. exists (S n). by rewrite <- app_assoc.
      * destruct IH as [n ->]. exists (S n). by rewrite <- app_assoc.
    + simpl in Hl. subst events. exists 1. simpl. try rewrite take_0. done.
    + simpl in Hl. subst events. exists 1. simpl. try rewrite take_0. done.
Qed.

(** X24. [categorizeEdges] never keeps a lock either: however it ends (it
    returns, it waits for ever on a stream that does not end, or an error
    escapes), every lock it has taken has been released, each right after
    it was taken, in the order of the edges looked up. *)
Theorem categorizeEdges_releases_every_lock (cacheEnabled : bool) (redis : Redis)
    (metaKG : option MetaKG) (qXEdges : list QExeEdge) :
  match categorizeEdges Payload decode _generateHash cacheEnabled redis metaKG qXEdges with
  | Returned _ result =>
      lockEvents Payload result
      = if cacheEnabled
        then (cacheKey _generateHash metaKG <$> qXEdges) ≫= lockedAndReleased
        else []
  | Hangs _ events | Escaped _ events _ =>
      exists n, events = (cacheKey _generateHash metaKG <$> take n qXEdges) ≫= lockedAndReleased
  end.
Proof.
  unfold categorizeEdges. destruct cacheEnabled; [| done].
  match goal with |- context [categorize _ _ _ _ _ _ ?acc] =>
    pose proof (categorize_locks redis metaKG qXEdges acc) as H end.
  by destruct (categorize _ _ _ _ _ _ _).
Qed.

End Locks.

(** A replica that accepts no write: [delAsync] is rejected, the error is
    logged, and the lock is released all the same. *)
Lemma cacheEdges_releases_every_lock_witness :
  let queryRecords := [{| payload := 3; trapi_qEdge_obj := Some (gene_protein ["Gene"]) |}] in
  let env := {| RESULT_CACHING := None; REDIS_HOST := Some "localhost";
                REDIS_PORT := Some "6379"; REDIS_KEY_EXPIRE_TIME := None |} in
  let run := cacheEdges (RedisClient0 := readOnly) nat unary_encode (fun s => s) true true
               env None queryRecords [] in
  console run = [READONLY] /\
  locks run = lockedAndReleased (cacheKey (fun s => s) None (gene_protein ["Gene"])) /\
  messages run = [CacheInProgress; CacheDone].
Proof.
  intros queryRecords env run. split; [reflexivity |].
  apply (cacheEdges_releases_every_lock (RedisClient0 := readOnly) unary_encode (fun s => s)
           true true env None queryRecords []).
  reflexivity.
Defined.

(** ** Caching disabled *)

Lemma cacheEnabled_true_iff (caching : option bool) (env : Env) :
  cacheEnabled caching env = true <->
  caching <> Some false /\ RESULT_CACHING env <> Some "false" /\
  REDIS_HOST env <> None /\ REDIS_PORT env <> None.
Proof. unfold cacheEnabled. repeat case_bool_decide; simpl; intuition congruence. Qed.

(** X25. When the caller has passed [caching: false], or RESULT_CACHING is
    "false", or REDIS_HOST or REDIS_PORT is not set, the cache is disabled:
    [categorizeEdges] returns every edge as not cached and [cacheEdges]
    leaves the store alone; neither takes a lock nor sends a command, and
    in a worker thread [cacheEdges] posts [{ cacheDone: true }] only. *)
Theorem cache_disabled_touches_nothing {Payload Db : Type} `{!RedisClient Db}
    (encode : Payload -> string) (decode : string -> Outcome Payload)
    (_generateHash : string -> string) (caching : option bool) (env : Env)
    (parentPort : bool) (redis : Redis) (metaKG : option MetaKG) (qXEdges : list QExeEdge)
    (queryRecords : list (CachedRecord Payload)) (s : Db) :
  caching = Some false \/ RESULT_CACHING env = Some "false" \/
  REDIS_HOST env = None \/ REDIS_PORT env = None ->
  categorizeEdges Payload decode _generateHash (cacheEnabled caching env) redis metaKG qXEdges
  = Returned Payload {| cachedRecords := []; nonCachedQXEdges := qXEdges;
                        cacheHits := []; lockEvents := [] |} /\
  cacheEdges Payload encode _generateHash (cacheEnabled caching env) parentPort env metaKG
             queryRecords s
  = {| store := s; locks := [];
       messages := if parentPort then [CacheDoneDisabled] else [];
       console := []; unhandledRejections := [] |}.
Proof.
  intros Hoff.
  assert (cacheEnabled caching env = false) as ->; [| done].
  apply not_true_is_false. rewrite cacheEnabled_true_iff. intuition congruence.
Qed.

Lemma cache_disabled_touches_nothing_witness :
  let env := {| RESULT_CACHING := None; REDIS_HOST := Some "localhost";
                REDIS_PORT := None; REDIS_KEY_EXPIRE_TIME := None |} in
  let stale : Store := [("bte:edgeCache:k", [("0", "AAA,")])] in
  let queryRecords := [{| payload := 3; trapi_qEdge_obj := Some (gene_protein ["Gene"]) |}] in
  categorizeEdges nat unary_decode (fun s => s) (cacheEnabled None env)
    (redisOf decimal stale) None [gene_protein ["Gene"]]
  = Returned nat {| cachedRecords := []; nonCachedQXEdges := [gene_protein ["Gene"]];
                    cacheHits := []; lockEvents := [] |} /\
  cacheEdges nat unary_encode (fun s => s) (cacheEnabled None env) true env None
             queryRecords stale
  = {| store := stale; locks := []; messages := [CacheDoneDisabled];
       console := []; unhandledRejections := [] |}.
Proof.
  intros env stale queryRecords.
  apply (cache_disabled_touches_nothing unary_encode unary_decode (fun s => s) None env true).
  right. right. right. reflexivity.
Defined.

End CacheHandlerFacts.


(** ** The knowledge-graph builder *)

Module KnowledgeGraphFacts.

Import JSFacts KnowledgeGraph.

Lemma _createAttributes_begins (kgEdge : KGEdge) (attrs : list JSValue) :
  _createAttributes kgEdge = Ok attrs -> exists rest, attrs = aggregator :: rest.
Proof.
  unfold _createAttributes.
  destruct (truthy _).
  - destruct (spread _) as [given |]; simpl; [| done]. intros [= <-]. by eexists.
  - destruct (existsb _ _); intros [= <-]; by eexists.
Qed.

Lemma _createEdge_begins (kgEdge : KGEdge) (e : TrapiEdge) :
  _createEdge kgEdge = Ok e -> begins_with_aggregator e.
Proof.
  unfold _createEdge. destruct (_createAttributes kgEdge) as [attrs |] eqn:Hattrs; [| done].
  simpl. intros [= <-]. apply _createAttributes_begins in Hattrs as [rest ->].
  by exists (JStr "biolink:InformationResource"), rest.
Qed.

(** The edge is built for every edge of the last two kinds, and for a
    TRAPI edge whose given attributes are an array. *)
Lemma _createEdge_Ok (kgEdge : KGEdge) :
  (truthy (default JUndefined (obj_get "attributes" (attributes kgEdge))) = false \/
   exists l, obj_get "attributes" (attributes kgEdge) = Some (JArr l)) ->
  exists e, _createEdge kgEdge = Ok e.
Proof.
  unfold _createEdge, _createAttributes. intros [-> | [l ->]].
  - destruct (existsb _ _); by eexists.
  - simpl. by eexists.
Qed.

Lemma updateNodes_edges (bteNodes : list (string * KGNode)) (this : KnowledgeGraph) :
  edges (updateNodes bteNodes this) = edges this.
Proof.
  revert this. induction bteNodes as [| [node kgNode] bteNodes IH]; intros this; [done |].
  simpl. by rewrite IH.
Qed.

Lemma updateEdges_begins (bteEdges : list (string * KGEdge)) (this : KnowledgeGraph) :
  Forall (fun ke => begins_with_aggregator ke.2) (edges this) ->
  Forall (fun ke => begins_with_aggregator ke.2) (edges (updateEdges bteEdges this).1).
Proof.
  revert this. induction bteEdges as [| [edge kgEdge] bteEdges IH]; intros this Hthis; [done |].
  simpl. destruct (_createEdge kgEdge) as [e |] eqn:He; [| done].
  apply IH. simpl. apply Forall_forall. intros [k e'] Hin.
  apply elem_of_obj_assign in Hin as [[= -> ->] | Hin].
  - simpl. by eapply _createEdge_begins.
  - by apply (proj1 (Forall_forall _ _) Hthis (k, e')).
Qed.

(** C9. Whatever graphs the builder has been updated with, every edge
    it holds begins its attribute list with the attribute whose
    attribute_type_id is "biolink:aggregator_knowledge_source" and whose
    value is ["infores:translator-biothings-explorer"]: the three branches
    of [_createAttributes] all extend the list that starts with it. *)
Theorem every_edge_begins_with_aggregator (bteGraphs : list BTEGraph) :
  Forall (fun ke => begins_with_aggregator ke.2) (edges (after bteGraphs)).
Proof.
  unfold after.
  assert (forall this,
    Forall (fun ke => begins_with_aggregator ke.2) (edges this) ->
    Forall (fun ke => begins_with_aggregator ke.2)
      (edges (fold_left (fun this bteGraph => (update bteGraph this).1) bteGraphs this)))
    as Hgen.
  { induction bteGraphs as [| g gs IH]; intros this Hthis; [done |].
    simpl. apply IH. unfold update. apply updateEdges_begins.
    by rewrite updateNodes_edges. }
  apply Hgen. constructor.
Qed.

(** One edge of each kind, as the builder emits them. *)
Example three_kinds_emitted :
  (fun ke => (ke.1, length (edge_attributes ke.2))) <$> edges (after [three_kinds])
  = [("trapi", 2); ("direct", 5); ("other", 4)].
Proof. reflexivity. Qed.

(** ** What an update stores *)

(** Two objects with the same property names in the same order and the
    same value under every name are one object. *)
Lemma obj_ext {V : Type} (o1 o2 : Obj V) :
  NoDup o1.*1 -> o1.*1 = o2.*1 -> (forall k, obj_get k o1 = obj_get k o2) -> o1 = o2.
Proof.
  revert o2. induction o1 as [| [k v] o1 IH]; intros [| [k' v'] o2]; simpl; try done.
  intros Hnd [= <- Hkeys] Hget. apply NoDup_cons in Hnd as [Hk Hnd].
  pose proof (Hget k) as Hk0. rewrite !bool_decide_eq_true_2 in Hk0 by done.
  injection Hk0 as <-. f_equal. apply IH; [done | done |].
  intros k0. specialize (Hget k0). case_bool_decide as Hkk; [| done].
  subst k0. transitivity (@None V).
  - by apply obj_get_None.
  - symmetry. apply obj_get_None. intros Hin. apply Hk.
    change (k ∈ o1.*1). change (o1.*1 = o2.*1) in Hkeys. by rewrite Hkeys.
Qed.

Lemma updateNodes_cons (node : string) (kgNode : KGNode) (bteNodes : list (string * KGNode))
    (this : KnowledgeGraph) :
  updateNodes ((node, kgNode) :: bteNodes) this
  = updateNodes bteNodes
      {| nodes := obj_assign (_primaryID kgNode) (_createNode kgNode) (nodes this);
         edges := edges this |}.
Proof. done. Qed.

Lemma updateNodes_nodes_sublist (bteNodes : list (string * KGNode)) (this : KnowledgeGraph) :
  (nodes this).*1 `sublist_of` (nodes (updateNodes bteNodes this)).*1.
Proof.
  revert this. induction bteNodes as [| [node kgNode] bteNodes IH]; intros this; [done |].
  rewrite updateNodes_cons. etrans; [| apply IH]. simpl. apply obj_assign_keys_sublist.
Qed.

Lemma updateEdges_nodes (bteEdges : list (string * KGEdge)) (this : KnowledgeGraph) :
  nodes (updateEdges bteEdges this).1 = nodes this.
Proof.
  revert this. induction bteEdges as [| [edge kgEdge] bteEdges IH]; intros this; [done |].
  simpl. destruct (_createEdge kgEdge); [| done]. by rewrite IH.
Qed.

Lemma updateEdges_edges_sublist (bteEdges : list (string * KGEdge)) (this : KnowledgeGraph) :
  (edges this).*1 `sublist_of` (edges (updateEdges bteEdges this).1).*1.
Proof.
  revert this. induction bteEdges as [| [edge kgEdge] bteEdges IH]; intros this; [done |].
  simpl. destruct (_createEdge kgEdge); [| done].
  etrans; [| apply IH]. simpl. apply obj_assign_keys_sublist.
Qed.

(** X10. An update never removes anything: the nodes and the edges the
    builder held are still there afterwards, in the order they had,
    whether the update completes or an edge stops it. (A new key that is
    an array index is listed before the keys that are not, so the keys
    held before need not come first.) *)
Theorem update_keeps_entries (bteGraph : BTEGraph) (this : KnowledgeGraph) :
  (getNodes this).*1 `sublist_of` (getNodes (update bteGraph this).1).*1 /\
  (getEdges this).*1 `sublist_of` (getEdges (update bteGraph this).1).*1.
Proof.
  unfold getNodes, getEdges, update. split.
  - rewrite updateEdges_nodes. apply updateNodes_nodes_sublist.
  - etrans; [| apply updateEdges_edges_sublist]. by rewrite updateNodes_edges.
Qed.

(** The keys after the nodes have been stored: nothing is stored under
    the name "__proto__". *)
Lemma updateNodes_keys (bteNodes : list (string * KGNode)) (this : KnowledgeGraph) (p : string) :
  p ∈ (nodes (updateNodes bteNodes this)).*1 <->
  p ∈ (nodes this).*1 \/ (p ∈ _primaryID <$> bteNodes.*2 /\ p <> "__proto__").
Proof.
  revert this. induction bteNodes as [| [node kgNode] bteNodes IH]; intros this.
  - simpl. rewrite elem_of_nil. tauto.
  - rewrite updateNodes_cons, IH. cbn [nodes]. rewrite obj_assign_keys.
    rewrite !fmap_cons, elem_of_cons. cbn [snd]. naive_solver.
Qed.

(** The last node of the list with a primary identifier is the one stored
    under it. *)
Lemma updateNodes_obj_get (bteNodes : list (string * KGNode)) (this : KnowledgeGraph)
    (p : string) :
  p <> "__proto__" \/ p ∈ (nodes this).*1 ->
  obj_get p (nodes (updateNodes bteNodes this))
  = match last (List.filter (fun kgNode => bool_decide (_primaryID kgNode = p)) bteNodes.*2) with
    | Some kgNode => Some (_createNode kgNode)
    | None => obj_get p (nodes this)
    end.
Proof.
  revert this. induction bteNodes as [| [node kgNode] bteNodes IH]; intros this Hp; [done |].
  rewrite updateNodes_cons, IH by (cbn [nodes]; rewrite obj_assign_keys; tauto).
  simpl. rewrite obj_get_obj_assign. case_bool_decide as Hid.
  - rewrite decide_True by (subst p; tauto).
    destruct (List.filter _ _) as [| x l] eqn:Hf; [done |].
    rewrite (last_cons kgNode).
    destruct (last (x :: l)) eqn:Hl; [done | by apply last_None in Hl].
  - rewrite decide_False by tauto. done.
Qed.

Lemma updateEdges_keys (bteEdges : list (string * KGEdge)) (this this' : KnowledgeGraph)
    (k : string) :
  updateEdges bteEdges this = (this', Ok tt) ->
  k ∈ (edges this').*1 <-> k ∈ (edges this).*1 \/ (k ∈ bteEdges.*1 /\ k <> "__proto__").
Proof.
  revert this. induction bteEdges as [| [edge kgEdge] bteEdges IH]; intros this.
  - intros [= <-]. simpl. rewrite elem_of_nil. tauto.
  - simpl. destruct (_createEdge kgEdge) as [e |]; [| done].
    intros Hrest. rewrite (IH _ Hrest). cbn [edges]. rewrite obj_assign_keys.
    rewrite elem_of_cons. naive_solver.
Qed.

Lemma updateEdges_obj_get (bteEdges : list (string * KGEdge)) (this this' : KnowledgeGraph)
    (k : string) :
  updateEdges bteEdges this = (this', Ok tt) ->
  k <> "__proto__" \/ k ∈ (edges this).*1 ->
  match last (List.filter (fun ke => bool_decide (ke.1 = k)) bteEdges) with
  | Some ke => exists e, _createEdge ke.2 = Ok e /\ obj_get k (edges this') = Some e
  | None => obj_get k (edges this') = obj_get k (edges this)
  end.
Proof.
  revert this. induction bteEdges as [| [edge kgEdge] bteEdges IH]; intros this.
  - by intros [= <-].
  - simpl. destruct (_createEdge kgEdge) as [e |] eqn:He; [| done].
    intros Hrest Hk.
    assert (k <> "__proto__" \/ k ∈ (obj_assign edge e (edges this)).*1) as Hk'
      by (rewrite obj_assign_keys; tauto).
    specialize (IH _ Hrest Hk'). simpl in IH.
    case_bool_decide as Hedge.
    + subst edge. destruct (List.filter _ _) as [| x l] eqn:Hf.
      * simpl in *. exists e. split; [done |]. rewrite IH, obj_get_obj_assign.
        by rewrite decide_True.
      * rewrite (last_cons (k, kgEdge)).
        destruct (last (x :: l)) eqn:Hl; [done | by apply last_None in Hl].
    + destruct (last _); [done |]. rewrite IH, obj_get_obj_assign.
      rewrite decide_False; [done | tauto].
Qed.

(** X11. After an update that completes, the node stored under a primary
    identifier is the one built from the last graph node with that
    identifier (the key of the graph node plays no part), and the edge
    stored under a key is the one built from the graph's edge of that key;
    every other entry is what it was. This holds of every name but
    "__proto__" where the builder has no property of that name: assigning
    to that name sets the prototype of the object, and the builder still
    has no such property afterwards. *)
Theorem update_stores_last (bteGraph : BTEGraph) (this this' : KnowledgeGraph) :
  update bteGraph this = (this', Ok tt) ->
  (forall p, p <> "__proto__" \/ p ∈ (getNodes this).*1 ->
     obj_get p (getNodes this')
     = match last (List.filter (fun kgNode => bool_decide (_primaryID kgNode = p))
                               (graph_nodes bteGraph).*2) with
       | Some kgNode => Some (_createNode kgNode)
       | None => obj_get p (getNodes this)
       end) /\
  (forall k, k <> "__proto__" \/ k ∈ (getEdges this).*1 ->
     match last (List.filter (fun ke => bool_decide (ke.1 = k)) (graph_edges bteGraph)) with
     | Some ke => exists e, _createEdge ke.2 = Ok e /\ obj_get k (getEdges this') = Some e
     | None => obj_get k (getEdges this') = obj_get k (getEdges this)
     end) /\
  ("__proto__" ∉ (getNodes this).*1 -> "__proto__" ∉ (getNodes this').*1) /\
  ("__proto__" ∉ (getEdges this).*1 -> "__proto__" ∉ (getEdges this').*1).
Proof.
  unfold update, getNodes, getEdges. intros Hupdate.
  pose proof (updateEdges_nodes (graph_edges bteGraph)
                (updateNodes (graph_nodes bteGraph) this)) as Hn.
  rewrite Hupdate in Hn. simpl in Hn. split_and!.
  - intros p Hp. rewrite Hn. by apply updateNodes_obj_get.
  - intros k Hk. pose proof (updateEdges_obj_get _ _ _ k Hupdate) as Hget.
    rewrite updateNodes_edges in Hget. by apply Hget.
  - rewrite Hn, updateNodes_keys. tauto.
  - rewrite (updateEdges_keys _ _ _ _ Hupdate), updateNodes_edges. tauto.
Qed.

Lemma update_stores_last_witness :
  exists this',
    update small_graph constructor = (this', Ok tt) /\
    node_name <$> obj_get "NCBIGene:3778" (getNodes this') = Some "SLO1" /\
    obj_get "NCBIGene:3778-n0" (getNodes this') = None.
Proof.
  destruct (update small_graph constructor) as [this' outcome] eqn:Hupdate.
  assert (outcome = Ok tt) as -> by (by vm_compute in Hupdate; injection Hupdate as _ <-).
  exists this'. split; [done |].
  destruct (update_stores_last small_graph constructor this' Hupdate) as [Hnodes _].
  rewrite (Hnodes "NCBIGene:3778"), (Hnodes "NCBIGene:3778-n0") by (by left). done.
Defined.

Lemma updateNodes_NoDup (bteNodes : list (string * KGNode)) (this : KnowledgeGraph) :
  NoDup (nodes this).*1 -> NoDup (nodes (updateNodes bteNodes this)).*1.
Proof.
  revert this. induction bteNodes as [| [node kgNode] bteNodes IH]; intros this Hnd; [done |].
  rewrite updateNodes_cons. apply IH. simpl. by apply obj_assign_NoDup.
Qed.

Lemma updateNodes_keys_same (bteNodes : list (string * KGNode)) (this : KnowledgeGraph) :
  (forall kgNode, kgNode ∈ bteNodes.*2 ->
     _primaryID kgNode ∈ (nodes this).*1 \/ _primaryID kgNode = "__proto__") ->
  (nodes (updateNodes bteNodes this)).*1 = (nodes this).*1.
Proof.
  revert this. induction bteNodes as [| [node kgNode] bteNodes IH]; intros this Hin; [done |].
  rewrite updateNodes_cons.
  assert ((obj_assign (_primaryID kgNode) (_createNode kgNode) (nodes this)).*1
          = (nodes this).*1)
    as Hsame by (apply obj_assign_keys_same, Hin; by left).
  rewrite IH; simpl; [done |].
  intros n Hn. rewrite Hsame. apply Hin. by right.
Qed.

Lemma updateEdges_NoDup (bteEdges : list (string * KGEdge)) (this : KnowledgeGraph) :
  NoDup (edges this).*1 -> NoDup (edges (updateEdges bteEdges this).1).*1.
Proof.
  revert this. induction bteEdges as [| [edge kgEdge] bteEdges IH]; intros this Hnd; [done |].
  simpl. destruct (_createEdge kgEdge); [| done]. apply IH. simpl. by apply obj_assign_NoDup.
Qed.

Lemma updateEdges_keys_same (bteEdges : list (string * KGEdge)) (this : KnowledgeGraph) :
  (forall k, k ∈ bteEdges.*1 -> k ∈ (edges this).*1 \/ k = "__proto__") ->
  (edges (updateEdges bteEdges this).1).*1 = (edges this).*1.
Proof.
  revert this. induction bteEdges as [| [edge kgEdge] bteEdges IH]; intros this Hin; [done |].
  simpl. destruct (_createEdge kgEdge) as [e |]; [| done].
  assert ((obj_assign edge e (edges this)).*1 = (edges this).*1)
    as Hsame by (apply obj_assign_keys_same, Hin; by left).
  rewrite IH; simpl; [done |].
  intros k Hk. rewrite Hsame. apply Hin. by right.
Qed.

Lemma updateEdges_Ok_inv (bteEdges : list (string * KGEdge)) (this this' : KnowledgeGraph) :
  updateEdges bteEdges this = (this', Ok tt) ->
  Forall (fun ke => exists e, _createEdge ke.2 = Ok e) bteEdges.
Proof.
  revert this. induction bteEdges as [| [edge kgEdge] bteEdges IH]; intros this; [by constructor |].
  simpl. destruct (_createEdge kgEdge) as [e |] eqn:He; [| done].
  intros Hrest. constructor; [by exists e | by eapply IH].
Qed.

Lemma updateEdges_Ok (bteEdges : list (string * KGEdge)) (this : KnowledgeGraph) :
  Forall (fun ke => exists e, _createEdge ke.2 = Ok e) bteEdges ->
  exists this', updateEdges bteEdges this = (this', Ok tt).
Proof.
  intros Hall. revert this. induction Hall as [| [edge kgEdge] bteEdges [e He] _ IH]; intros this.
  - by eexists.
  - simpl in *. rewrite He. apply IH.
Qed.

(** X12. An update that has completed can be repeated: on a builder whose
    node keys and edge keys are distinct, as the property names of an
    object are, it completes again with the same graph and leaves the
    builder as it is. *)
Theorem update_idempotent (bteGraph : BTEGraph) (this this' : KnowledgeGraph) :
  NoDup (getNodes this).*1 ->
  NoDup (getEdges this).*1 ->
  update bteGraph this = (this', Ok tt) ->
  update bteGraph this' = (this', Ok tt).
Proof.
  unfold getNodes, getEdges, update. intros Hnodes Hedges Hupdate.
  set (s1 := updateNodes (graph_nodes bteGraph) this) in *.
  remember (updateNodes (graph_nodes bteGraph) this') as s2 eqn:Hs2.
  assert (nodes this' = nodes s1) as Hn1.
  { pose proof (updateEdges_nodes (graph_edges bteGraph) s1) as H. by rewrite Hupdate in H. }
  assert (edges s2 = edges this') as He2 by (subst s2; apply updateNodes_edges).
  assert (forall p, p ∈ (nodes this').*1 <->
            p ∈ (nodes this).*1 \/
            (p ∈ _primaryID <$> (graph_nodes bteGraph).*2 /\ p <> "__proto__")) as Hkeys1.
  { intros p. rewrite Hn1. apply updateNodes_keys. }
  assert (nodes s2 = nodes this') as Hn2.
  { rewrite Hs2. apply obj_ext.
    - by apply updateNodes_NoDup; rewrite Hn1; apply updateNodes_NoDup.
    - apply updateNodes_keys_same. intros kgNode Hin.
      destruct (decide (_primaryID kgNode = "__proto__")) as [| Hp]; [by right |].
      left. apply Hkeys1. right. split; [| done].
      apply list_elem_of_fmap. by exists kgNode.
    - intros p.
      destruct (decide (p <> "__proto__" \/ p ∈ (nodes this).*1)) as [Hp | Hp].
      + rewrite updateNodes_obj_get by (rewrite Hkeys1; tauto).
        rewrite Hn1. unfold s1. rewrite updateNodes_obj_get by done. by destruct (last _).
      + assert (p ∉ (nodes this').*1) as Hout by (rewrite Hkeys1; tauto).
        transitivity (@None TrapiNode); [| symmetry; by apply obj_get_None].
        apply obj_get_None. rewrite updateNodes_keys. tauto. }
  destruct (updateEdges_Ok (graph_edges bteGraph) s2) as [this'' Hupdate'].
  { by eapply updateEdges_Ok_inv. }
  rewrite Hupdate'. f_equal.
  assert (nodes this'' = nodes this') as Hn3.
  { pose proof (updateEdges_nodes (graph_edges bteGraph) s2) as H.
    rewrite Hupdate' in H. simpl in H. by rewrite H. }
  assert (NoDup (edges this').*1) as Hnd.
  { pose proof (updateEdges_NoDup (graph_edges bteGraph) s1) as H.
    rewrite Hupdate in H. apply H. unfold s1. by rewrite updateNodes_edges. }
  assert (forall k, k ∈ (edges this').*1 <->
            k ∈ (edges this).*1 \/ (k ∈ (graph_edges bteGraph).*1 /\ k <> "__proto__"))
    as Hkeys2.
  { intros k. rewrite (updateEdges_keys _ _ _ k Hupdate). unfold s1.
    by rewrite updateNodes_edges. }
  assert (edges this'' = edges this') as He3.
  { apply obj_ext.
    - pose proof (updateEdges_NoDup (graph_edges bteGraph) s2) as H.
      rewrite Hupdate' in H. apply H. by rewrite He2.
    - pose proof (updateEdges_keys_same (graph_edges bteGraph) s2) as H.
      rewrite Hupdate', He2 in H. apply H. intros k Hk.
      destruct (decide (k = "__proto__")) as [| Hp]; [by right |].
      left. apply Hkeys2. tauto.
    - intros k.
      destruct (decide (k <> "__proto__" \/ k ∈ (edges this).*1)) as [Hk | Hk].
      + pose proof (updateEdges_obj_get _ _ _ k Hupdate') as H2.
        pose proof (updateEdges_obj_get _ _ _ k Hupdate) as H1.
        rewrite He2 in H2. unfold s1 in H1. rewrite updateNodes_edges in H1.
        specialize (H1 Hk). specialize (H2 ltac:(rewrite Hkeys2; tauto)).
        destruct (last _) as [ke |].
        * destruct H1 as (e1 & He1 & ->). destruct H2 as (e2' & He2' & ->). congruence.
        * exact H2.
      + assert (k ∉ (edges this').*1) as Hout by (rewrite Hkeys2; tauto).
        transitivity (@None TrapiEdge); [| symmetry; by apply obj_get_None].
        apply obj_get_None. rewrite (updateEdges_keys _ _ _ k Hupdate'), He2. tauto. }
  destruct this'', this'. simpl in *. by subst.
Qed.

Lemma update_idempotent_witness :
  exists this',
    update small_graph constructor = (this', Ok tt) /\
    update small_graph this' = (this', Ok tt).
Proof.
  destruct (update small_graph constructor) as [this' outcome] eqn:Hupdate.
  assert (outcome = Ok tt) as -> by (by vm_compute in Hupdate; injection Hupdate as _ <-).
  exists this'. split; [done |].
  apply (update_idempotent small_graph constructor this'); [constructor | constructor | done].
Defined.

Lemma _createEdge_outcome (kgEdge : KGEdge) :
  match _createEdge kgEdge with
  | Ok _ => ~ attributesNotIterable kgEdge
  | Throw e => e = TypeError /\ attributesNotIterable kgEdge
  end.
Proof.
  unfold _createEdge, _createAttributes, attributesNotIterable.
  generalize (existsb (fun api_name => set_has api_name (apis kgEdge)) directProviders).
  intros direct.
  destruct (default JUndefined (obj_get "attributes" (attributes kgEdge)))
    as [| | [|] | n | s | l | o];
    simpl; try (destruct direct; simpl; by intros [[=] _]).
  - by split_and!.
  - destruct n; simpl; try (by split_and!).
    destruct direct; simpl; by intros [[=] _].
  - destruct s as [| c s]; simpl.
    + destruct direct; simpl; by intros [[=] _].
    + intros (_ & _ & H). by destruct (H (String c s)).
  - intros (_ & H & _). by destruct (H l).
  - by split_and!.
Qed.

(** X13. An update throws exactly when the graph has an edge whose
    [attributes.attributes] is truthy and is neither an array nor a string,
    and what it throws is a [TypeError]. *)
Theorem update_throws_TypeError_iff (bteGraph : BTEGraph) (this : KnowledgeGraph) :
  match (update bteGraph this).2 with
  | Ok _ => Forall (fun ke => ~ attributesNotIterable ke.2) (graph_edges bteGraph)
  | Throw e => e = TypeError /\
               Exists (fun ke => attributesNotIterable ke.2) (graph_edges bteGraph)
  end.
Proof.
  unfold update. generalize (updateNodes (graph_nodes bteGraph) this).
  induction (graph_edges bteGraph) as [| [edge kgEdge] bteEdges IH]; intros s; simpl.
  - constructor.
  - pose proof (_createEdge_outcome kgEdge) as Hedge.
    destruct (_createEdge kgEdge) as [e | err]; simpl.
    + specialize (IH {| nodes := nodes s; edges := obj_assign edge e (edges s) |}).
      destruct (updateEdges bteEdges _).2.
      * by constructor.
      * destruct IH as [-> IH]. split; [done | by right].
    + destruct Hedge as [-> Hedge]. split; [done | by left].
Qed.

End KnowledgeGraphFacts.

(** ** The query handler *)

Module QueryHandlerFacts.

Import QueryResults QueryHandler.

(** C7. Query-graph processing either completes or throws an error that
    is an [InvalidQueryGraphError], whose name is that string and whose
    statusCode is 400: whatever [calculateEdges] throws is either such an
    error already or is replaced by a new one. *)
Theorem _processQueryGraph_throws_InvalidQueryGraphError {Edges : Type}
    (calculateEdges : Outcome (Edges * list Log)) (this : TRAPIQueryHandler) :
  match _processQueryGraph calculateEdges this with
  | Ok (this', queryExecutionEdges) =>
      exists handlerLogs, calculateEdges = Ok (queryExecutionEdges, handlerLogs) /\
        logs this' = logs this ++ handlerLogs
  | Throw e =>
      (exists err, calculateEdges = Throw err) /\
      isInvalidQueryGraphError e = true /\
      name e = "InvalidQueryGraphError" /\
      statusCode e = Some 400%Z
  end.
Proof.
  unfold _processQueryGraph. destruct calculateEdges as [[edges handlerLogs] | err].
  - by exists handlerLogs.
  - destruct err; simpl; (split; [by eexists | done]).
Qed.

(** ** Logs *)

(** X6. [_logSkippedQueries] only appends: the entries it was given stay in
    place, and it adds one WARNING without data for every API that has
    more than one failed query, none for an API that failed once. *)
Theorem _logSkippedQueries_appends_warnings (unavailableAPIs : Obj Z) (logs : list Log) :
  exists added,
    _logSkippedQueries unavailableAPIs logs = logs ++ added /\
    length added = length (List.filter (fun p => bool_decide (1 < p.2)%Z) unavailableAPIs) /\
    Forall (fun log => level log = "WARNING" /\ data log = None) added.
Proof.
  unfold _logSkippedQueries. revert logs.
  induction unavailableAPIs as [| [api skippedQueries] apis IH]; intros logs.
  - exists []. simpl. by rewrite app_nil_r.
  - cbn [fold_left]. case_bool_decide as Hs.
    + destruct (IH (logs ++ [{| level := "WARNING";
          message := pretty (skippedQueries - 1)%Z +:+ " additional quer"
            +:+ (if bool_decide (1 < skippedQueries - 1)%Z then "ies" else "y")
            +:+ " to " +:+ api +:+ " "
            +:+ (if bool_decide (1 < skippedQueries - 1)%Z then "were" else "was")
            +:+ " skipped as the API was unavailable.";
          data := None |}])) as (added & -> & Hlen & Hall).
      eexists (_ :: added). rewrite <- app_assoc. split_and!; [done | |].
      * simpl. rewrite bool_decide_eq_true_2 by lia. simpl. by rewrite Hlen.
      * by constructor.
    + destruct (IH logs) as (added & -> & Hlen & Hall).
      exists added. split_and!; [done | | done].
      simpl. by rewrite bool_decide_eq_false_2 by lia.
Qed.

Lemma _logSkippedQueries_prefix (unavailableAPIs : Obj Z) (logs : list Log) :
  logs `prefix_of` _logSkippedQueries unavailableAPIs logs.
Proof.
  unfold _logSkippedQueries. revert logs.
  induction unavailableAPIs as [| [api skippedQueries] apis IH]; intros logs; simpl; [done |].
  case_bool_decide; [| apply IH].
  etrans; [| apply IH]. by apply prefix_app_r.
Qed.

Section QueryFacts.

Context {M E R W Edges MetaKG : Type}.
Context `{!EdgeManager M E R, !BatchEdgeQueryHandler W M E R}.

Variable calculateEdges : Outcome (Edges * list Log).
Variable _loadMetaKG : Outcome MetaKG.
Variable missingAPIs : option (list string).
Variable _edgesSupported : Edges -> MetaKG -> list Log * bool.
Variable newEdgeManager : Edges -> M.
Variable afterLoop : Run (M := M) (E := E) (W := W) -> TRAPIQueryHandler * Outcome unit.
Variable world0 : W.

(** X9. When the MetaKG loads and query-graph processing throws, whatever the
    error, [query] ends with an error named InvalidQueryGraphError whose
    status code is 400. *)
Lemma query_surfaces_InvalidQueryGraphError (fuel : nat) (this : TRAPIQueryHandler)
    (metaKG : MetaKG) (err : Error) :
  _loadMetaKG = Ok metaKG ->
  calculateEdges = Throw err ->
  exists this' e,
    query calculateEdges _loadMetaKG missingAPIs _edgesSupported newEdgeManager afterLoop
          world0 fuel this = (this', Error_ e) /\
    name e = "InvalidQueryGraphError" /\ statusCode e = Some 400%Z.
Proof.
  intros HmetaKG Herr. unfold query, beforeLoop, _processQueryGraph.
  rewrite HmetaKG, Herr. destruct err; simpl; by eexists _, _.
Qed.

Lemma loop_turns (fuel n : nat) (r r' : Run) :
  turns n r = Some r' -> loop (n + fuel) r = loop fuel r'.
Proof.
  revert r. induction n as [| n IH]; intros r; simpl.
  - by intros [= ->].
  - destruct (getEdgesNotExecuted (manager r)); [| done].
    destruct (turn r) as [r1 | r1 | r1 e]; [| done..]. apply IH.
Qed.

(** A turn that goes on leaves the results assembler alone. *)
Lemma turn_Continues_assembler (r r' : Run) :
  turn r = Continues r' ->
  trapiResultsAssembler (this_ r') = trapiResultsAssembler (this_ r).
Proof.
  unfold turn. destruct (getNext (manager r)) as [currentQXEdge manager1].
  destruct (handler_query _ _ _ _) as [[[[queryRecords handlerLogs] un] w] | e]; [| done].
  repeat case_bool_decide; try done. by intros [= <-].
Qed.

Lemma turns_assembler (n : nat) (r r' : Run) :
  turns n r = Some r' ->
  trapiResultsAssembler (this_ r') = trapiResultsAssembler (this_ r).
Proof.
  revert r. induction n as [| n IH]; intros r; simpl.
  - by intros [= ->].
  - destruct (getEdgesNotExecuted (manager r)); [| done].
    destruct (turn r) as [r1 | r1 | r1 e] eqn:Hturn; [| done..].
    intros ->%IH. by apply turn_Continues_assembler.
Qed.

Lemma beforeLoop_assembler (this this0 : TRAPIQueryHandler) (r0 : Run) :
  beforeLoop (E := E) calculateEdges _loadMetaKG missingAPIs _edgesSupported
             newEdgeManager world0 this = (this0, Ok (Some r0)) ->
  trapiResultsAssembler (this_ r0) = QueryResults.constructor.
Proof.
  unfold beforeLoop. destruct _loadMetaKG as [metaKG |]; [| done].
  unfold _processQueryGraph. destruct calculateEdges as [[edges handlerLogs] | err].
  - destruct (_edgesSupported edges metaKG) as [supportLogs [|]]; [| done].
    intros [= _ <-]. by destruct missingAPIs.
  - by destruct (isInvalidQueryGraphError err).
Qed.

(** The turn in which the selected edge returns or keeps zero records. *)
Lemma turn_zero_records (r : Run) :
  returns_zero_records r \/ keeps_zero_records r ->
  exists r' what,
    turn r = Returns r' /\
    queried r' = queried r ++ [(getNext (manager r)).1] /\
    what ∈ ["got"; "kept"] /\
    last (logs (this_ r')) = Some (terminatesLog (getNext (manager r)).1 what) /\
    trapiResultsAssembler (this_ r') = trapiResultsAssembler (this_ r).
Proof.
  unfold returns_zero_records, keeps_zero_records, turn.
  destruct (getNext (manager r)) as [currentQXEdge manager1]. simpl.
  intros [(handlerLogs & un & w & ->) | (queryRecords & handlerLogs & un & w & -> & Hkept)].
  - rewrite bool_decide_eq_true_2 by done.
    eexists _, "got". split_and!; [done | done | | | done].
    + apply list_elem_of_here.
    + simpl. by rewrite last_snoc.
  - case_bool_decide.
    + eexists _, "got". split_and!; [done | done | | | done].
      * apply list_elem_of_here.
      * simpl. by rewrite last_snoc.
    + rewrite Hkept, bool_decide_eq_true_2 by done.
      eexists _, "kept". split_and!; [done | done | | | done].
      * apply list_elem_of_further, list_elem_of_here.
      * simpl. by rewrite last_snoc.
Qed.

(** C5. If, after [n] turns of the loop, the edge the manager selects
    returns zero records, or keeps none after filtering and propagation,
    then the loop stops in that turn: the batch handler has been asked for
    that edge and for no edge after it, the last log entry is the warning
    that the query terminates, [query] returns normally, and the response
    holds an empty result list. *)
Theorem query_stops_on_zero_records (fuel n : nat) (this this0 : TRAPIQueryHandler)
    (r0 r : Run) :
  beforeLoop (E := E) calculateEdges _loadMetaKG missingAPIs _edgesSupported
             newEdgeManager world0 this = (this0, Ok (Some r0)) ->
  turns n r0 = Some r ->
  getEdgesNotExecuted (manager r) = true ->
  returns_zero_records r \/ keeps_zero_records r ->
  exists r' what,
    loop (S (n + fuel)) r0 = Returned r' /\
    queried r' = queried r ++ [(getNext (manager r)).1] /\
    what ∈ ["got"; "kept"] /\
    last (logs (this_ r')) = Some (terminatesLog (getNext (manager r)).1 what) /\
    level (terminatesLog (getNext (manager r)).1 what) = "WARNING" /\
    query calculateEdges _loadMetaKG missingAPIs _edgesSupported newEdgeManager afterLoop
          world0 (S (n + fuel)) this = (this_ r', Normal) /\
    results (getResponse (this_ r')) = [].
Proof.
  intros Hbefore Hturns Hpending Hzero.
  destruct (turn_zero_records r Hzero) as (r' & what & Hturn & Hq & Hwhat & Hlast & Hasm).
  assert (loop (S (n + fuel)) r0 = Returned r') as Hloop.
  { replace (S (n + fuel)) with (n + S fuel) by lia.
    rewrite (loop_turns _ _ _ _ Hturns). simpl. by rewrite Hpending, Hturn. }
  exists r', what. split_and!; try done.
  - unfold query. rewrite Hbefore, Hloop. done.
  - unfold getResponse. simpl.
    by rewrite Hasm, (turns_assembler _ _ _ Hturns), (beforeLoop_assembler _ _ _ Hbefore).
Qed.

Lemma turn_prefix (r : Run) :
  match turn r with
  | Continues r' | Returns r' | Throws r' _ => logs (this_ r) `prefix_of` logs (this_ r')
  end.
Proof.
  unfold turn. destruct (getNext (manager r)) as [currentQXEdge manager1].
  destruct (handler_query _ _ _ _) as [[[[queryRecords handlerLogs] un] w] | e]; simpl.
  - repeat case_bool_decide; simpl.
    + apply prefix_app_r. etrans; [| apply _logSkippedQueries_prefix].
      rewrite <- !app_assoc. by apply prefix_app_r.
    + apply prefix_app_r. etrans; [| apply _logSkippedQueries_prefix].
      rewrite <- !app_assoc. by apply prefix_app_r.
    + rewrite <- !app_assoc. by apply prefix_app_r.
  - by apply prefix_app_r.
Qed.

Lemma loop_prefix (fuel : nat) (r : Run) :
  match loop fuel r with
  | AllExecuted r' | Returned r' | Threw r' _ | StillRunning r' =>
      logs (this_ r) `prefix_of` logs (this_ r')
  end.
Proof.
  revert r. induction fuel as [| fuel IH]; intros r; simpl.
  - by destruct (getEdgesNotExecuted (manager r)).
  - destruct (getEdgesNotExecuted (manager r)); [| done].
    pose proof (turn_prefix r) as Hturn.
    destruct (turn r) as [r' | r' | r' e]; [| done..].
    specialize (IH r'). destruct (loop fuel r'); by etrans.
Qed.

(** X7. Up to the end of the main loop the handler's log only grows: however
    the loop ends, the entries the handler held when [query] was called
    are still there, in place, before the new ones. *)
Theorem query_loop_only_appends_logs (fuel : nat) (this this0 : TRAPIQueryHandler)
    (r0 : Run) :
  beforeLoop (E := E) calculateEdges _loadMetaKG missingAPIs _edgesSupported
             newEdgeManager world0 this = (this0, Ok (Some r0)) ->
  match loop fuel r0 with
  | AllExecuted r | Returned r | Threw r _ | StillRunning r =>
      logs this `prefix_of` logs (this_ r)
  end.
Proof.
  intros Hbefore.
  assert (logs this `prefix_of` logs (this_ r0)) as H0.
  { revert Hbefore. unfold beforeLoop. destruct _loadMetaKG as [metaKG |]; [| done].
    unfold _processQueryGraph. destruct calculateEdges as [[edges handlerLogs] | err].
    - destruct (_edgesSupported edges metaKG) as [supportLogs [|]]; [| done].
      intros [= _ <-]. simpl. destruct missingAPIs; simpl;
        rewrite <- ?app_assoc; by apply prefix_app_r.
    - by destruct (isInvalidQueryGraphError err). }
  pose proof (loop_prefix fuel r0) as Hloop.
  destruct (loop fuel r0); by etrans.
Qed.

(** X8. When [_edgesSupported] answers no, [query] returns normally before
    the loop: the response holds no result and an empty knowledge graph,
    and the log has gained the entry about missing APIs (if any), the
    logs of the query-graph handler and those of [_edgesSupported]. *)
Theorem query_returns_when_edges_unsupported (fuel : nat) (this : TRAPIQueryHandler)
    (metaKG : MetaKG) (edges : Edges) (handlerLogs supportLogs : list Log) :
  _loadMetaKG = Ok metaKG ->
  calculateEdges = Ok (edges, handlerLogs) ->
  _edgesSupported edges metaKG = (supportLogs, false) ->
  exists this' missing,
    query calculateEdges _loadMetaKG missingAPIs _edgesSupported newEdgeManager afterLoop
          world0 fuel this = (this', Normal) /\
    results (getResponse this') = [] /\
    knowledge_graph (getResponse this') = KnowledgeGraph.constructor /\
    response_logs (getResponse this') = logs this ++ missing ++ handlerLogs ++ supportLogs /\
    length missing = match missingAPIs with Some _ => 1 | None => 0 end.
Proof.
  intros HmetaKG Hedges Hsupported. unfold query, beforeLoop, _processQueryGraph.
  rewrite HmetaKG, Hedges, Hsupported.
  destruct missingAPIs as [titles |]; simpl.
  - eexists _, [_]. split_and!; [reflexivity | done | done | | done].
    simpl. by rewrite <- !app_assoc.
  - eexists _, []. split_and!; [reflexivity | done | done | | done].
    simpl. by rewrite <- !app_assoc.
Qed.

End QueryFacts.

(** The query of three edges stops at the second: "e0" and "e1" have been
    asked, "e2" has not. *)
Lemma query_stops_on_zero_records_witness :
  exists r',
    loop (S (1 + 0))
      {| this_ := emptyHandler; manager := {| pending := ["e0"; "e1"; "e2"]; stored_records := [] |};
         unavailableAPIs := []; world := tt; queried := [] |} = Returned r' /\
    queried r' = ["e0"; "e1"] /\
    toy_query (S (1 + 0)) = (this_ r', Normal) /\
    results (getResponse (this_ r')) = [] /\
    level <$> last (logs (this_ r')) = Some "WARNING".
Proof.
  set (r0 := {| this_ := emptyHandler;
                manager := {| pending := ["e0"; "e1"; "e2"]; stored_records := [] |};
                unavailableAPIs := []; world := tt; queried := [] |}).
  destruct (turns 1 r0) as [r |] eqn:Hturns; [| by vm_compute in Hturns].
  assert (queried r = ["e0"] /\ (getNext (manager r)).1 = "e1") as [Hq He].
  { vm_compute in Hturns. by injection Hturns as <-. }
  destruct (query_stops_on_zero_records (Edges := list string) (MetaKG := unit)
              (Ok (["e0"; "e1"; "e2"], [])) (Ok tt) None (fun _ _ => ([], true))
              (fun edges => {| pending := edges; stored_records := [] |})
              (fun r => (this_ r, Ok tt)) tt 0 1 emptyHandler emptyHandler r0 r)
    as (r' & what & Hloop & Hqueried & _ & Hlast & Hlevel & Hquery & Hresults).
  - reflexivity.
  - exact Hturns.
  - vm_compute in Hturns. by injection Hturns as <-.
  - left. vm_compute in Hturns. injection Hturns as <-. by eexists _, _, _.
  - exists r'. rewrite Hq, He in Hqueried. split_and!; try done.
    by rewrite Hlast.
Defined.

Lemma query_loop_only_appends_logs_witness :
  let r0 := {| this_ := emptyHandler;
               manager := {| pending := ["e0"; "e1"; "e2"]; stored_records := [] |};
               unavailableAPIs := []; world := tt; queried := [] |} in
  match loop 5 r0 with
  | AllExecuted r | Returned r | Threw r _ | StillRunning r =>
      logs emptyHandler `prefix_of` logs (this_ r)
  end.
Proof.
  apply (query_loop_only_appends_logs (Edges := list string) (MetaKG := unit)
           (Ok (["e0"; "e1"; "e2"], [])) (Ok tt) None (fun _ _ => ([], true))
           (fun edges => {| pending := edges; stored_records := [] |}) tt 5
           emptyHandler emptyHandler).
  reflexivity.
Defined.

Lemma query_returns_when_edges_unsupported_witness :
  exists this' missing,
    query (M := ToyManager) (Edges := list string) (MetaKG := unit)
      (Ok (["e0"], [])) (Ok tt) None (fun _ _ => ([], false))
      (fun edges => {| pending := edges; stored_records := [] |})
      (fun r => (this_ r, Ok tt)) tt 3 emptyHandler = (this', Normal) /\
    results (getResponse this') = [] /\
    knowledge_graph (getResponse this') = KnowledgeGraph.constructor /\
    response_logs (getResponse this') = logs emptyHandler ++ missing ++ [] ++ [] /\
    length missing = 0.
Proof.
  apply (query_returns_when_edges_unsupported (M := ToyManager) (Edges := list string)
           (MetaKG := unit) (Ok (["e0"], [])) (Ok tt) None (fun _ _ => ([], false))
           (fun edges => {| pending := edges; stored_records := [] |})
           (fun r => (this_ r, Ok tt)) tt 3 emptyHandler tt ["e0"] [] []); reflexivity.
Defined.

Lemma query_surfaces_InvalidQueryGraphError_witness :
  exists this' e,
    query (M := ToyManager) (Edges := list string) (MetaKG := unit)
      (Throw TypeError) (Ok tt) None (fun _ _ => ([], true))
      (fun edges => {| pending := edges; stored_records := [] |})
      (fun r => (this_ r, Ok tt)) tt 3 emptyHandler = (this', Error_ e) /\
    name e = "InvalidQueryGraphError" /\ statusCode e = Some 400%Z.
Proof.
  apply (query_surfaces_InvalidQueryGraphError (M := ToyManager) (Edges := list string)
           (MetaKG := unit) (Throw TypeError) (Ok tt) None (fun _ _ => ([], true))
           (fun edges => {| pending := edges; stored_records := [] |})
           (fun r => (this_ r, Ok tt)) tt 3 emptyHandler tt TypeError); reflexivity.
Defined.

(** ** The query graph ([setQueryGraph]) *)

Import JSFacts.

Lemma array_includes_app (x : string) (l l' : list KnowledgeGraph.JSValue) :
  array_includes x (l ++ l') = array_includes x l || array_includes x l'.
Proof. apply existsb_app. Qed.

Lemma addGene_array (l : list KnowledgeGraph.JSValue) :
  exists l',
    addGene (KnowledgeGraph.JArr l) = Ok (KnowledgeGraph.JArr l') /\
    (array_includes "biolink:Protein" l' = true -> array_includes "biolink:Gene" l' = true) /\
    (l' = l \/
     l' = l ++ [KnowledgeGraph.JStr "biolink:Gene"] /\
     array_includes "biolink:Protein" l = true /\ array_includes "biolink:Gene" l = false).
Proof.
  simpl. destruct (array_includes "biolink:Protein" l) eqn:Hp;
    destruct (array_includes "biolink:Gene" l) eqn:Hg; simpl.
  - exists l. by auto.
  - exists (l ++ [KnowledgeGraph.JStr "biolink:Gene"]). split_and!; [done | | by auto].
    intros _. rewrite array_includes_app. simpl. apply orb_true_r.
  - exists l. by auto.
  - exists l. split_and!; [done | by rewrite Hp | by auto].
Qed.

Lemma addGene_Ok_array (categories categories' : KnowledgeGraph.JSValue) :
  addGene categories = Ok categories' ->
  (exists l, categories = KnowledgeGraph.JArr l) <-> (exists l', categories' = KnowledgeGraph.JArr l').
Proof.
  destruct categories as [| | | | s | l |]; simpl; try done.
  - destruct (_ && _); [done |]. intros [= <-]. split; intros [? [=]].
  - destruct (_ && _); intros [= <-]; split; by eauto.
Qed.

Lemma obj_set_keys_present {V : Type} (k : string) (v v' : V) (o : Obj V) :
  obj_get k o = Some v' -> (obj_set k v o).*1 = o.*1.
Proof.
  intros Hget. rewrite obj_set_keys. destruct (decide (k ∈ o.*1)) as [| Hk]; [done |].
  apply obj_get_None in Hk. congruence.
Qed.

(** What a visit does to a node that is an object. *)
Lemma visitNode_object (node : Obj KnowledgeGraph.JSValue) (currentNode' : KnowledgeGraph.JSValue) :
  visitNode (KnowledgeGraph.JObj node) = Ok currentNode' ->
  exists node',
    currentNode' = KnowledgeGraph.JObj node' /\
    node'.*1 = node.*1 /\
    (forall k, k <> "categories" -> obj_get k node' = obj_get k node) /\
    match obj_get "categories" node with
    | Some categories =>
        exists categories', addGene categories = Ok categories' /\
                            obj_get "categories" node' = Some categories'
    | None => node' = node
    end.
Proof.
  simpl. destruct (obj_get "categories" node) as [categories |] eqn:Hget.
  - destruct (addGene categories) as [categories' |] eqn:Hadd; simpl; [| done].
    intros [= <-]. eexists. split_and!; [done | by eapply obj_set_keys_present | |].
    + intros k Hk. rewrite obj_get_obj_set. by rewrite decide_False by done.
    + exists categories'. split; [done |]. rewrite obj_get_obj_set. by rewrite decide_True.
  - intros [= <-]. by exists node.
Qed.

Lemma visitNode_other (currentNode currentNode' : KnowledgeGraph.JSValue) :
  visitNode currentNode = Ok currentNode' ->
  (forall node, currentNode <> KnowledgeGraph.JObj node) ->
  currentNode' = currentNode /\ forall node, currentNode' <> KnowledgeGraph.JObj node.
Proof.
  destruct currentNode; simpl; try done; try (intros [= <-]; by split).
  intros _ H. by destruct (H o).
Qed.

Lemma visitNodes_keys (nodes : Obj KnowledgeGraph.JSValue) :
  (visitNodes nodes).1.*1 = nodes.*1.
Proof.
  induction nodes as [| [nodeId currentNode] nodes IH]; simpl; [done |].
  destruct (visitNode currentNode); [| done].
  destruct (visitNodes nodes) as [rest outcome]. simpl in *. by f_equal.
Qed.

Lemma visitNodes_obj_get (nodes nodes' : Obj KnowledgeGraph.JSValue) (nodeId : string) :
  visitNodes nodes = (nodes', Ok tt) ->
  match obj_get nodeId nodes with
  | Some currentNode =>
      exists currentNode', visitNode currentNode = Ok currentNode' /\
                           obj_get nodeId nodes' = Some currentNode'
  | None => obj_get nodeId nodes' = None
  end.
Proof.
  revert nodes'. induction nodes as [| [k currentNode] nodes IH]; intros nodes'; simpl.
  - by intros [= <-].
  - destruct (visitNode currentNode) as [currentNode' |] eqn:Hv; [| done].
    destruct (visitNodes nodes) as [rest outcome] eqn:Hrest.
    intros [= <- ->]. simpl. case_bool_decide; [by eauto |]. by apply IH.
Qed.

(** X1. When the call returns, every node whose categories are an array has
    them still, either as they were or with "biolink:Gene" added at the
    end, the latter exactly when they held "biolink:Protein" without
    "biolink:Gene"; afterwards no node has "biolink:Protein" without
    "biolink:Gene". *)
Theorem setQueryGraph_gene_follows_protein (queryGraph queryGraph' : KnowledgeGraph.JSValue)
    (nodeId : string) (categories : list KnowledgeGraph.JSValue) :
  setQueryGraph queryGraph = (queryGraph', Ok tt) ->
  categoriesOf queryGraph nodeId = Some categories ->
  exists categories',
    categoriesOf queryGraph' nodeId = Some categories' /\
    (array_includes "biolink:Protein" categories' = true ->
     array_includes "biolink:Gene" categories' = true) /\
    (categories' = categories \/
     categories' = categories ++ [KnowledgeGraph.JStr "biolink:Gene"] /\
     array_includes "biolink:Protein" categories = true /\
     array_includes "biolink:Gene" categories = false).
Proof.
  unfold categoriesOf.
  destruct queryGraph as [| | | | | | o]; simpl; try done.
  destruct (obj_get "nodes" o) as [[| | | | | | nodes] |] eqn:Hnodes; try done.
  destruct (visitNodes nodes) as [nodes' outcome] eqn:Hv. intros [= <- ->].
  rewrite obj_get_obj_set, decide_True by done.
  pose proof (visitNodes_obj_get nodes nodes' nodeId Hv) as Hget.
  destruct (obj_get nodeId nodes) as [[| | | | | | node] |]; try done.
  destruct Hget as (currentNode' & Hvisit & ->).
  apply visitNode_object in Hvisit as (node' & -> & _ & _ & Hcat).
  destruct (obj_get "categories" node) as [[| | | | | l |] |]; try done.
  intros [= ->]. destruct Hcat as (categories' & Hadd & ->).
  destruct (addGene_array categories) as (l' & Hadd' & Hpost & Hrel).
  rewrite Hadd' in Hadd. injection Hadd as <-. by exists l'.
Qed.

Lemma setQueryGraph_gene_follows_protein_witness :
  exists queryGraph',
    setQueryGraph protein_graph = (queryGraph', Ok tt) /\
    categoriesOf queryGraph' "n0"
    = Some [KnowledgeGraph.JStr "biolink:Protein"; KnowledgeGraph.JStr "biolink:Gene"] /\
    categoriesOf queryGraph' "n1"
    = Some [KnowledgeGraph.JStr "biolink:Gene"; KnowledgeGraph.JStr "biolink:Protein"].
Proof.
  destruct (setQueryGraph protein_graph) as [queryGraph' outcome] eqn:Hset.
  assert (outcome = Ok tt) as -> by (by vm_compute in Hset; injection Hset as _ <-).
  exists queryGraph'. split; [done |].
  destruct (setQueryGraph_gene_follows_protein protein_graph queryGraph' "n0"
              [KnowledgeGraph.JStr "biolink:Protein"] Hset eq_refl)
    as (c0 & H0 & _ & [-> | [-> _]]).
  - vm_compute in Hset. injection Hset as <-. by vm_compute in H0.
  - split; [exact H0 |]. vm_compute in Hset. by injection Hset as <-.
Defined.

(** X2. The call changes nothing but categories: the query graph keeps its
    properties other than [nodes], its node identifiers in their order,
    and every property of every node other than [categories]. *)
Theorem setQueryGraph_changes_categories_only (queryGraph queryGraph' : KnowledgeGraph.JSValue)
    (outcome : Outcome unit) (o : Obj KnowledgeGraph.JSValue) :
  queryGraph = KnowledgeGraph.JObj o ->
  setQueryGraph queryGraph = (queryGraph', outcome) ->
  exists o',
    queryGraph' = KnowledgeGraph.JObj o' /\
    o'.*1 = o.*1 /\
    (forall k, k <> "nodes" -> obj_get k o' = obj_get k o) /\
    nodeIds queryGraph' = nodeIds queryGraph /\
    (outcome = Ok tt -> forall nodeId k, k <> "categories" ->
       nodeProperty queryGraph' nodeId k = nodeProperty queryGraph nodeId k).
Proof.
  intros ->. unfold nodeIds, nodeProperty. simpl.
  destruct (obj_get "nodes" o) as [[| | | | | nodes | nodes] |] eqn:Hnodes;
    try (intros [= <- <-]; exists o; by rewrite Hnodes).
  - destruct (visitNodes _) as [nodes' out] eqn:Hv. intros [= <- <-].
    eexists. split_and!; [done | by eapply obj_set_keys_present | | |].
    + intros k Hk. rewrite obj_get_obj_set. by rewrite decide_False by done.
    + by rewrite obj_get_obj_set, decide_True.
    + intros _ nodeId k _. by rewrite obj_get_obj_set, decide_True.
  - destruct (visitNodes nodes) as [nodes' out] eqn:Hv. intros [= <- <-].
    eexists. split_and!; [done | by eapply obj_set_keys_present | | |].
    + intros k Hk. rewrite obj_get_obj_set. by rewrite decide_False by done.
    + rewrite obj_get_obj_set, decide_True by done.
      pose proof (visitNodes_keys nodes) as Hk. by rewrite Hv in Hk.
    + intros -> nodeId k Hk. rewrite obj_get_obj_set, decide_True by done.
      pose proof (visitNodes_obj_get nodes nodes' nodeId Hv) as Hget.
      destruct (obj_get nodeId nodes) as [currentNode |]; [| by rewrite Hget].
      destruct Hget as (currentNode' & Hvisit & ->).
      destruct currentNode;
        try (apply visitNode_other in Hvisit as [-> _]; done).
      apply visitNode_object in Hvisit as (node' & -> & _ & Hother & _). by apply Hother.
Qed.

Lemma setQueryGraph_changes_categories_only_witness :
  exists queryGraph',
    setQueryGraph protein_graph = (queryGraph', Ok tt) /\
    nodeIds queryGraph' = ["n0"; "n1"; "n2"] /\
    nodeProperty queryGraph' "n0" "ids"
    = Some (KnowledgeGraph.JArr [KnowledgeGraph.JStr "UniProtKB:P04637"]).
Proof.
  destruct (setQueryGraph protein_graph) as [queryGraph' outcome] eqn:Hset.
  assert (outcome = Ok tt) as -> by (by vm_compute in Hset; injection Hset as _ <-).
  exists queryGraph'. split; [done |].
  destruct (setQueryGraph_changes_categories_only protein_graph queryGraph' (Ok tt) _
              eq_refl Hset) as (o' & _ & _ & _ & Hids & Hprop).
  split; [exact Hids |]. by rewrite (Hprop eq_refl "n0" "ids").
Defined.

Lemma obj_set_obj_set {V : Type} (k : string) (v : V) (o : Obj V) :
  obj_set k v (obj_set k v o) = obj_set k v o.
Proof.
  induction o as [| [k0 v0] o IH]; simpl.
  - by rewrite bool_decide_true.
  - case_bool_decide as Hk; simpl.
    + by rewrite bool_decide_true.
    + rewrite bool_decide_false by done. by rewrite IH.
Qed.

Lemma addGene_addGene (categories categories' : KnowledgeGraph.JSValue) :
  addGene categories = Ok categories' -> addGene categories' = Ok categories'.
Proof.
  destruct categories as [| | | | s | l |]; simpl; try done.
  - destruct (_ && _) eqn:Hc; [done |]. intros [= <-]. simpl. by rewrite Hc.
  - destruct (_ && _) eqn:Hc; intros [= <-]; simpl.
    + rewrite !array_includes_app. simpl.
      by rewrite orb_true_r, andb_false_r.
    + by rewrite Hc.
Qed.

Lemma visitNode_visitNode (currentNode currentNode' : KnowledgeGraph.JSValue) :
  visitNode currentNode = Ok currentNode' -> visitNode currentNode' = Ok currentNode'.
Proof.
  destruct currentNode as [| | | | | | o]; simpl; try (by intros [= <-]).
  destruct (obj_get "categories" o) as [categories |] eqn:Hget.
  - destruct (addGene categories) as [categories' |] eqn:Hadd; simpl; [| done].
    intros [= <-]. simpl. rewrite obj_get_obj_set, decide_True by done.
    rewrite (addGene_addGene _ _ Hadd). simpl. by rewrite obj_set_obj_set.
  - intros [= <-]. simpl. by rewrite Hget.
Qed.

Lemma visitNodes_visitNodes (nodes nodes' : Obj KnowledgeGraph.JSValue) :
  visitNodes nodes = (nodes', Ok tt) -> visitNodes nodes' = (nodes', Ok tt).
Proof.
  revert nodes'. induction nodes as [| [nodeId currentNode] nodes IH]; intros nodes'; simpl.
  - by intros [= <-].
  - destruct (visitNode currentNode) as [currentNode' |] eqn:Hv; [| done].
    destruct (visitNodes nodes) as [rest outcome] eqn:Hrest.
    intros [= <- ->]. simpl. rewrite (visitNode_visitNode _ _ Hv).
    by rewrite (IH rest eq_refl).
Qed.

Lemma imap_keys_values {A : Type} (f : nat -> string) (l : list A) (l' : list (string * A)) :
  l'.*1 = (imap (fun i v => (f i, v)) l).*1 ->
  imap (fun i v => (f i, v)) l'.*2 = l'.
Proof.
  revert f l'. induction l as [| x l IH]; intros f [| [k y] l']; simpl; try done.
  intros [= -> Hl]. f_equal. apply (IH (f ∘ S)). exact Hl.
Qed.

(** X3. Setting the query graph the call has left changes nothing more: a
    second call on it returns with the same graph. *)
Theorem setQueryGraph_idempotent (queryGraph queryGraph' : KnowledgeGraph.JSValue) :
  setQueryGraph queryGraph = (queryGraph', Ok tt) ->
  setQueryGraph queryGraph' = (queryGraph', Ok tt).
Proof.
  destruct queryGraph as [| | | | | | o]; simpl; try (by intros [= <-]).
  destruct (obj_get "nodes" o) as [[| | | | | nodes | nodes] |] eqn:Hget;
    try (intros [= <-]; simpl; by rewrite Hget).
  - destruct (visitNodes _) as [nodes' outcome] eqn:Hv. intros [= <- ->]. simpl.
    rewrite obj_get_obj_set, decide_True by done.
    pose proof (visitNodes_keys (imap (fun i v => (pretty i, v)) nodes)) as Hkeys.
    rewrite Hv in Hkeys. simpl in Hkeys.
    rewrite (imap_keys_values pretty nodes nodes' Hkeys).
    rewrite (visitNodes_visitNodes _ _ Hv). by rewrite obj_set_obj_set.
  - destruct (visitNodes nodes) as [nodes' outcome] eqn:Hv. intros [= <- ->]. simpl.
    rewrite obj_get_obj_set, decide_True by done.
    rewrite (visitNodes_visitNodes _ _ Hv). by rewrite obj_set_obj_set.
Qed.

Lemma setQueryGraph_idempotent_witness :
  exists queryGraph',
    setQueryGraph protein_graph = (queryGraph', Ok tt) /\
    setQueryGraph queryGraph' = (queryGraph', Ok tt).
Proof.
  destruct (setQueryGraph protein_graph) as [queryGraph' outcome] eqn:Hset.
  assert (outcome = Ok tt) as -> by (by vm_compute in Hset; injection Hset as _ <-).
  exists queryGraph'. split; [done |].
  exact (setQueryGraph_idempotent protein_graph queryGraph' Hset).
Defined.

Lemma visitNodes_Ok (nodes : Obj KnowledgeGraph.JSValue) :
  (forall nodeId currentNode, (nodeId, currentNode) ∈ nodes ->
     exists currentNode', visitNode currentNode = Ok currentNode') ->
  exists nodes', visitNodes nodes = (nodes', Ok tt).
Proof.
  induction nodes as [| [nodeId currentNode] nodes IH]; intros Hall; simpl; [by eexists |].
  destruct (Hall nodeId currentNode) as [currentNode' ->]; [by left |].
  destruct IH as [nodes' ->]; [| by eexists].
  intros k n Hk. apply (Hall k n). by right.
Qed.

Lemma visitNodes_elem_of (nodes nodes' : Obj KnowledgeGraph.JSValue)
    (nodeId : string) (currentNode' : KnowledgeGraph.JSValue) :
  visitNodes nodes = (nodes', Ok tt) ->
  (nodeId, currentNode') ∈ nodes' ->
  exists currentNode, (nodeId, currentNode) ∈ nodes /\ visitNode currentNode = Ok currentNode'.
Proof.
  revert nodes'. induction nodes as [| [k currentNode] nodes IH]; intros nodes'; simpl.
  - intros [= <-] H. by apply elem_of_nil in H.
  - destruct (visitNode currentNode) as [n' |] eqn:Hv; [| done].
    destruct (visitNodes nodes) as [rest outcome] eqn:Hrest.
    intros [= <- ->] [[= -> ->] | Hin]%elem_of_cons.
    + exists currentNode. split; [by left | done].
    + destruct (IH rest eq_refl Hin) as (n & Hn & Hvn). exists n. split; [by right | done].
Qed.

Lemma visitNodes_stops (nodes : Obj KnowledgeGraph.JSValue)
    (nodeId : string) (currentNode : KnowledgeGraph.JSValue) (e : Error) :
  (nodeId, currentNode) ∈ nodes ->
  visitNode currentNode = Throw e ->
  exists e', (visitNodes nodes).2 = Throw e'.
Proof.
  induction nodes as [| [k n] nodes IH]; intros Hin Hv; [by apply elem_of_nil in Hin |].
  simpl. destruct (visitNode n) as [n' |] eqn:Hn; [| by eexists].
  apply elem_of_cons in Hin as [[= -> ->] | Hin]; [congruence |].
  destruct (IH Hin Hv) as [e' He']. destruct (visitNodes nodes). simpl in *. by eexists.
Qed.

Lemma addGene_TypeError (categories : KnowledgeGraph.JSValue) (e : Error) :
  addGene categories = Throw e -> e = TypeError.
Proof.
  destruct categories; simpl; try (by intros [= <-]).
  - destruct (_ && _); [by intros [= <-] | done].
  - by destruct (_ && _).
Qed.

Lemma visitNode_TypeError (currentNode : KnowledgeGraph.JSValue) (e : Error) :
  visitNode currentNode = Throw e -> e = TypeError.
Proof.
  destruct currentNode as [| | | | | | o]; simpl; try done; try (by intros [= <-]).
  destruct (obj_get "categories" o) as [categories |]; [| done].
  destruct (addGene categories) eqn:Hadd; simpl; [done |].
  intros [= <-]. by eapply addGene_TypeError.
Qed.

Lemma visitNodes_TypeError (nodes : Obj KnowledgeGraph.JSValue) (e : Error) :
  (visitNodes nodes).2 = Throw e -> e = TypeError.
Proof.
  induction nodes as [| [k n] nodes IH]; simpl; [done |].
  destruct (visitNode n) eqn:Hn.
  - destruct (visitNodes nodes). simpl in *. exact IH.
  - simpl. intros [= <-]. by eapply visitNode_TypeError.
Qed.

(** X4. On a query graph of the TRAPI shape the call returns, and leaves a
    query graph of that shape. *)
Theorem setQueryGraph_completes (queryGraph : KnowledgeGraph.JSValue) :
  wellShaped queryGraph ->
  exists queryGraph',
    setQueryGraph queryGraph = (queryGraph', Ok tt) /\ wellShaped queryGraph'.
Proof.
  intros (o & nodes & -> & Hnodes & Hshape). simpl. rewrite Hnodes.
  destruct (visitNodes_Ok nodes) as [nodes' Hv].
  { intros nodeId currentNode Hin.
    destruct (Hshape nodeId currentNode Hin) as (node & -> & Hcat). simpl.
    destruct (obj_get "categories" node) as [categories |]; [| by eexists].
    destruct (Hcat categories eq_refl) as [l ->].
    destruct (addGene_array l) as (l' & -> & _). by eexists. }
  rewrite Hv. eexists. split; [done |].
  eexists _, nodes'. split_and!; [done | by rewrite obj_get_obj_set, decide_True |].
  intros nodeId currentNode' Hin.
  destruct (visitNodes_elem_of _ _ _ _ Hv Hin) as (currentNode & Hin0 & Hvisit).
  destruct (Hshape nodeId currentNode Hin0) as (node & -> & Hcat).
  apply visitNode_object in Hvisit as (node' & -> & _ & _ & Hcat').
  exists node'. split; [done |]. intros categories' Hget'.
  destruct (obj_get "categories" node) as [categories |] eqn:Hget.
  - destruct Hcat' as (c' & Hadd & Hget''). rewrite Hget'' in Hget'. injection Hget' as ->.
    apply (addGene_Ok_array _ _ Hadd). by apply Hcat.
  - subst node'. congruence.
Qed.

Lemma setQueryGraph_completes_witness :
  exists queryGraph',
    setQueryGraph protein_graph = (queryGraph', Ok tt) /\ wellShaped queryGraph'.
Proof.
  apply setQueryGraph_completes.
  eexists _, _. split_and!; [reflexivity | reflexivity |].
  intros nodeId currentNode Hin.
  repeat (apply elem_of_cons in Hin as [[= -> ->] | Hin]);
    [| | | by apply elem_of_nil in Hin];
    (eexists; split; [reflexivity |]; intros categories [= <-]; by eexists).
Defined.

(** X5. A node whose own [categories] is neither an array nor a string
    ([null], a number, a boolean, an object) makes the call throw a
    [TypeError], which carries no status code; [this.queryGraph] is not
    assigned. *)
Theorem setQueryGraph_throws_TypeError (queryGraph : KnowledgeGraph.JSValue)
    (o nodes node : Obj KnowledgeGraph.JSValue) (nodeId : string)
    (categories : KnowledgeGraph.JSValue) :
  queryGraph = KnowledgeGraph.JObj o ->
  obj_get "nodes" o = Some (KnowledgeGraph.JObj nodes) ->
  (nodeId, KnowledgeGraph.JObj node) ∈ nodes ->
  obj_get "categories" node = Some categories ->
  (forall l, categories <> KnowledgeGraph.JArr l) ->
  (forall s, categories <> KnowledgeGraph.JStr s) ->
  exists e,
    (setQueryGraph queryGraph).2 = Throw e /\
    e = TypeError /\ name e = "TypeError" /\ statusCode e = None.
Proof.
  intros -> Hnodes Hin Hget Harr Hstr. simpl. rewrite Hnodes.
  destruct (visitNodes_stops nodes nodeId (KnowledgeGraph.JObj node) TypeError Hin) as [e He].
  { simpl. rewrite Hget. destruct categories as [| | | | s | l |]; try done.
    - by destruct (Hstr s).
    - by destruct (Harr l). }
  pose proof (visitNodes_TypeError nodes e He) as ->.
  destruct (visitNodes nodes) as [nodes' outcome]. simpl in *. by exists TypeError.
Qed.

Lemma setQueryGraph_throws_TypeError_witness :
  exists e,
    (setQueryGraph
       (KnowledgeGraph.JObj
          [("nodes", KnowledgeGraph.JObj
              [("n0", KnowledgeGraph.JObj [("categories", KnowledgeGraph.JNull)])])])).2
    = Throw e /\
    e = TypeError /\ name e = "TypeError" /\ statusCode e = None.
Proof.
  eapply (setQueryGraph_throws_TypeError _ _ _ _ "n0" KnowledgeGraph.JNull);
    [reflexivity | reflexivity | by left | reflexivity | done | done].
Defined.

End QueryHandlerFacts.

(* ===================================================================== *)
(** * The PFOCR lookup *)
(* ===================================================================== *)

Module PfocrFacts.

Import JS KnowledgeGraph Pfocr.

Lemma join_clauses (prefix : string) (x : string) (l : list string) :
  prefix +:+ join (" OR " +:+ prefix) (x :: l)
  = join " OR " ((fun g => prefix +:+ g) <$> x :: l).
Proof.
  revert x. induction l as [| y l IH]; intros x.
  - done.
  - change (join (" OR " +:+ prefix) (x :: y :: l))
      with (x +:+ (" OR " +:+ prefix) +:+ join (" OR " +:+ prefix) (y :: l)).
    change (join " OR " ((fun g => prefix +:+ g) <$> x :: y :: l))
      with ((prefix +:+ x) +:+ " OR " +:+ join " OR " ((fun g => prefix +:+ g) <$> y :: l)).
    rewrite <- IH. by rewrite !CacheHandlerFacts.string_app_assoc.
Qed.

(** X26. [getPfocr] sends one request that asks for the figures that mention
    any of the genes: one clause [associatedWith.mentions.genes.<gene>] per
    gene, in lower case and in the order given, joined by " OR ". For an
    empty list it still sends a request, with one clause that names no
    gene. It answers with the [data] of the response ([undefined] when the
    response has none) and passes a rejection on unchanged. *)
Theorem getPfocr_one_clause_per_gene (toLowerCase : string -> string)
    (axios_get : string -> Outcome (Obj JSValue)) (gene : list string) :
  let clauses :=
    match gene with
    | [] => "associatedWith.mentions.genes."
    | _ => join " OR " ((fun g => "associatedWith.mentions.genes." +:+ toLowerCase g) <$> gene)
    end in
  getPfocr toLowerCase axios_get gene
  = let! result := axios_get ("https://biothings.ncats.io/pfocr/query?q=" +:+ clauses
                              +:+ "&fetch_all=true") in
    Ok (default JUndefined (obj_get "data" result)).
Proof.
  intros clauses. unfold getPfocr, bind.
  assert (url +:+ query toLowerCase gene +:+ "&fetch_all=true"
          = "https://biothings.ncats.io/pfocr/query?q=" +:+ clauses +:+ "&fetch_all=true")
    as ->; [| done].
  unfold url, query, clauses. destruct gene as [| g gene]; [done |].
  change ("q=associatedWith.mentions.genes." +:+ ?s)
    with ("q=" +:+ ("associatedWith.mentions.genes." +:+ s)).
  rewrite fmap_cons.
  change (" OR associatedWith.mentions.genes.")
    with (" OR " +:+ "associatedWith.mentions.genes.").
  rewrite (join_clauses "associatedWith.mentions.genes." (toLowerCase g) (toLowerCase <$> gene)).
  rewrite <- fmap_cons, <- list_fmap_compose. done.
Qed.

End PfocrFacts.
